(** * hume-cli: the settings cascade and the streaming synthesis pipeline

    A shallow embedding of [src/tts.ts] (class [Tts] with its helpers
    [calculateOutputOpts] and [calculateUtterance]) and of the [--last]
    branch of [Voices.save] in [src/voices.ts].

    Conventions of the embedding.
    - A property that may be missing, [undefined] or [null] (an optional CLI
      flag, a key of a JSON config file) has type [maybe T].
    - A value of TypeScript type [T | null] has type [option T]; [None] is
      the one absent value of that type.
    - The numeric flags [numGenerations] and [lastIndex] range over the
      integers ([Z]); [speed] and [trailingSilence] are rationals and are
      only passed through.
    - Effects are recorded as a trace of events; a thrown error keeps the
      events emitted before it.
    - Library functions of the platform ([Buffer.from (_, 'base64')],
      [path.join], [String.prototype.trim], [Date.now]), the remote service
      and the audio player are members of the records [Platform],
      [HumeClient] and [Tts].
    - A [string] holds the UTF-8 encoding of the JavaScript string.
    - The disk is taken to accept what is written: [mkdir] and [writeFile]
      do not reject, and a spawned player does not emit [error]. *)

From Stdlib Require Import String Ascii List ZArith QArith Bool Lia DecimalString.
Import ListNotations.

#[local] Open Scope Z_scope.
#[local] Open Scope string_scope.

(** ** JavaScript values *)

Inductive maybe (T : Type) : Type :=
| Undefined
| Null
| Val (v : T).

Arguments Undefined {T}.
Arguments Null {T}.
Arguments Val {T} v.

(** [x === undefined || x === null] *)
Definition nullish {T} (x : maybe T) : bool :=
  match x with
  | Val _ => false
  | _ => true
  end.

(** [a ?? b] where the left operand is an object or [null]. *)
Definition orElse {A} (a : option A) (b : option A) : option A :=
  match a with
  | Some _ => a
  | None => b
  end.

Notation "a ?? b" := (orElse a b) (at level 60, right associativity).

(** [a ?? d] where [d] is never nullish. *)
Definition withDefault {A} (a : option A) (d : A) : A :=
  match a with
  | Some v => v
  | None => d
  end.

(** Truthiness, by type: the empty string, [0] and [false] are falsy. *)
Class Truthy (T : Type) := truthy : T -> bool.

#[global] Instance Truthy_string : Truthy string := fun s => negb (s =? "").
#[global] Instance Truthy_Z : Truthy Z := fun n => negb (n =? 0)%Z.
#[global] Instance Truthy_bool : Truthy bool := fun b => b.

#[global] Instance Truthy_maybe {T} `{Truthy T} : Truthy (maybe T) :=
  fun x => match x with Val v => truthy v | _ => false end.

#[global] Instance Truthy_option {T} `{Truthy T} : Truthy (option T) :=
  fun x => match x with Some v => truthy v | None => false end.

(** [arr[i]] for an integer [i]: [undefined] out of range. *)
Definition index {T} (arr : list T) (i : Z) : maybe T :=
  if (i <? 0)%Z then Undefined
  else match nth_error arr (Z.to_nat i) with
       | Some v => Val v
       | None => Undefined
       end.

Definition Buffer := list Byte.byte.

(** ** Option types of the CLI *)

Inductive PlayMode := all | first | off.
Inductive Format := wav | mp3 | pcm.
Inductive Provider := CUSTOM_VOICE | HUME_AI.

Definition PlayMode_eqb (a b : PlayMode) : bool :=
  match a, b with
  | all, all | first, first | off, off => true
  | _, _ => false
  end.

Definition Provider_eqb (a b : Provider) : bool :=
  match a, b with
  | CUSTOM_VOICE, CUSTOM_VOICE | HUME_AI, HUME_AI => true
  | _, _ => false
  end.

Definition Format_to_string (f : Format) : string :=
  match f with
  | wav => "wav"
  | mp3 => "mp3"
  | pcm => "pcm"
  end.

(** Enum members are non-empty strings, hence truthy. *)
#[global] Instance Truthy_Provider : Truthy Provider := fun _ => true.

(** [SynthesisOpts]: the raw options of one invocation. *)
Module Raw.
Record t := mk {
  text : string;
  voiceName : maybe string;
  voiceId : maybe string;
  description : maybe string;
  contextGenerationId : maybe string;
  numGenerations : maybe Z;
  outputFilePath : maybe string;
  outputDir : maybe string;
  prefix : maybe string;
  play : maybe PlayMode;
  format : maybe Format;
  last : maybe bool;
  lastIndex : maybe Z;
  playCommand : maybe string;
  presetVoice : maybe bool;
  provider : maybe Provider;
  speed : maybe Q;
  trailingSilence : maybe Q;
  streaming : maybe bool;
  instantMode : maybe bool
}.

Definition empty (txt : string) : t :=
  mk txt Undefined Undefined Undefined Undefined Undefined Undefined
     Undefined Undefined Undefined Undefined Undefined Undefined Undefined
     Undefined Undefined Undefined Undefined Undefined Undefined.
End Raw.

(** [ConfigData['tts']]: the [tts] section of a persisted config record.
    [instantMode] is a key of it because [osgd] is applied to that key. *)
Module Cfg.
Record t := mk {
  voiceName : maybe string;
  voiceId : maybe string;
  description : maybe string;
  outputDir : maybe string;
  prefix : maybe string;
  play : maybe PlayMode;
  format : maybe Format;
  numGenerations : maybe Z;
  last : maybe bool;
  lastIndex : maybe Z;
  playCommand : maybe string;
  presetVoice : maybe bool;
  speed : maybe Q;
  trailingSilence : maybe Q;
  streaming : maybe bool;
  instantMode : maybe bool
}.

Definition empty : t :=
  mk Undefined Undefined Undefined Undefined Undefined Undefined Undefined
     Undefined Undefined Undefined Undefined Undefined Undefined Undefined
     Undefined Undefined.
End Cfg.

Record ConfigData := {
  tts : maybe Cfg.t;
  json : maybe bool;
  pretty : maybe bool;
  apiKey : maybe string;
  baseUrl : maybe string
}.

(** [{}] *)
Definition emptyConfig : ConfigData :=
  {| tts := Undefined; json := Undefined; pretty := Undefined;
     apiKey := Undefined; baseUrl := Undefined |}.

(** [config?.tts?.[key]] *)
Definition ttsKey {T} (key : Cfg.t -> maybe T) (config : ConfigData) : maybe T :=
  match tts config with
  | Val section => key section
  | _ => Undefined
  end.

(** [Tts.defaults] *)
Module Defaults.
Definition description : option string := None.
Definition contextGenerationId : option string := None.
Definition voiceName : option string := None.
Definition voiceId : option string := None.
Definition numGenerations : Z := 1.
Definition outputFilePath : string := "".
Definition outputDir : string := "./tts-audio".
Definition prefix : string := "tts-".
Definition play : PlayMode := all.
Definition format : Format := wav.
Definition last : bool := false.
Definition lastIndex : option Z := None.
Definition playCommand : option string := None.
Definition presetVoice : bool := false.
Definition speed : option Q := None.
Definition trailingSilence : option Q := None.
Definition streaming : bool := true.
Definition instantMode : bool := false.
End Defaults.

(** The return type of [Tts.resolveOpts]. *)
Module Resolved.
Record t := mk {
  text : string;
  provider : maybe Provider;
  description : option string;
  contextGenerationId : option string;
  voiceName : option string;
  voiceId : option string;
  numGenerations : Z;
  outputFilePath : string;
  outputDir : string;
  prefix : string;
  play : PlayMode;
  format : Format;
  last : bool;
  lastIndex : option Z;
  playCommand : option string;
  presetVoice : bool;
  speed : option Q;
  trailingSilence : option Q;
  streaming : bool;
  instantMode : bool
}.
End Resolved.

(** ** Errors *)

Inductive result (A : Type) : Type :=
| Ok (a : A)
| Err (message : string).

Arguments Ok {A} a.
Arguments Err {A} message.

(** ** [Tts.resolveOpts] *)

Record Tagged (R : Type) := { priority : Z; item : R }.
Arguments priority {R} _.
Arguments item {R} _.

(** A tagged value is an object, hence truthy. *)
#[global] Instance Truthy_Tagged {R} : Truthy (Tagged R) := fun _ => true.

Definition withPriority {T} (priority : Z) (item : maybe T) : option (Tagged T) :=
  match item with
  | Val v => Some {| priority := priority; item := v |}
  | _ => None
  end.

(** [lift] embeds the type of a layer's value into the type of the
    resolved field ([T] into [T | null] where the default is [null]). *)
Definition retag {T R} (lift : T -> R) (x : Tagged T) : Tagged R :=
  {| priority := priority x; item := lift (item x) |}.

(** osgd = "opts else session else global else defaults" *)
Definition osgd {T R} (lift : T -> R) (dflt : R) (o s g : maybe T) : Tagged R :=
  withDefault
    (option_map (retag lift)
       (withPriority 3 o ?? withPriority 2 s ?? withPriority 1 g))
    {| priority := 0; item := dflt |}.

(** od = "opts else defaults" *)
Definition od {T R} (lift : T -> R) (dflt : R) (o : maybe T) : Tagged R :=
  withDefault (option_map (retag lift) (withPriority 1 o))
    {| priority := 0; item := dflt |}.

Definition mutuallyExclusive {A B} `{Truthy A} `{Truthy B}
  (a b : string) (va : maybe A) (vb : maybe B) : result unit :=
  if truthy va && truthy vb
  then Err ("Unexpected: cannot specify both --" ++ a ++ " and --" ++ b)
  else Ok tt.

Definition resolveFields (globalConfig session : ConfigData) (opts : Raw.t)
  : Resolved.t :=
  let layers {T R} (lift : T -> R) (dflt : R)
        (ko : Raw.t -> maybe T) (kc : Cfg.t -> maybe T) :=
    osgd lift dflt (ko opts) (ttsKey kc session) (ttsKey kc globalConfig) in
  let description :=
    item (layers Some Defaults.description Raw.description Cfg.description) in
  let contextGenerationId :=
    item (od Some Defaults.contextGenerationId (Raw.contextGenerationId opts)) in
  let numGenerations :=
    item (layers id Defaults.numGenerations Raw.numGenerations Cfg.numGenerations) in
  let outputFilePath :=
    item (od id Defaults.outputFilePath (Raw.outputFilePath opts)) in
  let outputDir :=
    item (layers id Defaults.outputDir Raw.outputDir Cfg.outputDir) in
  let prefix := item (layers id Defaults.prefix Raw.prefix Cfg.prefix) in
  let play := item (layers id Defaults.play Raw.play Cfg.play) in
  let format := item (layers id Defaults.format Raw.format Cfg.format) in
  let last := item (layers id Defaults.last Raw.last Cfg.last) in
  let lastIndex :=
    item (layers Some Defaults.lastIndex Raw.lastIndex Cfg.lastIndex) in
  let playCommand :=
    item (layers Some Defaults.playCommand Raw.playCommand Cfg.playCommand) in
  let presetVoice :=
    item (layers id Defaults.presetVoice Raw.presetVoice Cfg.presetVoice) in
  let speed := item (layers Some Defaults.speed Raw.speed Cfg.speed) in
  let trailingSilence :=
    item (layers Some Defaults.trailingSilence Raw.trailingSilence
            Cfg.trailingSilence) in
  let streaming :=
    item (layers id Defaults.streaming Raw.streaming Cfg.streaming) in
  let instantMode :=
    item (layers id Defaults.instantMode Raw.instantMode Cfg.instantMode) in
  (* VoiceId and voiceName are mutually exclusive within opts, but not across
     layers. VoiceId defined with greater priority should override voiceName
     defined with lower priority, and vice versa *)
  let voiceName_ := layers Some Defaults.voiceName Raw.voiceName Cfg.voiceName in
  let voiceId_ := layers Some Defaults.voiceId Raw.voiceId Cfg.voiceId in
  let voices :=
    if truthy voiceName_ && truthy voiceId_ then
      if (priority voiceName_ >? priority voiceId_)%Z
      then (item voiceName_, None)
      else (None, item voiceId_)
    else (item voiceName_, item voiceId_) in
  let voiceName := fst voices in
  let voiceId := snd voices in
  {| Resolved.text := Raw.text opts;
     Resolved.provider := Raw.provider opts;
     Resolved.description := description;
     Resolved.contextGenerationId := contextGenerationId;
     Resolved.voiceName := voiceName;
     Resolved.voiceId := voiceId;
     Resolved.numGenerations := numGenerations;
     Resolved.outputFilePath := outputFilePath;
     Resolved.outputDir := outputDir;
     Resolved.prefix := prefix;
     Resolved.play := play;
     Resolved.format := format;
     Resolved.last := last;
     Resolved.lastIndex := lastIndex;
     Resolved.playCommand := playCommand;
     Resolved.presetVoice := presetVoice;
     Resolved.speed := speed;
     Resolved.trailingSilence := trailingSilence;
     Resolved.streaming := streaming;
     Resolved.instantMode := instantMode |}.

Definition resolveOpts (_env : list (string * string))
  (globalConfig session : ConfigData) (opts : Raw.t) : result Resolved.t :=
  match mutuallyExclusive "voiceName" "voiceId"
          (Raw.voiceName opts) (Raw.voiceId opts) with
  | Err e => Err e
  | Ok _ =>
  match mutuallyExclusive "outputFilePath" "numGenerations"
          (Raw.outputFilePath opts) (Raw.numGenerations opts) with
  | Err e => Err e
  | Ok _ =>
  match mutuallyExclusive "last" "contextGenerationId"
          (Raw.last opts) (Raw.contextGenerationId opts) with
  | Err e => Err e
  | Ok _ => Ok (resolveFields globalConfig session opts)
  end end end.

(** ** Request payload *)

(** [SynthesisOutputOpts]; the [path] plan has [numGenerations: 1]. *)
Inductive SynthesisOutputOpts :=
| PathPlan (path : string)
| DirPlan (numGenerations : Z) (dir : string) (prefix : string) (format : Format).

Definition plan_numGenerations (outputOpts : SynthesisOutputOpts) : Z :=
  match outputOpts with
  | PathPlan _ => 1
  | DirPlan n _ _ _ => n
  end.

Definition calculateOutputOpts (opts : Resolved.t) : result SynthesisOutputOpts :=
  if (Resolved.numGenerations opts >? 1)%Z && truthy (Resolved.outputFilePath opts)
  then Err "Unexpected: cannot specify both --num-generations and --output-file-path"
  else if truthy (Resolved.outputFilePath opts)
  then Ok (PathPlan (Resolved.outputFilePath opts))
  else if negb (truthy (Resolved.outputDir opts))
  then Err "Unexpected: outputDir was not set"
  else if negb (truthy (Resolved.prefix opts))
  then Err "Unexpected: prefix was not set"
  else Ok (DirPlan (Resolved.numGenerations opts) (Resolved.outputDir opts)
             (Resolved.prefix opts) (Resolved.format opts)).

(** [Hume.tts.PostedUtteranceVoice]: [{ name, provider? }] or [{ id, provider? }]. *)
Inductive PostedUtteranceVoice :=
| VoiceByName (name : string) (provider : option Provider)
| VoiceById (id : string) (provider : option Provider).

Definition voice_provider (v : PostedUtteranceVoice) : option Provider :=
  match v with
  | VoiceByName _ p => p
  | VoiceById _ p => p
  end.

Module Utterance.
Record t := mk {
  text : string;
  voice : option PostedUtteranceVoice;
  description : option string;
  speed : option Q;
  trailingSilence : option Q
}.
End Utterance.

Definition isHumeAI (provider : maybe Provider) : bool :=
  match provider with
  | Val HUME_AI => true
  | _ => false
  end.

(** The provider [calculateUtterance] settles on: the new --provider flag
    takes precedence over the legacy --preset-voice flag. *)
Definition determineProvider (provider : maybe Provider) (presetVoice : bool)
  : maybe Provider :=
  if negb (truthy provider) && presetVoice then Val HUME_AI else provider.

Definition calculateUtterance
  (voiceName voiceId : option string) (text : string)
  (description : option string) (presetVoice : bool)
  (provider : maybe Provider) (speed trailingSilence : option Q)
  : Utterance.t :=
  let provider := determineProvider provider presetVoice in
  let voice :=
    if truthy voiceName then
      match voiceName with
      | Some name =>
          if isHumeAI provider
          then Some (VoiceByName name (Some HUME_AI))
          else Some (VoiceByName name None)
      | None => None
      end
    else if truthy voiceId then
      match voiceId with
      | Some id =>
          if isHumeAI provider
          then Some (VoiceById id (Some HUME_AI))
          else Some (VoiceById id None)
      | None => None
      end
    else None in
  {| Utterance.text := text;
     Utterance.voice := voice;
     Utterance.description := if truthy description then description else None;
     Utterance.speed := speed;
     Utterance.trailingSilence := trailingSilence |}.

(** [tts.context]: [generationId] is whatever the lookup produced. *)
Record PostedContext := { context_generationId : maybe string }.

Record PostedTts := {
  utterances : list Utterance.t;
  numGenerations : Z;
  format : Format;
  context : option PostedContext;
  instantMode : option bool;
  stripHeaders : option bool
}.

Definition set_context (c : PostedContext) (tts : PostedTts) : PostedTts :=
  {| utterances := utterances tts; numGenerations := numGenerations tts;
     format := format tts; context := Some c;
     instantMode := instantMode tts; stripHeaders := stripHeaders tts |}.

Definition set_instantMode (b : bool) (tts : PostedTts) : PostedTts :=
  {| utterances := utterances tts; numGenerations := numGenerations tts;
     format := format tts; context := context tts;
     instantMode := Some b; stripHeaders := stripHeaders tts |}.

Definition set_stripHeaders (b : bool) (tts : PostedTts) : PostedTts :=
  {| utterances := utterances tts; numGenerations := numGenerations tts;
     format := format tts; context := context tts;
     instantMode := instantMode tts; stripHeaders := Some b |}.

(** ** History ([src/history.ts]) *)

Record GenerationHistory := { ids : list string; timestamp : Z }.

Definition show (n : Z) : string := NilZero.string_of_int (Z.to_int n).

(** ** [Tts.maybeAddContext] *)

Definition lastIndexMessage (nLastGenerations : Z) : string :=
  "Unexpected: previous synthesis contained " ++ show nLastGenerations
  ++ " generations. Please specify --last-index as a number between 1 and "
  ++ show nLastGenerations ++ " to select from the previous synthesis".

Definition isNull {T} (x : option T) : bool :=
  match x with
  | None => true
  | Some _ => false
  end.

(** [getLastSynthesis] is the result of [this.getLastSynthesis ()]:
    [None] when there is no readable history record. *)
Definition maybeAddContext (getLastSynthesis : option GenerationHistory)
  (contextGenerationId : option string) (last : bool) (lastIndex : option Z)
  (tts : PostedTts) : result PostedTts :=
  match (if truthy contextGenerationId then contextGenerationId else None) with
  | Some id => Ok (set_context {| context_generationId := Val id |} tts)
  | None =>
      if negb last then Ok tts else
      (* `contextGenerationId` takes precedence over `last`. *)
      match getLastSynthesis with
      | None => Err "No previous generation found to continue from"
      | Some lastSynthesis =>
          let nLastGenerations := Z.of_nat (length (ids lastSynthesis)) in
          if (nLastGenerations >? 1)%Z && isNull lastIndex
          then Err (lastIndexMessage nLastGenerations)
          else if match lastIndex with
                  | Some i => (i >? nLastGenerations)%Z
                  | None => false
                  end
          then Err (lastIndexMessage nLastGenerations)
          else Ok (set_context
                     {| context_generationId :=
                          index (ids lastSynthesis) (withDefault lastIndex 1 - 1) |}
                     tts)
      end
  end.

(** [tts'] is [tts] but for its context. *)
Definition sameButContext (tts tts' : PostedTts) : Prop :=
  utterances tts' = utterances tts
  /\ numGenerations tts' = numGenerations tts
  /\ format tts' = format tts
  /\ instantMode tts' = instantMode tts
  /\ stripHeaders tts' = stripHeaders tts.

(** ** [Voices.save]: which generation to save ([src/voices.ts]) *)

Module Voices.
Definition lastIndexOutOfRange (lastIndex : maybe Z) (nLastGenerations : Z)
  : bool :=
  match lastIndex with
  | Undefined => false
  | Null => true (* [null < 1] holds: [null] converts to [0] *)
  | Val i => (i <? 1)%Z || (i >? nLastGenerations)%Z
  end.

Definition indexOrFirst (lastIndex : maybe Z) : Z :=
  match lastIndex with
  | Val i => i
  | _ => 1
  end.

(** The part of [save] between the API-key check and the request. *)
Definition save_generationId (getLastSynthesis : option GenerationHistory)
  (generationId : maybe string) (last : maybe bool) (lastIndex : maybe Z)
  : result string :=
  let resolved :=
    if truthy last then
      match getLastSynthesis with
      | None => Err "No previous generation found to save as voice"
      | Some lastGeneration =>
          let nLastGenerations := Z.of_nat (length (ids lastGeneration)) in
          if (nLastGenerations >? 1)%Z
             && match lastIndex with Undefined => true | _ => false end
          then Err ("Previous synthesis contained " ++ show nLastGenerations
                    ++ " generations. Please specify --last-index between 1 and "
                    ++ show nLastGenerations)
          else if lastIndexOutOfRange lastIndex nLastGenerations
          then Err ("Please specify --last-index between 1 and "
                    ++ show nLastGenerations)
          else Ok (index (ids lastGeneration) (indexOrFirst lastIndex - 1))
      end
    else Ok generationId in
  match resolved with
  | Err e => Err e
  | Ok (Val id) =>
      if truthy id then Ok id
      else Err "Must specify either --generation-id or --last"
  | Ok _ => Err "Must specify either --generation-id or --last"
  end.
End Voices.

(** ** Effects *)

Record Snippet := { generationId : string; audio : maybe string }.

Record ReturnGeneration := { gen_generationId : string; gen_audio : string }.

Record WrittenFile := { wf_generationId : string; wf_path : string }.

Inductive Event :=
| Warn (message : string)
| Info (message : string)
| JsonStreaming (writtenFiles : list WrittenFile) (generationIds : list string)
| JsonBuffered (generations : list ReturnGeneration) (writtenFiles : list WrittenFile)
| ReadStdin
| SynthesizeJsonStreaming (request : PostedTts)
| SynthesizeJson (request : PostedTts)
| WriteFile (path : string) (data : Buffer)
| SpawnPlayer (customCommand : option string)
| WriteAudio (audioBuffer : Buffer)
| EndPlayer
| PlayAudioFile (path : string) (customCommand : option string)
| SaveLastSynthesis (generation : GenerationHistory).

(** A computation: the events it emitted, and its value or the error it
    threw. *)
Definition M (A : Type) : Type := list Event * result A.

Definition ret {A} (a : A) : M A := ([], Ok a).

Definition bind {A B} (m : M A) (k : A -> M B) : M B :=
  match m with
  | (t, Ok a) => let (t', r) := k a in ((t ++ t')%list, r)
  | (t, Err e) => (t, Err e)
  end.

Definition emit (e : Event) : M unit := ([e], Ok tt).
Definition throw {A} (message : string) : M A := ([], Err message).

Definition lift {A} (r : result A) : M A := ([], r).

Declare Scope m_scope.
Delimit Scope m_scope with M.
Notation "x <- m ;; k" := (bind m (fun x => k))
  (at level 61, m at next level, right associativity) : m_scope.
Notation "m ;;; k" := (bind m (fun _ => k))
  (at level 61, right associativity) : m_scope.
#[local] Open Scope m_scope.

(** [for (const x of xs) { st = body (st, x) }] and [for await]. *)
Fixpoint forOf {A S} (body : S -> A -> M S) (st : S) (xs : list A) : M S :=
  match xs with
  | [] => ret st
  | x :: rest => st' <- body st x ;; forOf body st' rest
  end.

(** ** [Map<string, V>]: keys in insertion order *)

Definition JsMap (V : Type) : Type := list (string * V).

Definition map_has {V} (k : string) (m : JsMap V) : bool :=
  existsb (fun e => fst e =? k) m.

Definition map_get {V} (k : string) (m : JsMap V) : option V :=
  option_map snd (find (fun e => fst e =? k) m).

Definition map_set {V} (k : string) (v : V) (m : JsMap V) : JsMap V :=
  if map_has k m
  then map (fun e => if fst e =? k then (k, v) else e) m
  else (m ++ [(k, v)])%list.

(** [m.get (k)?.push (x)]: the array stored under [k] grows in place. *)
Definition map_push {V} (k : string) (x : V) (m : JsMap (list V)) : JsMap (list V) :=
  map (fun e => if fst e =? k then (fst e, (snd e ++ [x])%list) else e) m.

Definition map_keys {V} (m : JsMap V) : list string := map fst m.

(** ** Collaborators *)

(** The response channel of the streaming call: the chunks it yields, then
    either the end of the stream or an error. *)
Record Stream := { chunks : list Snippet; failure : option string }.

Record HumeClient := {
  synthesizeJson : PostedTts -> result (list ReturnGeneration);
  synthesizeJsonStreaming : PostedTts -> Stream
}.

Record Settings := {
  session : ConfigData;
  globalConfig : ConfigData;
  env : list (string * string);
  hume : option HumeClient
}.

Record Platform := {
  base64 : string -> Buffer;          (* Buffer.from (s, 'base64') *)
  join : string -> string -> string;  (* path.join *)
  trim : string -> string;            (* String.prototype.trim *)
  now : Z;                            (* Date.now () *)
  (* the message of the TypeError raised by [object.property] when
     [object] is undefined *)
  undefinedProperty : string -> string -> string
}.

(** The members of [Tts] that reach outside the process.
    [stdinPlayer cmd] is [Err] when [withStdinAudioPlayer] throws before it
    spawns a process ([ensureAudioPlayer], [ensureStdinSupport]), otherwise
    the exit code the spawned player closes with; [filePlayer] likewise for
    [playAudioFile]. *)
Record Tts := {
  getSettings : Raw.t -> Settings;
  getStdin : string;
  getLastSynthesis : option GenerationHistory;
  stdinPlayer : option string -> result Z;
  filePlayer : string -> option string -> result Z
}.

(** ** The class [Tts] *)

Definition ApiKeyNotSetError : string :=
  "No API key provided. You may run `hume login`, set the HUME_API_KEY environment variable, or pass the --api-key flag.".

Definition presetVoiceWarning : string :=
  "Please use --provider HUME_AI instead of --preset-voice. --preset-voice will be removed in a future version".

Definition newline : string := String (ascii_of_nat 10) "".

(** [`Wrote ${path}`] for one file, otherwise the paths on lines of their own. *)
Definition wroteMessage (writtenFiles : list WrittenFile) : string :=
  match writtenFiles with
  | [file] => "Wrote " ++ wf_path file
  | _ => "Wrote " ++ String.concat (newline ++ "  ") ("" :: map wf_path writtenFiles)
  end.

(** The state of the consumption loop of [synthesizeStreaming]. *)
Record LoopState := {
  firstGenerationId : option string;
  generationAudio : JsMap (list Buffer)
}.

(** [id !== firstGenerationId] *)
Definition differsFrom (id : string) (firstGenerationId : option string) : bool :=
  match firstGenerationId with
  | Some f => negb (id =? f)
  | None => true
  end.

Section Driver.
Variable platform : Platform.
Variable this : Tts.

(** [mkdir (dirname (path), {recursive: true})], then
    [writeFile (path, data)]. *)
Definition ensureDirAndWriteFile (path : string) (data : Buffer) : M unit :=
  emit (WriteFile path data).

(** [saveLastSynthesisToHistory] of [src/history.ts] *)
Definition saveLastSynthesis (generation : GenerationHistory) : M unit :=
  emit (SaveLastSynthesis generation).

Definition readStdin : M string :=
  emit ReadStdin ;;; ret (trim platform (getStdin this)).

Definition awaitExit (code : Z) : M unit :=
  if (code =? 0)%Z then ret tt
  else throw ("Process exited with code " ++ show code).

Definition playAudioFile (path : string) (customCommand : option string) : M unit :=
  code <- lift (filePlayer this path customCommand) ;;
  emit (PlayAudioFile path customCommand) ;;;
  awaitExit code.

(** [f] returns the accumulator it filled, which the source reaches
    through the closure. *)
Definition withStdinAudioPlayer {A} (customCommand : option string)
  (f : (Buffer -> M unit) -> M A) : M A :=
  code <- lift (stdinPlayer this customCommand) ;;
  emit (SpawnPlayer customCommand) ;;;
  r <- f (fun audioBuffer => emit (WriteAudio audioBuffer)) ;;
  emit EndPlayer ;;;
  awaitExit code ;;;
  ret r.

Definition generationPath (dir prefix : string) (generationId : string)
  (format : Format) : string :=
  join platform dir (prefix ++ generationId ++ "." ++ Format_to_string format).

(** [assert] is the one of [node:console]: it prints and goes on. *)
Definition writeFiles (opts : SynthesisOutputOpts)
  (generations : list ReturnGeneration) : M (list WrittenFile) :=
  match opts with
  | PathPlan path =>
      (* const [generation] = generations *)
      match generations with
      | generation :: _ =>
          ensureDirAndWriteFile path (base64 platform (gen_audio generation)) ;;;
          ret [ {| wf_generationId := gen_generationId generation;
                   wf_path := path |} ]
      | [] => throw (undefinedProperty platform "generation" "audio")
      end
  | DirPlan _ dir prefix format =>
      forOf
        (fun paths generation =>
           let path :=
             generationPath dir prefix (gen_generationId generation) format in
           ensureDirAndWriteFile path (base64 platform (gen_audio generation)) ;;;
           ret (paths ++ [ {| wf_generationId := gen_generationId generation;
                              wf_path := path |} ])%list)
        [] generations
  end.

Definition playAudios (play : PlayMode) (files : list WrittenFile)
  (playCommand : option string) : M unit :=
  match play with
  | off => ret tt
  | first =>
      match files with
      | file :: _ => playAudioFile (wf_path file) playCommand
      | [] => throw (undefinedProperty platform "file" "path")
      end
  | all =>
      forOf (fun _ file => playAudioFile (wf_path file) playCommand) tt files
  end.

(** The body of the [for await] loop of [synthesizeStreaming]. *)
Definition onChunk (play : PlayMode) (writeAudio : Buffer -> M unit)
  (st : LoopState) (chunk : Snippet) : M LoopState :=
  let firstGenerationId :=
    if negb (truthy (firstGenerationId st))
    then Some (generationId chunk)
    else firstGenerationId st in
  let skipped :=
    {| firstGenerationId := firstGenerationId;
       generationAudio := generationAudio st |} in
  match audio chunk with
  | Val payload =>
      if negb (truthy payload) || (String.length payload =? 0)%nat
      then ret skipped (* Skipping empty audio snippet *)
      else
        let audioBuffer := base64 platform payload in
        (* Store audio chunk for the full generation file *)
        let created :=
          if negb (map_has (generationId chunk) (generationAudio st))
          then map_set (generationId chunk) [] (generationAudio st)
          else generationAudio st in
        let st' :=
          {| firstGenerationId := firstGenerationId;
             generationAudio := map_push (generationId chunk) audioBuffer created |} in
        if PlayMode_eqb play first
           && differsFrom (generationId chunk) firstGenerationId
        then ret st' (* Skipping audio playback for non-first generation *)
        else writeAudio audioBuffer ;;; ret st'
  | _ => ret skipped
  end.

Definition go (hume : HumeClient) (tts : PostedTts) (play : PlayMode)
  (writeAudio : Buffer -> M unit) : M (JsMap (list Buffer)) :=
  emit (SynthesizeJsonStreaming tts) ;;;
  let stream := synthesizeJsonStreaming hume tts in
  st <- forOf (onChunk play writeAudio)
          {| firstGenerationId := None; generationAudio := [] |}
          (chunks stream) ;;
  match failure stream with
  | Some e => throw e
  | None => ret (generationAudio st)
  end.

(** Write full generation files *)
Definition writeGeneration (outputOpts : SynthesisOutputOpts)
  (writtenFiles : list WrittenFile) (entry : string * list Buffer)
  : M (list WrittenFile) :=
  let (generationId, audioChunks) := entry in
  let fullAudio : Buffer := List.concat audioChunks in
  let fullPath :=
    match outputOpts with
    | PathPlan path => path
    | DirPlan _ dir prefix format => generationPath dir prefix generationId format
    end in
  ensureDirAndWriteFile fullPath fullAudio ;;;
  ret (writtenFiles ++ [ {| wf_generationId := generationId;
                            wf_path := fullPath |} ])%list.

Definition synthesizeStreaming (tts : PostedTts) (hume : HumeClient)
  (opts : Resolved.t) (outputOpts : SynthesisOutputOpts) : M unit :=
  let tts := set_stripHeaders true tts in
  emit (Info "Using streaming mode") ;;;
  generationAudio <-
    (if negb (PlayMode_eqb (Resolved.play opts) off)
     then withStdinAudioPlayer (Resolved.playCommand opts)
            (go hume tts (Resolved.play opts))
     else go hume tts (Resolved.play opts) (fun _ => ret tt)) ;;
  writtenFiles <- forOf (writeGeneration outputOpts) [] generationAudio ;;
  (* Save generation IDs for history/continuation *)
  saveLastSynthesis {| ids := map_keys generationAudio;
                       timestamp := now platform |} ;;;
  emit (Info (wroteMessage writtenFiles)) ;;;
  emit (JsonStreaming writtenFiles (map_keys generationAudio)).

Definition synthesizeBuffered (tts : PostedTts) (hume : HumeClient)
  (opts : Resolved.t) (outputOpts : SynthesisOutputOpts) : M unit :=
  emit (SynthesizeJson tts) ;;;
  generations <- lift (synthesizeJson hume tts) ;;
  forOf (fun _ generation =>
           emit (Info ("Generation ID: " ++ gen_generationId generation)))
        tt generations ;;;
  saveLastSynthesis {| ids := map gen_generationId generations;
                       timestamp := now platform |} ;;;
  writtenFiles <- writeFiles outputOpts generations ;;
  emit (Info (wroteMessage writtenFiles)) ;;;
  emit (JsonBuffered generations writtenFiles) ;;;
  playAudios (Resolved.play opts) writtenFiles (Resolved.playCommand opts).

(** Validate instant_mode requirements *)
Definition validateInstantMode (opts : Resolved.t)
  (outputOpts : SynthesisOutputOpts) (utterance : Utterance.t)
  (tts : PostedTts) : result PostedTts :=
  if Resolved.instantMode opts then
    if negb (Resolved.streaming opts)
    then Err "Instant mode requires streaming to be enabled"
    else if negb (plan_numGenerations outputOpts =? 1)%Z
    then Err "Instant mode requires num_generations=1"
    else if isNull (Utterance.voice utterance) && isNull (context tts)
    then Err "Instant mode requires a voice to be specified (use --voice-name, --voice-id, --last, or --continue)"
    else Ok (set_instantMode true tts)
  else Ok tts.

Definition synthesize (rawOpts : Raw.t) : M unit :=
  let settings := getSettings this rawOpts in
  opts <- lift (resolveOpts (env settings) (globalConfig settings)
                  (session settings) rawOpts) ;;
  outputOpts <- lift (calculateOutputOpts opts) ;;
  (if Resolved.presetVoice opts
   then emit (Warn presetVoiceWarning)
   else ret tt) ;;;
  text <- (if Resolved.text opts =? "-" then readStdin
           else ret (Resolved.text opts)) ;;
  let utterance :=
    calculateUtterance (Resolved.voiceName opts) (Resolved.voiceId opts) text
      (Resolved.description opts) (Resolved.presetVoice opts)
      (Resolved.provider opts) (Resolved.speed opts)
      (Resolved.trailingSilence opts) in
  let tts :=
    {| utterances := [utterance];
       numGenerations := plan_numGenerations outputOpts;
       format := Resolved.format opts;
       context := None;
       instantMode := None;
       stripHeaders := None |} in
  (* First add context to support continuation *)
  tts <- lift (maybeAddContext (getLastSynthesis this)
                 (Resolved.contextGenerationId opts) (Resolved.last opts)
                 (Resolved.lastIndex opts) tts) ;;
  tts <- lift (validateInstantMode opts outputOpts utterance tts) ;;
  match hume settings with
  | None => throw ApiKeyNotSetError
  | Some hume =>
      if Resolved.streaming opts
      then synthesizeStreaming tts hume opts outputOpts
      else synthesizeBuffered tts hume opts outputOpts
  end.
End Driver.

(** ** The request [synthesize] builds from resolved options *)

Definition textOf (platform : Platform) (this : Tts) (opts : Resolved.t)
  : string :=
  if Resolved.text opts =? "-" then trim platform (getStdin this)
  else Resolved.text opts.

Definition utteranceOf (platform : Platform) (this : Tts) (opts : Resolved.t)
  : Utterance.t :=
  calculateUtterance (Resolved.voiceName opts) (Resolved.voiceId opts)
    (textOf platform this opts) (Resolved.description opts)
    (Resolved.presetVoice opts) (Resolved.provider opts) (Resolved.speed opts)
    (Resolved.trailingSilence opts).

Definition requestOf (platform : Platform) (this : Tts) (opts : Resolved.t)
  (outputOpts : SynthesisOutputOpts) : PostedTts :=
  {| utterances := [utteranceOf platform this opts];
     numGenerations := plan_numGenerations outputOpts;
     format := Resolved.format opts;
     context := None;
     instantMode := None;
     stripHeaders := None |}.

(** The three preconditions of instant mode: streaming, one effective
    generation, and a voice reference or a context reference on the
    request. *)
Definition instantPreconditions (platform : Platform) (this : Tts)
  (opts : Resolved.t) : Prop :=
  Resolved.streaming opts = true
  /\ exists outputOpts tts,
       calculateOutputOpts opts = Ok outputOpts
       /\ plan_numGenerations outputOpts = 1%Z
       /\ maybeAddContext (getLastSynthesis this)
            (Resolved.contextGenerationId opts) (Resolved.last opts)
            (Resolved.lastIndex opts) (requestOf platform this opts outputOpts)
          = Ok tts
       /\ (Utterance.voice (utteranceOf platform this opts) <> None
           \/ context tts <> None).

(** ** Observations on traces *)

Definition fileWrites (t : list Event) : list (string * Buffer) :=
  flat_map (fun e => match e with WriteFile p d => [(p, d)] | _ => [] end) t.

Definition audioWrites (t : list Event) : list Buffer :=
  flat_map (fun e => match e with WriteAudio b => [b] | _ => [] end) t.

Definition savedHistories (t : list Event) : list GenerationHistory :=
  flat_map (fun e => match e with SaveLastSynthesis h => [h] | _ => [] end) t.

(** The requests sent to the remote service, by either call. *)
Definition remoteCalls (t : list Event) : list PostedTts :=
  flat_map (fun e => match e with
                     | SynthesizeJsonStreaming r => [r]
                     | SynthesizeJson r => [r]
                     | _ => []
                     end) t.

(** ** The consumption loop as a function of the chunks *)

(** The chunk carries a non-empty audio payload. *)
Definition hasAudio (c : Snippet) : bool :=
  match audio c with
  | Val payload => negb (payload =? "")
  | _ => false
  end.

Definition audioOf (platform : Platform) (c : Snippet) : Buffer :=
  match audio c with
  | Val payload => base64 platform payload
  | _ => []
  end.

Definition nextFirst (firstGenerationId : option string) (c : Snippet)
  : option string :=
  if negb (truthy firstGenerationId) then Some (generationId c)
  else firstGenerationId.

Definition store (platform : Platform) (m : JsMap (list Buffer)) (c : Snippet)
  : JsMap (list Buffer) :=
  if hasAudio c then
    map_push (generationId c) (audioOf platform c)
      (if negb (map_has (generationId c) m) then map_set (generationId c) [] m
       else m)
  else m.

Definition stepState (platform : Platform) (st : LoopState) (c : Snippet)
  : LoopState :=
  {| firstGenerationId := nextFirst (firstGenerationId st) c;
     generationAudio := store platform (generationAudio st) c |}.

(** Whether the loop hands the chunk to [writeAudio]. *)
Definition isPiped (play : PlayMode) (st : LoopState) (c : Snippet) : bool :=
  hasAudio c
  && negb (PlayMode_eqb play first
           && differsFrom (generationId c) (nextFirst (firstGenerationId st) c)).

Fixpoint pipedChunks (platform : Platform) (play : PlayMode) (st : LoopState)
  (cs : list Snippet) : list Snippet :=
  match cs with
  | [] => []
  | c :: rest =>
      (if isPiped play st c then [c] else [])
      ++ pipedChunks platform play (stepState platform st c) rest
  end%list.

Definition initialState : LoopState :=
  {| firstGenerationId := None; generationAudio := [] |}.

(** The accumulator once the chunks [cs] have been consumed. *)
Definition finalAudio (platform : Platform) (cs : list Snippet)
  : JsMap (list Buffer) :=
  generationAudio (fold_left (stepState platform) cs initialState).

(** The chunks of generation [g] that carry audio, in arrival order, and
    their payloads concatenated. *)
Definition chunksOf (g : string) (cs : list Snippet) : list Snippet :=
  filter (fun c => generationId c =? g) (filter hasAudio cs).

Definition fullAudioOf (platform : Platform) (g : string) (cs : list Snippet)
  : Buffer :=
  List.concat (map (audioOf platform) (chunksOf g cs)).

(** The accumulator [m] holds what the chunks [seen] contribute: one entry
    per generation id with audio, with that generation's buffers in arrival
    order. *)
Definition Accumulates (platform : Platform) (m : JsMap (list Buffer))
  (seen : list Snippet) : Prop :=
  NoDup (map_keys m)
  /\ (forall g, In g (map_keys m) <->
                exists c, In c seen /\ hasAudio c = true /\ generationId c = g)
  /\ (forall g bufs, In (g, bufs) m ->
                     bufs = map (audioOf platform) (chunksOf g seen)).

Inductive Subsequence {A} : list A -> list A -> Prop :=
| Subsequence_nil : Subsequence [] []
| Subsequence_keep x l1 l2 : Subsequence l1 l2 -> Subsequence (x :: l1) (x :: l2)
| Subsequence_drop x l1 l2 : Subsequence l1 l2 -> Subsequence l1 (x :: l2).

(** The path of the full file of a generation under an output plan. *)
Definition planPath (platform : Platform) (outputOpts : SynthesisOutputOpts)
  (g : string) : string :=
  match outputOpts with
  | PathPlan path => path
  | DirPlan _ dir prefix format => generationPath platform dir prefix g format
  end.

(** The files [synthesizeStreaming] reports, and what it does once the
    stream and the player are done, for a final accumulator. *)
Definition writtenOf (platform : Platform) (outputOpts : SynthesisOutputOpts)
  (final : JsMap (list Buffer)) : list WrittenFile :=
  map (fun e => {| wf_generationId := fst e;
                   wf_path := planPath platform outputOpts (fst e) |}) final.

Definition epilogue (platform : Platform) (outputOpts : SynthesisOutputOpts)
  (final : JsMap (list Buffer)) : list Event :=
  (map (fun e => WriteFile (planPath platform outputOpts (fst e))
                   (List.concat (snd e))) final
   ++ [SaveLastSynthesis {| ids := map_keys final; timestamp := now platform |};
       Info (wroteMessage (writtenOf platform outputOpts final));
       JsonStreaming (writtenOf platform outputOpts final) (map_keys final)])%list.

(** ** The cascade in the words of the specification *)

(** CLI, else session, else global, else the built-in default; a nullish
    value at a layer is absent. *)
Definition cascades {T R} (lift : T -> R) (dflt : R)
  (cli sess glob : maybe T) (resolved : R) : Prop :=
  (forall v, cli = Val v -> resolved = lift v)
  /\ (nullish cli = true -> forall v, sess = Val v -> resolved = lift v)
  /\ (nullish cli = true -> nullish sess = true ->
      forall v, glob = Val v -> resolved = lift v)
  /\ (nullish cli = true -> nullish sess = true -> nullish glob = true ->
      resolved = dflt).

(** The priority of the layer a cascade takes its value from:
    command line 3, session 2, global 1, built-in default 0. *)
Definition source {T} (cli sess glob : maybe T) : Z :=
  if negb (nullish cli) then 3
  else if negb (nullish sess) then 2
  else if negb (nullish glob) then 1
  else 0.

(** The value a field takes from the layers alone. *)
Definition cascaded {T R} (lift : T -> R) (dflt : R)
  (key_opts : Raw.t -> maybe T) (key_cfg : Cfg.t -> maybe T)
  (globalConfig session : ConfigData) (opts : Raw.t) (resolved : R) : Prop :=
  cascades lift dflt (key_opts opts) (ttsKey key_cfg session)
    (ttsKey key_cfg globalConfig) resolved.

(** The fields that resolve by the cascade alone. *)
Definition plainFieldsCascade (globalConfig session : ConfigData)
  (opts : Raw.t) (r : Resolved.t) : Prop :=
  let layered {T R} (lift : T -> R) (dflt : R) ko kc (v : R) :=
    cascaded lift dflt ko kc globalConfig session opts v in
  layered Some None Raw.description Cfg.description (Resolved.description r)
  /\ layered id 1%Z Raw.numGenerations Cfg.numGenerations (Resolved.numGenerations r)
  /\ layered id "./tts-audio" Raw.outputDir Cfg.outputDir (Resolved.outputDir r)
  /\ layered id "tts-" Raw.prefix Cfg.prefix (Resolved.prefix r)
  /\ layered id all Raw.play Cfg.play (Resolved.play r)
  /\ layered id wav Raw.format Cfg.format (Resolved.format r)
  /\ layered id false Raw.last Cfg.last (Resolved.last r)
  /\ layered Some None Raw.lastIndex Cfg.lastIndex (Resolved.lastIndex r)
  /\ layered Some None Raw.playCommand Cfg.playCommand (Resolved.playCommand r)
  /\ layered id false Raw.presetVoice Cfg.presetVoice (Resolved.presetVoice r)
  /\ layered Some None Raw.speed Cfg.speed (Resolved.speed r)
  /\ layered Some None Raw.trailingSilence Cfg.trailingSilence
       (Resolved.trailingSilence r)
  /\ layered id true Raw.streaming Cfg.streaming (Resolved.streaming r)
  /\ layered id false Raw.instantMode Cfg.instantMode (Resolved.instantMode r).

(** The two voice fields, read as plain cascades. *)
Definition voiceFieldsCascade (globalConfig session : ConfigData)
  (opts : Raw.t) (r : Resolved.t) : Prop :=
  cascaded Some None Raw.voiceName Cfg.voiceName globalConfig session opts
    (Resolved.voiceName r)
  /\ cascaded Some None Raw.voiceId Cfg.voiceId globalConfig session opts
       (Resolved.voiceId r).

(** ** A platform to run the model on *)

Module Node.
(** The value of a character of the base64 alphabets. *)
Definition sextet (c : ascii) : option N :=
  let n := N_of_ascii c in
  if (65 <=? n)%N && (n <=? 90)%N then Some (n - 65)%N
  else if (97 <=? n)%N && (n <=? 122)%N then Some (n - 71)%N
  else if (48 <=? n)%N && (n <=? 57)%N then Some (n + 4)%N
  else if (n =? 43)%N || (n =? 45)%N then Some 62%N
  else if (n =? 47)%N || (n =? 95)%N then Some 63%N
  else None.

(** Characters outside the alphabet are ignored; padding ends the data. *)
Fixpoint sextets (s : string) : list N :=
  match s with
  | EmptyString => []
  | String c rest =>
      if (N_of_ascii c =? 61)%N then []
      else match sextet c with
           | Some v => v :: sextets rest
           | None => sextets rest
           end
  end.

Definition byte (n : N) : Byte.byte :=
  match Byte.of_N (n mod 256) with
  | Some b => b
  | None => Byte.x00
  end.

Fixpoint octets (l : list N) : Buffer :=
  match l with
  | a :: b :: c :: d :: rest =>
      byte (a * 4 + b / 16) :: byte (b * 16 + c / 4) :: byte (c * 64 + d)
      :: octets rest
  | [a; b; c] => [byte (a * 4 + b / 16); byte (b * 16 + c / 4)]
  | [a; b] => [byte (a * 4 + b / 16)]
  | _ => []
  end%N.

Definition base64_decode (s : string) : Buffer := octets (sextets s).

(** [path.split ('/')] *)
Fixpoint segments (path : string) : list string :=
  match path with
  | EmptyString => [""]
  | String c rest =>
      if Ascii.eqb c "/" then "" :: segments rest
      else match segments rest with
           | segment :: others => String c segment :: others
           | [] => [String c ""]
           end
  end.

(** One segment of [normalizeString] of [path.posix]; [res] holds the
    segments kept so far, the last one first. *)
Definition normalizeSegment (allowAboveRoot : bool) (res : list string)
  (segment : string) : list string :=
  if (segment =? "") || (segment =? ".") then res
  else if segment =? ".." then
    match res with
    | previous :: before =>
        if previous =? ".."
        then if allowAboveRoot then ".." :: res else res
        else before
    | [] => if allowAboveRoot then [".."] else []
    end
  else segment :: res.

Fixpoint endsWithSeparator (path : string) : bool :=
  match path with
  | EmptyString => false
  | String c EmptyString => Ascii.eqb c "/"
  | String _ rest => endsWithSeparator rest
  end.

(** [path.posix.normalize] *)
Definition normalize (path : string) : string :=
  if path =? "" then "." else
  let isAbsolute := prefix "/" path in
  let trailingSeparator := endsWithSeparator path in
  let res :=
    String.concat "/"
      (rev (fold_left (normalizeSegment (negb isAbsolute)) (segments path) [])) in
  if res =? "" then
    if isAbsolute then "/" else if trailingSeparator then "./" else "."
  else
    (if isAbsolute then "/" else "")
    ++ res ++ (if trailingSeparator then "/" else "").

(** [path.posix.join] of two segments *)
Definition path_join (a b : string) : string :=
  if a =? "" then (if b =? "" then "." else normalize b)
  else if b =? "" then normalize a
  else normalize (a ++ "/" ++ b).

Definition bytes (codes : list nat) : string :=
  fold_right (fun n s => String (ascii_of_nat n) s) "" codes.

(** The white space and the line terminators of ECMAScript: TAB, LF, VT,
    FF, CR, SP, U+00A0, U+1680, U+2000 to U+200A, U+2028, U+2029, U+202F,
    U+205F, U+3000 and U+FEFF. *)
Definition whiteSpace : list string :=
  map bytes
    [ [9]; [10]; [11]; [12]; [13]; [32]; [194; 160]; [225; 154; 128];
      [226; 128; 128]; [226; 128; 129]; [226; 128; 130]; [226; 128; 131];
      [226; 128; 132]; [226; 128; 133]; [226; 128; 134]; [226; 128; 135];
      [226; 128; 136]; [226; 128; 137]; [226; 128; 138]; [226; 128; 168];
      [226; 128; 169]; [226; 128; 175]; [226; 129; 159]; [227; 128; 128];
      [239; 187; 191] ]%nat.

Fixpoint reverse (s : string) : string :=
  match s with
  | EmptyString => ""
  | String c rest => reverse rest ++ String c ""
  end.

(** Drops the members of [spaces] the string starts with; [fuel] bounds
    their number. *)
Fixpoint dropLeading (spaces : list string) (fuel : nat) (s : string)
  : string :=
  match fuel with
  | O => s
  | S fuel' =>
      match find (fun space => prefix space s) spaces with
      | Some space =>
          dropLeading spaces fuel'
            (substring (String.length space)
               (String.length s - String.length space) s)
      | None => s
      end
  end.

Definition trimStart (s : string) : string :=
  dropLeading whiteSpace (String.length s) s.

Definition trimEnd (s : string) : string :=
  reverse (dropLeading (map reverse whiteSpace) (String.length s) (reverse s)).

(** [String.prototype.trim] *)
Definition string_trim (s : string) : string := trimEnd (trimStart s).

(** The wording of V8. *)
Definition cannotRead (_object property : string) : string :=
  "Cannot read properties of undefined (reading '" ++ property ++ "')".

Definition platform : Platform :=
  {| base64 := base64_decode; join := path_join; trim := string_trim;
     now := 1700000000000; undefinedProperty := cannotRead |}.
End Node.

(** A service that streams the given chunks, whatever the request. *)
Definition streamingService (cs : list Snippet) : HumeClient :=
  {| synthesizeJson := fun _ => Ok [];
     synthesizeJsonStreaming := fun _ => {| chunks := cs; failure := None |} |}.

(** An installation with the given configs and history, an API key, and a
    player that accepts stdin and exits with [0]. *)
Definition installation (globalConfig session : ConfigData)
  (history : option GenerationHistory) (hume : option HumeClient) : Tts :=
  {| getSettings := fun _ =>
       {| session := session; globalConfig := globalConfig;
          env := [("HUME_API_KEY", "test-key")]; hume := hume |};
     getStdin := "";
     getLastSynthesis := history;
     stdinPlayer := fun _ => Ok 0%Z;
     filePlayer := fun _ _ => Ok 0%Z |}.

Definition snippet (g : string) (payload : string) : Snippet :=
  {| generationId := g; audio := Val payload |}.

(** ** Scenarios *)

Module Scenario.
(** A global config that names a voice. *)
Definition globalVoiceName : ConfigData :=
  {| tts := Val (Cfg.mk (Val "config_voice") Undefined Undefined Undefined
                   Undefined Undefined Undefined Undefined Undefined
                   Undefined Undefined Undefined Undefined Undefined
                   Undefined Undefined);
     json := Undefined; pretty := Undefined; apiKey := Undefined;
     baseUrl := Undefined |}.

(** A session config that sets both voice keys. *)
Definition sessionBothVoices : ConfigData :=
  {| tts := Val (Cfg.mk (Val "session_voice") (Val "session_voice_id")
                   Undefined Undefined Undefined Undefined Undefined
                   Undefined Undefined Undefined Undefined Undefined
                   Undefined Undefined Undefined Undefined);
     json := Undefined; pretty := Undefined; apiKey := Undefined;
     baseUrl := Undefined |}.

(** [hume tts "Hello world" --voice-id opts_voice] *)
Definition cliVoiceId : Raw.t :=
  Raw.mk "Hello world" Undefined (Val "opts_voice") Undefined Undefined
    Undefined Undefined Undefined Undefined Undefined Undefined Undefined
    Undefined Undefined Undefined Undefined Undefined Undefined Undefined
    Undefined.

(** The record left by a synthesis of three generations. *)
Definition threeGenerations : GenerationHistory :=
  {| ids := ["gen_1"; "gen_2"; "gen_3"]; timestamp := 1700000000000 |}.

(** [hume tts Test --no-streaming --instant-mode] *)
Definition instantWithoutStreaming : Raw.t :=
  Raw.mk "Test" Undefined Undefined Undefined Undefined Undefined Undefined
    Undefined Undefined Undefined Undefined Undefined Undefined Undefined
    Undefined Undefined Undefined Undefined (Val false) (Val true).

(** One generation with audio, then a generation whose only chunk is
    empty. *)
Definition silentSecondGeneration : list Snippet :=
  [ {| generationId := "gen_1"; audio := Val "YXVkaW8x" |};
    {| generationId := "gen_2"; audio := Val "" |} ].

(** Two chunks of one generation: "audio0", then "audio1". *)
Definition twoChunks : list Snippet :=
  [snippet "gen_1" "YXVkaW8w"; snippet "gen_1" "YXVkaW8x"].

(** A chunk without audio between two chunks of one generation. *)
Definition emptyBetween : list Snippet :=
  [snippet "gen_1" "YXVkaW8x"; snippet "gen_1" ""; snippet "gen_1" "YXVkaW8z"].

(** The options and the output plan of [hume tts Hello] with no config. *)
Definition defaults : Resolved.t :=
  resolveFields emptyConfig emptyConfig (Raw.empty "Hello").

Definition defaultPlan : SynthesisOutputOpts :=
  DirPlan 1 "./tts-audio" "tts-" wav.

(** The request for [text] with the defaults, before any context. *)
Definition request (text : string) : PostedTts :=
  {| utterances := [calculateUtterance None None text None false Undefined
                      None None];
     numGenerations := 1; format := wav; context := None;
     instantMode := None; stripHeaders := None |}.
End Scenario.

(** * Further parts of the program

    Definitions for the rest of [src/tts.ts] (the buffered driver, the whole
    of [synthesize]), for [getSettings] and [getHumeClient] of
    [src/common.ts], for [editConfigKV] of [src/config.ts] and for the choice
    of the audio player in [src/play_audio.ts]. *)

(** ** Kinds of events *)

Definition isRemoteCall (e : Event) : bool :=
  match e with
  | SynthesizeJsonStreaming _ | SynthesizeJson _ => true
  | _ => false
  end.

Definition isFileWrite (e : Event) : bool :=
  match e with
  | WriteFile _ _ => true
  | _ => false
  end.

Definition isHistorySave (e : Event) : bool :=
  match e with
  | SaveLastSynthesis _ => true
  | _ => false
  end.

Definition isPlayback (e : Event) : bool :=
  match e with
  | SpawnPlayer _ | WriteAudio _ | EndPlayer | PlayAudioFile _ _ => true
  | _ => false
  end.

(** The event reaches neither the service, the disk, the history nor a
    player: it is a message of the reporter or the read of standard input. *)
Definition isQuiet (e : Event) : bool :=
  negb (isRemoteCall e || isFileWrite e || isHistorySave e || isPlayback e).

(** The files handed to [playAudioFile], in order. *)
Definition playedFiles (t : list Event) : list string :=
  flat_map (fun e => match e with PlayAudioFile p _ => [p] | _ => [] end) t.

(** The distinct elements of a list, in the order of their first
    occurrence. *)
Definition addOnce (acc : list string) (x : string) : list string :=
  if existsb (fun y => y =? x) acc then acc else (acc ++ [x])%list.

Definition firstSeen (l : list string) : list string :=
  fold_left addOnce l [].

(** ** Further scenarios *)

Module Scenario2.
(** A session that asks for three generations and continues from the
    last synthesis. *)
Definition sessionThreeAndLast : ConfigData :=
  {| tts := Val (Cfg.mk Undefined Undefined Undefined Undefined Undefined
                   Undefined Undefined (Val 3%Z) (Val true) Undefined
                   Undefined Undefined Undefined Undefined Undefined
                   Undefined);
     json := Undefined; pretty := Undefined; apiKey := Undefined;
     baseUrl := Undefined |}.

(** [hume tts Hello --output-file-path out.wav] *)
Definition cliOutputFile : Raw.t :=
  Raw.mk "Hello" Undefined Undefined Undefined Undefined Undefined
    (Val "out.wav") Undefined Undefined Undefined Undefined Undefined
    Undefined Undefined Undefined Undefined Undefined Undefined Undefined
    Undefined.

(** [hume tts Hello --continue gen_7] *)
Definition cliContinue : Raw.t :=
  Raw.mk "Hello" Undefined Undefined Undefined (Val "gen_7") Undefined
    Undefined Undefined Undefined Undefined Undefined Undefined
    Undefined Undefined Undefined Undefined Undefined Undefined Undefined
    Undefined.
End Scenario2.

Module Scenario3.
(** Chunks of two generations, interleaved, the second generation
    first. *)
Definition interleaved : list Snippet :=
  [snippet "gen_2" "YXVkaW8w"; snippet "gen_1" "YXVkaW8x";
   snippet "gen_2" "YXVkaW8y"].

(** The default options with [play] set to [first]. *)
Definition playFirst : Raw.t :=
  Raw.mk "Hello" Undefined Undefined Undefined Undefined Undefined
    Undefined Undefined Undefined (Val first) Undefined Undefined
    Undefined Undefined Undefined Undefined Undefined Undefined Undefined
    Undefined.

(** A service whose calls fail with [e]. *)
Definition failingService (e : string) : HumeClient :=
  {| synthesizeJson := fun _ => Err e;
     synthesizeJsonStreaming := fun _ => {| chunks := []; failure := Some e |} |}.

(** A service whose buffered call returns the given generations. *)
Definition bufferedService (generations : list ReturnGeneration) : HumeClient :=
  {| synthesizeJson := fun _ => Ok generations;
     synthesizeJsonStreaming := fun _ => {| chunks := []; failure := None |} |}.

Definition twoGenerations : list ReturnGeneration :=
  [ {| gen_generationId := "gen_1"; gen_audio := "YXVkaW8x" |};
    {| gen_generationId := "gen_2"; gen_audio := "YXVkaW8y" |} ].

(** An installation that reads the text from a pipe. *)
Definition piped (hume : HumeClient) : Tts :=
  {| getSettings := fun _ =>
       {| session := emptyConfig; globalConfig := emptyConfig;
          env := [("HUME_API_KEY", "test-key")]; hume := Some hume |};
     getStdin := "  Hello from a pipe " ++ newline;
     getLastSynthesis := None;
     stdinPlayer := fun _ => Ok 0%Z;
     filePlayer := fun _ _ => Ok 0%Z |}.

(** An installation whose player exits with code 1. *)
Definition brokenPlayer : Tts :=
  {| getSettings := fun _ =>
       {| session := emptyConfig; globalConfig := emptyConfig;
          env := []; hume := None |};
     getStdin := "";
     getLastSynthesis := None;
     stdinPlayer := fun _ => Ok 1%Z;
     filePlayer := fun _ _ => Ok 1%Z |}.
End Scenario3.

(** What [synthesize] emits before it adds the context: the deprecation
    warning of [--preset-voice] and the read of standard input. *)
Definition preludeOf (opts : Resolved.t) : list Event :=
  ((if Resolved.presetVoice opts then [Warn presetVoiceWarning] else [])
   ++ (if Resolved.text opts =? "-" then [ReadStdin] else []))%list.

(** ** [getSettings] and [getHumeClient] ([src/common.ts]) *)

Module CommonOpts.
Record t := mk {
  json : maybe bool;
  pretty : maybe bool;
  apiKey : maybe string;
  debug : maybe bool;
  baseUrl : maybe string
}.
End CommonOpts.

Module Common.
(** ['json' | 'pretty'] *)
Inductive ReporterMode := JsonMode | PrettyMode.

(** [a ?? b] on values that may be [undefined] or [null]. *)
Definition coalesce {T} (a b : maybe T) : maybe T :=
  if nullish a then b else a.

(** [env[name]]: [undefined] when the variable is not set. *)
Definition lookupEnv (env : list (string * string)) (name : string)
  : maybe string :=
  match find (fun kv => fst kv =? name) env with
  | Some kv => Val (snd kv)
  | None => Undefined
  end.

(** Determine reporter mode with priority: opts > session > globalConfig *)
Definition reporterMode (opts : CommonOpts.t)
  (session globalConfig : ConfigData) : ReporterMode :=
  if truthy (CommonOpts.json opts) || truthy (json session)
     || truthy (json globalConfig)
  then JsonMode
  else if truthy (CommonOpts.pretty opts) || truthy (pretty session)
  then PrettyMode
  else PrettyMode.

Definition apiKeyOf (env : list (string * string))
  (globalConfig session : ConfigData) (opts : CommonOpts.t) : maybe string :=
  coalesce
    (coalesce (coalesce (apiKey globalConfig) (apiKey session))
       (lookupEnv env "HUME_API_KEY"))
    (CommonOpts.apiKey opts).

Definition baseUrlOf (env : list (string * string))
  (globalConfig session : ConfigData) (opts : CommonOpts.t) : maybe string :=
  coalesce
    (coalesce (coalesce (CommonOpts.baseUrl opts) (lookupEnv env "HUME_BASE_URL"))
       (baseUrl session))
    (baseUrl globalConfig).

(** The options [getHumeClient] passes to [new HumeClient]. *)
Record ClientOptions := {
  client_apiKey : string;
  client_environment : string
}.

Definition getHumeClient (apiKey : string) (baseUrl : maybe string)
  : ClientOptions :=
  {| client_apiKey := apiKey;
     client_environment :=
       match baseUrl with
       | Val url => url
       | _ => "https://api.hume.ai"
       end |}.

(** The [hume] member of the settings: [null] without an API key. *)
Definition humeOf (env : list (string * string))
  (globalConfig session : ConfigData) (opts : CommonOpts.t)
  : option ClientOptions :=
  match apiKeyOf env globalConfig session opts with
  | Val key =>
      if truthy key
      then Some (getHumeClient key (baseUrlOf env globalConfig session opts))
      else None
  | _ => None
  end.
End Common.

(** ** Editing a config ([src/config.ts], [editConfigKV]) *)

Module Config.
(** The names [configValidators] accepts. *)
Inductive ConfigName :=
| tts_voiceName | tts_voiceId | tts_description | tts_outputDir
| tts_prefix | tts_play | tts_format | tts_playCommand | tts_presetVoice
| tts_speed | tts_trailingSilence | tts_streaming
| name_json | name_pretty | name_apiKey.

Definition nameString (name : ConfigName) : string :=
  match name with
  | tts_voiceName => "tts.voiceName"
  | tts_voiceId => "tts.voiceId"
  | tts_description => "tts.description"
  | tts_outputDir => "tts.outputDir"
  | tts_prefix => "tts.prefix"
  | tts_play => "tts.play"
  | tts_format => "tts.format"
  | tts_playCommand => "tts.playCommand"
  | tts_presetVoice => "tts.presetVoice"
  | tts_speed => "tts.speed"
  | tts_trailingSilence => "tts.trailingSilence"
  | tts_streaming => "tts.streaming"
  | name_json => "json"
  | name_pretty => "pretty"
  | name_apiKey => "apiKey"
  end.

(** A value the validators produce. *)
Inductive Value :=
| VString (s : string)
| VNumber (q : Q)
| VBoolean (b : bool).

(** An object with string keys, in insertion order. *)
Definition Object := list (string * Value).

Definition obj_get (key : string) (o : Object) : option Value :=
  option_map snd (find (fun kv => fst kv =? key) o).

(** [o[key] = value]: an existing key keeps its place. *)
Definition obj_set (key : string) (value : Value) (o : Object) : Object :=
  if existsb (fun kv => fst kv =? key) o
  then map (fun kv => if fst kv =? key then (key, value) else kv) o
  else (o ++ [(key, value)])%list.

(** A config record as its type has it: the optional [tts] object and
    the keys beside it. *)
Record t := {
  section : option Object;   (* config.tts *)
  fields : Object
}.

(** [{}] *)
Definition empty : t := {| section := None; fields := [] |}.

(** [name.slice('tts.'.length)] *)
Definition innerNameOf (name : string) : string :=
  substring 4%nat (String.length name - 4)%nat name.

Definition editConfigKV (name : ConfigName) (value : Value) (config : t) : t :=
  if prefix "tts." (nameString name) then
    let innerName := innerNameOf (nameString name) in
    let tts := match section config with
               | Some o => o
               | None => []
               end in
    {| section := Some (obj_set innerName value tts);
       fields := fields config |}
  else
    {| section := section config;
       fields := obj_set (nameString name) value (fields config) |}.

(** What a reader finds under a name: [config.tts?.[key]] for the [tts.]
    names, [config[name]] for the others. *)
Definition lookup (name : ConfigName) (config : t) : option Value :=
  if prefix "tts." (nameString name) then
    match section config with
    | Some o => obj_get (innerNameOf (nameString name)) o
    | None => None
    end
  else obj_get (nameString name) (fields config).
End Config.

(** ** Choosing the audio player ([src/play_audio.ts]) *)

Module PlayAudio.
Record Command := {
  cmd : string;
  argsWithPath : string -> list string;
  argsWithStdin : option (list string)
}.

Definition placeholder : string := "$AUDIO_FILE".

(** [s.includes (pattern)] *)
Definition includes (pattern s : string) : bool :=
  match String.index 0%nat pattern s with
  | Some _ => true
  | None => false
  end.

(** [GetSubstitution] for a match without captures: in the replacement
    [$$] stands for [$], [$&] for the match, [$`] for what precedes it
    and [$'] for what follows it; any other [$] stands for itself. *)
Fixpoint getSubstitution (matched before after template : string) : string :=
  match template with
  | EmptyString => ""
  | String c EmptyString => String c ""
  | String c (String d rest as tail) =>
      if Ascii.eqb c "$" then
        if Ascii.eqb d "$"
        then "$" ++ getSubstitution matched before after rest
        else if Ascii.eqb d "&"
        then matched ++ getSubstitution matched before after rest
        else if Ascii.eqb d "`"
        then before ++ getSubstitution matched before after rest
        else if Ascii.eqb d "'"
        then after ++ getSubstitution matched before after rest
        else String c (getSubstitution matched before after tail)
      else String c (getSubstitution matched before after tail)
  end.

(** [s.replace (pattern, replacement)] for a string pattern: the first
    occurrence is replaced. *)
Definition replace (pattern replacement s : string) : string :=
  match String.index 0%nat pattern s with
  | Some n =>
      let before := substring 0%nat n s in
      let after :=
        substring (n + String.length pattern)%nat
          (String.length s - (n + String.length pattern))%nat s in
      before ++ getSubstitution pattern before after replacement ++ after
  | None => s
  end.

(** [s.split (' ')] *)
Fixpoint split (s : string) : list string :=
  match s with
  | EmptyString => [""]
  | String c rest =>
      if Ascii.eqb c " "%char then "" :: split rest
      else match split rest with
           | part :: parts => String c part :: parts
           | [] => [String c ""]
           end
  end.

Definition parseCustomCommand (command : string) : Command :=
  let parts := split command in
  let cmd := hd "" parts in
  let args := tl parts in
  let argsWithPath (path : string) := map (replace placeholder path) args in
  let argsWithStdin :=
    if existsb (includes placeholder) args then argsWithPath "-" else args in
  {| cmd := cmd; argsWithPath := argsWithPath;
     argsWithStdin := Some argsWithStdin |}.

Definition atEnd (arr : list string) (path : string) : list string :=
  (arr ++ [path])%list.

Definition quote : string := String (ascii_of_nat 34) "".

(** Ordered by preference *)
Definition commonPlayers (isWindows : bool) : list Command :=
  if isWindows then
    [ {| cmd := "powershell";
         argsWithPath := fun path =>
           ["-c"; quote ++ "(New-Object Media.SoundPlayer '" ++ path
                  ++ "').PlaySync()" ++ quote];
         argsWithStdin := None |};
      {| cmd := "ffplay";
         argsWithPath := atEnd ["-nodisp"; "-autoexit"];
         argsWithStdin := Some ["-nodisp"; "-autoexit"; "-i"; "-"] |};
      {| cmd := "mpv"; argsWithPath := atEnd ["--no-video"];
         argsWithStdin := Some ["--no-video"; "-"] |};
      {| cmd := "mplayer"; argsWithPath := atEnd [""];
         argsWithStdin := Some ["-"] |} ]
  else
    [ {| cmd := "ffplay";
         argsWithPath := atEnd ["-nodisp"; "-autoexit"];
         argsWithStdin := Some ["-nodisp"; "-autoexit"; "-i"; "-"] |};
      {| cmd := "afplay"; argsWithPath := atEnd [""];
         argsWithStdin := None |};
      {| cmd := "mplayer"; argsWithPath := atEnd [""];
         argsWithStdin := Some ["-"] |};
      {| cmd := "mpv"; argsWithPath := atEnd ["--no-video"];
         argsWithStdin := Some ["--no-video"; "-"] |};
      {| cmd := "aplay"; argsWithPath := atEnd [""];
         argsWithStdin := Some ["-"] |};
      {| cmd := "play"; argsWithPath := atEnd [""];
         argsWithStdin := Some ["-"] |} ].

(** [spawnSyncThrows checkCmd cmd] tells whether
    [spawnSync (checkCmd, [cmd])] throws; the first player for which it
    does not is found. *)
Definition findDefaultAudioPlayer_ (isWindows : bool)
  (spawnSyncThrows : string -> string -> bool) : option Command :=
  let checkCmd := if isWindows then "where" else "which" in
  find (fun player => negb (spawnSyncThrows checkCmd (cmd player)))
    (commonPlayers isWindows).

Definition ensureAudioPlayer (command : option Command) : result Command :=
  match command with
  | None =>
      Err "No audio player found. Please install ffplay or specify a custom player with --play-command"
  | Some c => Ok c
  end.

Definition ensureStdinSupport (command : Command) : result Command :=
  match argsWithStdin command with
  | None =>
      Err "The audio player does not support playing from stdin. Please specify a custom player with --play-command"
  | Some _ => Ok command
  end.

(** The command [withStdinAudioPlayer] spawns, or the error it throws
    before spawning. *)
Definition stdinCommand (isWindows : bool)
  (spawnSyncThrows : string -> string -> bool)
  (customCommand : option string) : result Command :=
  match ensureAudioPlayer
          (match customCommand with
           | Some command =>
               if truthy command then Some (parseCustomCommand command)
               else findDefaultAudioPlayer_ isWindows spawnSyncThrows
           | None => findDefaultAudioPlayer_ isWindows spawnSyncThrows
           end) with
  | Err e => Err e
  | Ok command => ensureStdinSupport command
  end.
End PlayAudio.

(** ** An installation on Windows *)

Module Windows.
(** [spawnSync] tells a failed check in the object it returns: it does
    not throw. *)
Definition spawnSyncThrows (checkCmd cmd : string) : bool := false.

(** A player that closes with [exitCode] once it is spawned. *)
Definition playerClosing (exitCode : Z) (customCommand : option string)
  : result Z :=
  match PlayAudio.stdinCommand true spawnSyncThrows customCommand with
  | Err e => Err e
  | Ok _ => Ok exitCode
  end.

(** Empty configs, no history, and players that close with 0 once they
    are spawned. *)
Definition installation (hume : option HumeClient) : Tts :=
  {| getSettings := fun _ =>
       {| session := emptyConfig; globalConfig := emptyConfig;
          env := [("HUME_API_KEY", "test-key")]; hume := hume |};
     getStdin := "";
     getLastSynthesis := None;
     stdinPlayer := playerClosing 0;
     filePlayer := fun _ _ => Ok 0%Z |}.
End Windows.

(** * Properties *)

(** ** The settings cascade *)

Lemma osgd_cascades {T R} (lift : T -> R) (dflt : R) (o s g : maybe T) :
  cascades lift dflt o s g (item (osgd lift dflt o s g)).
Proof.
  unfold cascades, osgd.
  destruct o, s, g; cbn; repeat split; intros; try discriminate;
    try congruence.
Qed.

Lemma cascades_unique {T R} (lift : T -> R) (dflt : R) (o s g : maybe T) x y :
  cascades lift dflt o s g x -> cascades lift dflt o s g y -> x = y.
Proof.
  unfold cascades. intros (Ho & Hs & Hg & Hd) (Ho' & Hs' & Hg' & Hd').
  destruct o as [| |v];
    [| |rewrite (Ho v eq_refl), (Ho' v eq_refl); reflexivity];
    (destruct s as [| |v];
     [| |rewrite (Hs eq_refl v eq_refl), (Hs' eq_refl v eq_refl); reflexivity];
     (destruct g as [| |v];
      [| |rewrite (Hg eq_refl eq_refl v eq_refl), (Hg' eq_refl eq_refl v eq_refl);
          reflexivity];
      rewrite (Hd eq_refl eq_refl eq_refl), (Hd' eq_refl eq_refl eq_refl);
      reflexivity)).
Qed.

Lemma osgd_priority {T R} (lift : T -> R) (dflt : R) (o s g : maybe T) :
  priority (osgd lift dflt o s g) = source o s g.
Proof. destruct o, s, g; reflexivity. Qed.

Lemma resolveOpts_Ok env globalConfig session opts r :
  resolveOpts env globalConfig session opts = Ok r ->
  r = resolveFields globalConfig session opts.
Proof.
  unfold resolveOpts. intros H.
  destruct (mutuallyExclusive "voiceName" "voiceId" _ _); [|discriminate].
  destruct (mutuallyExclusive "outputFilePath" "numGenerations" _ _); [|discriminate].
  destruct (mutuallyExclusive "last" "contextGenerationId" _ _); [|discriminate].
  congruence.
Qed.

Lemma resolveFields_voices globalConfig session opts :
  let voiceName_ :=
    osgd Some None (Raw.voiceName opts) (ttsKey Cfg.voiceName session)
      (ttsKey Cfg.voiceName globalConfig) in
  let voiceId_ :=
    osgd Some None (Raw.voiceId opts) (ttsKey Cfg.voiceId session)
      (ttsKey Cfg.voiceId globalConfig) in
  let r := resolveFields globalConfig session opts in
  if (priority voiceName_ >? priority voiceId_)%Z
  then Resolved.voiceName r = item voiceName_ /\ Resolved.voiceId r = None
  else Resolved.voiceName r = None /\ Resolved.voiceId r = item voiceId_.
Proof.
  cbv zeta. unfold resolveFields; cbn [Resolved.voiceName Resolved.voiceId].
  unfold Defaults.voiceName, Defaults.voiceId.
  destruct (_ >? _)%Z; cbn; split; reflexivity.
Qed.

Lemma voice_override env globalConfig session opts r name id :
  resolveOpts env globalConfig session opts = Ok r ->
  cascaded Some None Raw.voiceName Cfg.voiceName globalConfig session opts name ->
  cascaded Some None Raw.voiceId Cfg.voiceId globalConfig session opts id ->
  if (source (Raw.voiceName opts) (ttsKey Cfg.voiceName session)
        (ttsKey Cfg.voiceName globalConfig)
      >? source (Raw.voiceId opts) (ttsKey Cfg.voiceId session)
           (ttsKey Cfg.voiceId globalConfig))%Z
  then Resolved.voiceName r = name /\ Resolved.voiceId r = None
  else Resolved.voiceName r = None /\ Resolved.voiceId r = id.
Proof.
  intros H Hn Hi. apply resolveOpts_Ok in H. subst r.
  pose proof (resolveFields_voices globalConfig session opts) as Hv.
  cbv zeta in Hv. rewrite !osgd_priority in Hv.
  rewrite (cascades_unique _ _ _ _ _ _ _ Hn (osgd_cascades _ _ _ _ _)).
  rewrite (cascades_unique _ _ _ _ _ _ _ Hi (osgd_cascades _ _ _ _ _)).
  exact Hv.
Qed.

Lemma cascaded_exists {T R} (lift : T -> R) (dflt : R) ko kc globalConfig session opts :
  exists v, cascaded lift dflt ko kc globalConfig session opts v.
Proof. eexists. apply osgd_cascades. Qed.

(** C1, as stated, fails: with [voiceName] in the global config and
    [--voice-id] on the command line the options resolve, yet the resolved
    [voiceName] is [null] and not the global value. *)
Lemma cascade_all_fields_counterexample :
  exists r,
    resolveOpts [] Scenario.globalVoiceName emptyConfig Scenario.cliVoiceId = Ok r
    /\ ~ (plainFieldsCascade Scenario.globalVoiceName emptyConfig
            Scenario.cliVoiceId r
          /\ voiceFieldsCascade Scenario.globalVoiceName emptyConfig
               Scenario.cliVoiceId r).
Proof.
  eexists. split; [reflexivity|].
  intros [_ [Hname _]].
  destruct Hname as (_ & _ & Hglob & _).
  specialize (Hglob eq_refl eq_refl "config_voice" eq_refl).
  discriminate Hglob.
Qed.

(** C1 (amended): when the options resolve, every cascading field other
    than [voiceName] and [voiceId] takes the CLI value when present, otherwise
    the session value, otherwise the global value, otherwise the built-in
    default, a null or undefined value counting as absent.  [voiceName] and
    [voiceId] cascade the same way, after which one of them is set to null:
    [voiceId] when the source of [voiceName] has the strictly higher
    priority, [voiceName] otherwise. *)
Theorem cascade_resolution env globalConfig session opts r :
  resolveOpts env globalConfig session opts = Ok r ->
  plainFieldsCascade globalConfig session opts r
  /\ (forall name id,
        cascaded Some None Raw.voiceName Cfg.voiceName globalConfig session
          opts name ->
        cascaded Some None Raw.voiceId Cfg.voiceId globalConfig session
          opts id ->
        if (source (Raw.voiceName opts) (ttsKey Cfg.voiceName session)
              (ttsKey Cfg.voiceName globalConfig)
            >? source (Raw.voiceId opts) (ttsKey Cfg.voiceId session)
                 (ttsKey Cfg.voiceId globalConfig))%Z
        then Resolved.voiceName r = name /\ Resolved.voiceId r = None
        else Resolved.voiceName r = None /\ Resolved.voiceId r = id).
Proof.
  intros H. split.
  - apply resolveOpts_Ok in H. subst r.
    unfold plainFieldsCascade, cascaded, resolveFields; cbn.
    repeat split; apply osgd_cascades.
  - intros name id. apply voice_override with (env := env). exact H.
Qed.

Lemma cascade_resolution_witness :
  plainFieldsCascade Scenario.globalVoiceName emptyConfig Scenario.cliVoiceId
    (resolveFields Scenario.globalVoiceName emptyConfig Scenario.cliVoiceId)
  /\ Resolved.voiceName
       (resolveFields Scenario.globalVoiceName emptyConfig Scenario.cliVoiceId)
     = None
  /\ Resolved.voiceId
       (resolveFields Scenario.globalVoiceName emptyConfig Scenario.cliVoiceId)
     = Some "opts_voice".
Proof.
  destruct (cascade_resolution [] Scenario.globalVoiceName emptyConfig
              Scenario.cliVoiceId _ eq_refl) as [Hplain Hvoice].
  split; [exact Hplain|].
  apply (Hvoice (Some "config_voice") (Some "opts_voice")).
  - unfold cascaded, cascades; cbn. repeat split; intros; congruence.
  - unfold cascaded, cascades; cbn. repeat split; intros; congruence.
Defined.

(** C2: when [voiceName] and [voiceId] each cascade to a non-null value and
    the two come from sources of different priority, exactly one survives
    resolution, the one from the source of strictly higher priority, and the
    other is null. *)
Theorem voice_higher_priority_wins env globalConfig session opts r name id :
  resolveOpts env globalConfig session opts = Ok r ->
  cascaded Some None Raw.voiceName Cfg.voiceName globalConfig session opts
    (Some name) ->
  cascaded Some None Raw.voiceId Cfg.voiceId globalConfig session opts
    (Some id) ->
  source (Raw.voiceName opts) (ttsKey Cfg.voiceName session)
    (ttsKey Cfg.voiceName globalConfig)
  <> source (Raw.voiceId opts) (ttsKey Cfg.voiceId session)
       (ttsKey Cfg.voiceId globalConfig) ->
  (source (Raw.voiceId opts) (ttsKey Cfg.voiceId session)
     (ttsKey Cfg.voiceId globalConfig)
   < source (Raw.voiceName opts) (ttsKey Cfg.voiceName session)
       (ttsKey Cfg.voiceName globalConfig)
   /\ Resolved.voiceName r = Some name /\ Resolved.voiceId r = None)
  \/ (source (Raw.voiceName opts) (ttsKey Cfg.voiceName session)
        (ttsKey Cfg.voiceName globalConfig)
      < source (Raw.voiceId opts) (ttsKey Cfg.voiceId session)
          (ttsKey Cfg.voiceId globalConfig)
      /\ Resolved.voiceId r = Some id /\ Resolved.voiceName r = None).
Proof.
  intros H Hn Hi Hne.
  pose proof (voice_override _ _ _ _ _ _ _ H Hn Hi) as Hv.
  destruct (Z.gtb_spec
              (source (Raw.voiceName opts) (ttsKey Cfg.voiceName session)
                 (ttsKey Cfg.voiceName globalConfig))
              (source (Raw.voiceId opts) (ttsKey Cfg.voiceId session)
                 (ttsKey Cfg.voiceId globalConfig))) as [Hgt|Hle].
  - left. destruct Hv. repeat split; trivial.
  - right. destruct Hv. repeat split; trivial. lia.
Qed.

(** The example of C2: the global config sets [voiceName], the command line
    sets [voiceId]; the resolved [voiceId] is kept and [voiceName] is null. *)
Lemma voice_higher_priority_wins_witness :
  Resolved.voiceId
    (resolveFields Scenario.globalVoiceName emptyConfig Scenario.cliVoiceId)
  = Some "opts_voice"
  /\ Resolved.voiceName
       (resolveFields Scenario.globalVoiceName emptyConfig Scenario.cliVoiceId)
     = None.
Proof.
  destruct (voice_higher_priority_wins [] Scenario.globalVoiceName emptyConfig
              Scenario.cliVoiceId _ "config_voice" "opts_voice" eq_refl)
    as [[Hlt _] | [_ Hkept]].
  - unfold cascaded, cascades; cbn. repeat split; intros; congruence.
  - unfold cascaded, cascades; cbn. repeat split; intros; congruence.
  - cbn. lia.
  - cbn in Hlt. lia.
  - exact Hkept.
Defined.

(** C9: when [voiceName] and [voiceId] cascade to non-null values from
    sources of equal priority the resolver keeps [voiceId] and sets
    [voiceName] to null; and the resolved options never have both
    [voiceName] and [voiceId] non-null. *)
Theorem voice_tie_keeps_voiceId env globalConfig session opts r :
  resolveOpts env globalConfig session opts = Ok r ->
  (forall name id,
     cascaded Some None Raw.voiceName Cfg.voiceName globalConfig session opts
       (Some name) ->
     cascaded Some None Raw.voiceId Cfg.voiceId globalConfig session opts
       (Some id) ->
     source (Raw.voiceName opts) (ttsKey Cfg.voiceName session)
       (ttsKey Cfg.voiceName globalConfig)
     = source (Raw.voiceId opts) (ttsKey Cfg.voiceId session)
         (ttsKey Cfg.voiceId globalConfig) ->
     Resolved.voiceId r = Some id /\ Resolved.voiceName r = None)
  /\ (Resolved.voiceName r = None \/ Resolved.voiceId r = None).
Proof.
  intros H. split.
  - intros name id Hn Hi Heq.
    pose proof (voice_override _ _ _ _ _ _ _ H Hn Hi) as Hv.
    rewrite Heq in Hv.
    rewrite Z.gtb_ltb, Z.ltb_irrefl in Hv.
    destruct Hv; split; assumption.
  - destruct (cascaded_exists Some None Raw.voiceName Cfg.voiceName
                globalConfig session opts) as [name Hn].
    destruct (cascaded_exists Some None Raw.voiceId Cfg.voiceId
                globalConfig session opts) as [id Hi].
    pose proof (voice_override _ _ _ _ _ _ _ H Hn Hi) as Hv.
    destruct (_ >? _)%Z; destruct Hv; auto.
Qed.

Lemma voice_tie_keeps_voiceId_witness :
  Resolved.voiceId
    (resolveFields emptyConfig Scenario.sessionBothVoices (Raw.empty "Hello"))
  = Some "session_voice_id"
  /\ Resolved.voiceName
       (resolveFields emptyConfig Scenario.sessionBothVoices (Raw.empty "Hello"))
     = None.
Proof.
  apply (proj1 (voice_tie_keeps_voiceId [] emptyConfig
                  Scenario.sessionBothVoices (Raw.empty "Hello") _ eq_refl)
           "session_voice" "session_voice_id").
  - unfold cascaded, cascades; cbn. repeat split; intros; congruence.
  - unfold cascaded, cascades; cbn. repeat split; intros; congruence.
  - reflexivity.
Defined.

(** ** The request builder *)

(** C8, as stated, fails: with [--provider CUSTOM_VOICE] the provider
    resolves to [CUSTOM_VOICE], yet the voice reference carries no provider. *)
Lemma custom_voice_provider_counterexample :
  determineProvider (Val CUSTOM_VOICE) false = Val CUSTOM_VOICE
  /\ Utterance.voice
       (calculateUtterance (Some "narrator") None "Hello there" None false
          (Val CUSTOM_VOICE) None None)
     = Some (VoiceByName "narrator" None)
  /\ option_map voice_provider
       (Utterance.voice
          (calculateUtterance (Some "narrator") None "Hello there" None false
             (Val CUSTOM_VOICE) None None))
     <> Some (Some CUSTOM_VOICE).
Proof. repeat split; cbn; congruence. Qed.

Lemma truthy_string_nonempty (s : string) : s <> "" -> truthy s = true.
Proof.
  intros H. unfold truthy, Truthy_string.
  destruct (String.eqb_spec s ""); [contradiction | reflexivity].
Qed.

(** C8 (amended): a resolved non-empty [voiceName] yields the voice
    reference [{name}], and without one a resolved non-empty [voiceId] yields
    [{id}]; the provider is the explicit provider flag when given, else
    [HUME_AI] when the legacy [presetVoice] flag is set; it is added to the
    voice reference exactly when it is [HUME_AI]. *)
Theorem utterance_voice_reference
  (voiceName voiceId : option string) (text : string)
  (description : option string) (presetVoice : bool)
  (provider : maybe Provider) (speed trailingSilence : option Q) :
  let resolved := determineProvider provider presetVoice in
  let attached :=
    match resolved with
    | Val HUME_AI => Some HUME_AI
    | _ => None
    end in
  let utterance :=
    calculateUtterance voiceName voiceId text description presetVoice provider
      speed trailingSilence in
  (forall p, provider = Val p -> resolved = Val p)
  /\ (nullish provider = true -> presetVoice = true -> resolved = Val HUME_AI)
  /\ (nullish provider = true -> presetVoice = false -> nullish resolved = true)
  /\ (forall name, voiceName = Some name -> name <> "" ->
      Utterance.voice utterance = Some (VoiceByName name attached))
  /\ (forall id, truthy voiceName = false -> voiceId = Some id -> id <> "" ->
      Utterance.voice utterance = Some (VoiceById id attached)).
Proof.
  cbv zeta. repeat split.
  - intros p ->. reflexivity.
  - intros Hn ->. destruct provider; try discriminate; reflexivity.
  - intros Hn ->. destruct provider; try discriminate; reflexivity.
  - intros name -> Hne. unfold calculateUtterance; cbn.
    rewrite (truthy_string_nonempty _ Hne).
    destruct (determineProvider provider presetVoice) as [| |[]]; reflexivity.
  - intros id Hvn -> Hne. unfold calculateUtterance; cbn.
    rewrite Hvn. cbn. rewrite (truthy_string_nonempty _ Hne).
    destruct (determineProvider provider presetVoice) as [| |[]]; reflexivity.
Qed.

Lemma utterance_voice_reference_witness :
  Utterance.voice
    (calculateUtterance (Some "test_voice") None "Test" None true Undefined
       None None)
  = Some (VoiceByName "test_voice" (Some HUME_AI)).
Proof.
  apply (utterance_voice_reference (Some "test_voice") None "Test" None true
           Undefined None None).
  - reflexivity.
  - discriminate.
Defined.

(** ** The continuation resolver *)

Lemma string_app_assoc (a b c : string) : (a ++ b) ++ c = a ++ (b ++ c).
Proof. induction a as [|x a IH]; cbn; [reflexivity | now rewrite IH]. Qed.

Lemma maybeAddContext_last history contextGenerationId lastIndex tts :
  truthy contextGenerationId = false ->
  maybeAddContext history contextGenerationId true lastIndex tts =
  match history with
  | None => Err "No previous generation found to continue from"
  | Some h =>
      let n := Z.of_nat (length (ids h)) in
      match lastIndex with
      | None =>
          if (n >? 1)%Z then Err (lastIndexMessage n)
          else Ok (set_context {| context_generationId := index (ids h) 0 |} tts)
      | Some i =>
          if (i >? n)%Z then Err (lastIndexMessage n)
          else Ok (set_context
                     {| context_generationId := index (ids h) (i - 1) |} tts)
      end
  end.
Proof.
  intros Hctx. unfold maybeAddContext. rewrite Hctx. cbn.
  destruct history as [h|]; [|reflexivity].
  destruct lastIndex as [i|]; cbn.
  - rewrite andb_false_r. reflexivity.
  - rewrite andb_true_r. reflexivity.
Qed.

Lemma set_context_fields (c : PostedContext) (tts : PostedTts) :
  context (set_context c tts) = Some c /\ sameButContext tts (set_context c tts).
Proof. repeat split. Qed.

(** C6: with [last] set and no explicit [contextGenerationId], the resolver
    fails when there is no history; for a history of [N] ids it fails when
    [N > 1] and no [lastIndex] is given and when a given [lastIndex] exceeds
    [N], the message asking for an index between 1 and [N]; otherwise the
    request it returns has the context generation id
    [history.ids[lastIndex - 1]], [lastIndex] being 1 when none is given:
    the one id of a history with [N = 1]; nothing else of the request is
    changed. *)
Theorem continuation_resolution
  (history : option GenerationHistory) (contextGenerationId : option string)
  (lastIndex : option Z) (tts : PostedTts) :
  truthy contextGenerationId = false ->
  let run := maybeAddContext history contextGenerationId true lastIndex tts in
  (history = None -> run = Err "No previous generation found to continue from")
  /\ (forall h, history = Some h ->
        let N := Z.of_nat (length (ids h)) in
        (N > 1 -> lastIndex = None -> run = Err (lastIndexMessage N))
        /\ (forall i, lastIndex = Some i -> i > N ->
            run = Err (lastIndexMessage N))
        /\ (forall i, lastIndex = Some i -> i <= N ->
            exists tts',
              run = Ok tts'
              /\ context tts'
                 = Some {| context_generationId := index (ids h) (i - 1) |}
              /\ sameButContext tts tts')
        /\ (lastIndex = None -> N <= 1 ->
            exists tts',
              run = Ok tts'
              /\ context tts'
                 = Some {| context_generationId := index (ids h) (1 - 1) |}
              /\ sameButContext tts tts')
        /\ (forall id, lastIndex = None -> ids h = [id] ->
            exists tts',
              run = Ok tts'
              /\ context tts' = Some {| context_generationId := Val id |}
              /\ sameButContext tts tts'))
  /\ (forall N, exists before after,
        lastIndexMessage N
        = before ++ "between 1 and " ++ show N ++ after).
Proof.
  intros Hctx run. subst run. rewrite (maybeAddContext_last _ _ _ _ Hctx).
  split; [|split].
  - intros ->. reflexivity.
  - intros h ->. cbv zeta. repeat split.
    + intros HN ->. destruct (Z.gtb_spec (Z.of_nat (length (ids h))) 1);
        [reflexivity | lia].
    + intros i -> Hi. destruct (Z.gtb_spec i (Z.of_nat (length (ids h))));
        [reflexivity | lia].
    + intros i -> Hi. destruct (Z.gtb_spec i (Z.of_nat (length (ids h))));
        [lia|]. eexists. split; [reflexivity|]. apply set_context_fields.
    + intros -> HN. destruct (Z.gtb_spec (Z.of_nat (length (ids h))) 1);
        [lia|]. eexists. split; [reflexivity|]. apply set_context_fields.
    + intros id -> Hids. rewrite Hids. cbn [length Z.of_nat Pos.of_succ_nat].
      eexists. split; [reflexivity|]. apply set_context_fields.
  - intros N. unfold lastIndexMessage.
    exists ("Unexpected: previous synthesis contained " ++ show N
            ++ " generations. Please specify --last-index as a number ").
    exists " to select from the previous synthesis".
    rewrite !string_app_assoc. reflexivity.
Qed.

(** History [gen_1, gen_2, gen_3] with [--last --last-index 2] continues
    from [gen_2]. *)
Lemma continuation_resolution_witness :
  exists tts',
    maybeAddContext (Some Scenario.threeGenerations) None true (Some 2)
      (Scenario.request "Hello")
    = Ok tts'
    /\ context tts' = Some {| context_generationId := Val "gen_2" |}
    /\ utterances tts' = utterances (Scenario.request "Hello").
Proof.
  destruct (continuation_resolution (Some Scenario.threeGenerations) None
              (Some 2) (Scenario.request "Hello") eq_refl)
    as (_ & Hhistory & _).
  destruct (Hhistory _ eq_refl) as (_ & _ & Hindex & _ & _).
  destruct (Hindex 2 eq_refl) as (tts' & Hrun & Hcontext & Hsame & _).
  - cbn. lia.
  - exists tts'. split; [exact Hrun|]. split; [exact Hcontext | exact Hsame].
Defined.

(** C10: with [last] set and a history of [N] ids, a [lastIndex] above [N]
    raises the range error, while a [lastIndex] of 0 or below passes the
    check and the lookup [history.ids[lastIndex - 1]] is out of bounds, so
    the context carries no generation id; [Voices.save] rejects any
    [lastIndex] below 1. *)
Theorem last_index_lower_bound_unchecked
  (h : GenerationHistory) (contextGenerationId : option string) (i : Z)
  (tts : PostedTts) :
  truthy contextGenerationId = false ->
  let N := Z.of_nat (length (ids h)) in
  (N < i ->
   maybeAddContext (Some h) contextGenerationId true (Some i) tts
   = Err (lastIndexMessage N))
  /\ (i <= 0 ->
      index (ids h) (i - 1) = Undefined
      /\ maybeAddContext (Some h) contextGenerationId true (Some i) tts
         = Ok (set_context {| context_generationId := Undefined |} tts))
  /\ (i < 1 ->
      forall generationId,
        Voices.save_generationId (Some h) generationId (Val true) (Val i)
        = Err ("Please specify --last-index between 1 and " ++ show N)).
Proof.
  intros Hctx N. rewrite (maybeAddContext_last _ _ _ _ Hctx). cbv zeta.
  fold N. repeat split.
  - intros Hi. destruct (Z.gtb_spec i N); [reflexivity | lia].
  - unfold index. destruct (Z.ltb_spec (i - 1) 0); [reflexivity | lia].
  - destruct (Z.gtb_spec i N); [lia|].
    unfold index. destruct (Z.ltb_spec (i - 1) 0); [reflexivity | lia].
  - intros Hi generationId. unfold Voices.save_generationId. cbn. fold N.
    rewrite andb_false_r.
    destruct (Z.ltb_spec i 1); [reflexivity | lia].
Qed.

(** [--last --last-index 0] after three generations: the request is built
    with a context whose generation id is undefined. *)
Lemma last_index_lower_bound_unchecked_witness :
  maybeAddContext (Some Scenario.threeGenerations) None true (Some 0)
    (Scenario.request "Hello")
  = Ok (set_context {| context_generationId := Undefined |}
          (Scenario.request "Hello"))
  /\ Voices.save_generationId (Some Scenario.threeGenerations) Undefined
       (Val true) (Val 0)
     = Err "Please specify --last-index between 1 and 3".
Proof.
  destruct (last_index_lower_bound_unchecked Scenario.threeGenerations None 0
              (Scenario.request "Hello") eq_refl)
    as (_ & Hlow & Hsave).
  split.
  - apply Hlow. lia.
  - apply (Hsave ltac:(lia) Undefined).
Defined.

(** ** Computations *)

Lemma bind_Ok {A B} (t : list Event) (a : A) (k : A -> M B) :
  bind (t, Ok a) k = ((t ++ fst (k a))%list, snd (k a)).
Proof. unfold bind. destruct (k a). reflexivity. Qed.

Lemma bind_Err {A B} (t : list Event) (e : string) (k : A -> M B) :
  bind (t, Err e) k = (t, Err e).
Proof. reflexivity. Qed.

Lemma bind_ret {A B} (a : A) (k : A -> M B) : bind (ret a) k = k a.
Proof. unfold ret. rewrite bind_Ok. destruct (k a). reflexivity. Qed.

Lemma bind_lift_Ok {A B} (a : A) (k : A -> M B) : bind (lift (Ok a)) k = k a.
Proof. apply bind_ret. Qed.

Lemma bind_emit {B} (e : Event) (k : unit -> M B) :
  bind (emit e) k = (e :: fst (k tt), snd (k tt)).
Proof. unfold emit. rewrite bind_Ok. reflexivity. Qed.

Lemma remoteCalls_app (t t' : list Event) :
  remoteCalls (t ++ t') = (remoteCalls t ++ remoteCalls t')%list.
Proof. apply flat_map_app. Qed.

Lemma fileWrites_app (t t' : list Event) :
  fileWrites (t ++ t') = (fileWrites t ++ fileWrites t')%list.
Proof. apply flat_map_app. Qed.

Lemma audioWrites_app (t t' : list Event) :
  audioWrites (t ++ t') = (audioWrites t ++ audioWrites t')%list.
Proof. apply flat_map_app. Qed.

Lemma savedHistories_app (t t' : list Event) :
  savedHistories (t ++ t') = (savedHistories t ++ savedHistories t')%list.
Proof. apply flat_map_app. Qed.

(** ** Instant mode *)

Section Synthesize.
Variable platform : Platform.
Variable this : Tts.
Variable rawOpts : Raw.t.
Variable opts : Resolved.t.

Hypothesis resolved :
  resolveOpts (env (getSettings this rawOpts))
    (globalConfig (getSettings this rawOpts))
    (session (getSettings this rawOpts)) rawOpts = Ok opts.

(** What [synthesize] does once the options are resolved: nothing is sent
    before the request has passed every check. *)
Lemma synthesize_resolved :
  exists prelude,
    remoteCalls prelude = []
    /\ synthesize platform this rawOpts =
       match calculateOutputOpts opts with
       | Err e => ([], Err e)
       | Ok outputOpts =>
           match maybeAddContext (getLastSynthesis this)
                   (Resolved.contextGenerationId opts) (Resolved.last opts)
                   (Resolved.lastIndex opts)
                   (requestOf platform this opts outputOpts) with
           | Err e => (prelude, Err e)
           | Ok tts =>
               match validateInstantMode opts outputOpts
                       (utteranceOf platform this opts) tts with
               | Err e => (prelude, Err e)
               | Ok tts =>
                   match hume (getSettings this rawOpts) with
                   | None => (prelude, Err ApiKeyNotSetError)
                   | Some hume =>
                       bind (prelude, Ok tt)
                         (fun _ =>
                            if Resolved.streaming opts
                            then synthesizeStreaming platform this tts hume
                                   opts outputOpts
                            else synthesizeBuffered platform this tts hume
                                   opts outputOpts)
                   end
               end
           end
       end.
Proof.
  unfold synthesize. rewrite resolved, bind_lift_Ok.
  exists ((if Resolved.presetVoice opts
           then [Warn presetVoiceWarning]
           else [])
          ++ (if Resolved.text opts =? "-" then [ReadStdin] else []))%list.
  split.
  - destruct (Resolved.presetVoice opts), (Resolved.text opts =? "-");
      reflexivity.
  - destruct (calculateOutputOpts opts) as [outputOpts|e]; [|reflexivity].
    rewrite bind_lift_Ok.
    unfold requestOf, utteranceOf, textOf, readStdin, emit, ret, lift, throw.
    destruct (Resolved.presetVoice opts), (Resolved.text opts =? "-");
      repeat (rewrite bind_Ok; cbn [fst snd app]);
      (destruct (maybeAddContext _ _ _ _ _) as [tts|e];
       [|rewrite ?bind_Err; reflexivity]);
      repeat (rewrite bind_Ok; cbn [fst snd app]);
      (destruct (validateInstantMode _ _ _ _) as [tts'|e];
       [|rewrite ?bind_Err; reflexivity]);
      repeat (rewrite bind_Ok; cbn [fst snd app]);
      (destruct (hume (getSettings this rawOpts)); [|reflexivity]);
      destruct (if Resolved.streaming opts then _ else _); reflexivity.
Qed.
End Synthesize.

(** C5: when the resolved options have [instantMode] set, [synthesize]
    fails, with no request sent to the remote service, unless streaming is
    resolved true, the effective [numGenerations] is 1 and the request
    carries a voice reference or a context reference; the error names the
    precondition that is not met. *)
Theorem instant_mode_preconditions
  (platform : Platform) (this : Tts) (rawOpts : Raw.t) (opts : Resolved.t) :
  resolveOpts (env (getSettings this rawOpts))
    (globalConfig (getSettings this rawOpts))
    (session (getSettings this rawOpts)) rawOpts = Ok opts ->
  Resolved.instantMode opts = true ->
  let run := synthesize platform this rawOpts in
  (~ instantPreconditions platform this opts ->
   (exists e, snd run = Err e) /\ remoteCalls (fst run) = [])
  /\ (forall outputOpts tts,
        calculateOutputOpts opts = Ok outputOpts ->
        maybeAddContext (getLastSynthesis this)
          (Resolved.contextGenerationId opts) (Resolved.last opts)
          (Resolved.lastIndex opts) (requestOf platform this opts outputOpts)
        = Ok tts ->
        (Resolved.streaming opts = false ->
         snd run = Err "Instant mode requires streaming to be enabled")
        /\ (Resolved.streaming opts = true ->
            plan_numGenerations outputOpts <> 1 ->
            snd run = Err "Instant mode requires num_generations=1")
        /\ (Resolved.streaming opts = true ->
            plan_numGenerations outputOpts = 1 ->
            Utterance.voice (utteranceOf platform this opts) = None ->
            context tts = None ->
            snd run
            = Err "Instant mode requires a voice to be specified (use --voice-name, --voice-id, --last, or --continue)")).
Proof.
  intros Hresolved Hinstant run.
  destruct (synthesize_resolved platform this rawOpts opts Hresolved)
    as (prelude & Hprelude & Hrun).
  subst run. rewrite Hrun. clear Hrun. split.
  - intros Hnot.
    destruct (calculateOutputOpts opts) as [outputOpts|e] eqn:Hplan;
      [|split; [eexists|]; reflexivity].
    destruct (maybeAddContext _ _ _ _ _) as [tts|e] eqn:Hcontext;
      [|split; [eexists; reflexivity | exact Hprelude]].
    unfold validateInstantMode. rewrite Hinstant.
    destruct (Resolved.streaming opts) eqn:Hstreaming; cbn [negb];
      [|split; [eexists; reflexivity | exact Hprelude]].
    destruct (Z.eqb_spec (plan_numGenerations outputOpts) 1) as [Hone|Hmany];
      cbn [negb]; [|split; [eexists; reflexivity | exact Hprelude]].
    destruct (Utterance.voice (utteranceOf platform this opts)) eqn:Hvoice;
      [exfalso; apply Hnot; split; [assumption|];
       exists outputOpts, tts; rewrite Hvoice; intuition congruence|].
    destruct (context tts) eqn:Hctx;
      [exfalso; apply Hnot; split; [assumption|];
       exists outputOpts, tts; rewrite Hctx; intuition congruence|].
    split; [eexists; reflexivity | exact Hprelude].
  - intros outputOpts tts Hplan Hcontext. rewrite Hplan, Hcontext.
    unfold validateInstantMode. rewrite Hinstant. repeat split.
    + intros ->. reflexivity.
    + intros -> Hmany. cbn [negb].
      destruct (Z.eqb_spec (plan_numGenerations outputOpts) 1);
        [contradiction | reflexivity].
    + intros -> Hone Hvoice Hctx. rewrite Hone, Hvoice, Hctx. reflexivity.
Qed.

(** Instant mode with streaming disabled: the call fails with the streaming
    error and nothing is sent. *)
Lemma instant_mode_preconditions_witness :
  snd (synthesize Node.platform
         (installation emptyConfig emptyConfig None
            (Some (streamingService [])))
         Scenario.instantWithoutStreaming)
  = Err "Instant mode requires streaming to be enabled"
  /\ remoteCalls
       (fst (synthesize Node.platform
               (installation emptyConfig emptyConfig None
                  (Some (streamingService [])))
               Scenario.instantWithoutStreaming))
     = [].
Proof.
  destruct (instant_mode_preconditions Node.platform
              (installation emptyConfig emptyConfig None
                 (Some (streamingService [])))
              Scenario.instantWithoutStreaming _ eq_refl eq_refl)
    as [Hfail Hmessage].
  split.
  - destruct (Hmessage _ _ eq_refl eq_refl) as (Hstreaming & _).
    apply Hstreaming. reflexivity.
  - apply Hfail. intros [Hstreaming _]. discriminate Hstreaming.
Defined.

(** ** The streaming driver *)

Lemma flat_map_nil {A B} (l : list A) : flat_map (fun _ => @nil B) l = [].
Proof. induction l; cbn; auto. Qed.

Lemma flat_map_singleton {A B} (f : A -> B) (l : list A) :
  flat_map (fun x => [f x]) l = map f l.
Proof. induction l; cbn; congruence. Qed.

Section Streaming.
Variable platform : Platform.
Variable this : Tts.

(** [writeAudio] emits [w b] and returns: the no-op and the player's sink
    are both of this form. *)
Variable writeAudio : Buffer -> M unit.
Variable w : Buffer -> list Event.
Hypothesis writeAudio_emits : forall b, writeAudio b = (w b, Ok tt).

Lemma onChunk_step (play : PlayMode) (st : LoopState) (c : Snippet) :
  onChunk platform play writeAudio st c =
  (flat_map w (map (audioOf platform) (if isPiped play st c then [c] else [])),
   Ok (stepState platform st c)).
Proof.
  unfold onChunk, stepState, store, isPiped, hasAudio, nextFirst.
  destruct (audio c) as [| |[|a payload]] eqn:Haudio; try reflexivity.
  cbn [truthy Truthy_string String.eqb negb orb String.length Nat.eqb andb].
  destruct (PlayMode_eqb play first && differsFrom _ _);
    cbn; unfold audioOf; rewrite Haudio.
  - reflexivity.
  - rewrite writeAudio_emits, bind_Ok, app_nil_r. cbn. rewrite app_nil_r.
    reflexivity.
Qed.

Lemma forOf_onChunk (play : PlayMode) (cs : list Snippet) (st : LoopState) :
  forOf (onChunk platform play writeAudio) st cs =
  (flat_map w (map (audioOf platform) (pipedChunks platform play st cs)),
   Ok (fold_left (stepState platform) cs st)).
Proof.
  revert st. induction cs as [|c cs IH]; intros st; cbn [forOf].
  - reflexivity.
  - rewrite onChunk_step, bind_Ok, IH. cbn [fst snd pipedChunks fold_left].
    rewrite map_app, flat_map_app. reflexivity.
Qed.

Lemma go_run (hume : HumeClient) (tts : PostedTts) (play : PlayMode) :
  go platform hume tts play writeAudio =
  (SynthesizeJsonStreaming tts
   :: flat_map w
        (map (audioOf platform)
           (pipedChunks platform play initialState
              (chunks (synthesizeJsonStreaming hume tts)))),
   match failure (synthesizeJsonStreaming hume tts) with
   | Some e => Err e
   | None => Ok (finalAudio platform (chunks (synthesizeJsonStreaming hume tts)))
   end).
Proof.
  unfold go. cbv zeta. rewrite bind_emit, forOf_onChunk.
  unfold finalAudio, initialState.
  destruct (failure _); cbn [bind throw ret fst snd]; rewrite app_nil_r;
    reflexivity.
Qed.
End Streaming.

Section StreamingRun.
Variable platform : Platform.
Variable this : Tts.

Lemma forOf_writeGeneration (outputOpts : SynthesisOutputOpts)
  (m : JsMap (list Buffer)) (written : list WrittenFile) :
  forOf (writeGeneration platform outputOpts) written m =
  (map (fun e => WriteFile (planPath platform outputOpts (fst e))
                   (List.concat (snd e))) m,
   Ok (written
       ++ map (fun e => {| wf_generationId := fst e;
                           wf_path := planPath platform outputOpts (fst e) |})
            m)%list).
Proof.
  revert written. induction m as [|[g bufs] m IH]; intros written; cbn [forOf].
  - cbn. rewrite app_nil_r. reflexivity.
  - unfold writeGeneration at 1. unfold ensureDirAndWriteFile.
    rewrite bind_emit. cbn [ret fst snd]. rewrite bind_Ok, IH.
    cbn [fst snd map app]. rewrite <- app_assoc.
    destruct outputOpts; reflexivity.
Qed.

Lemma synthesizeStreaming_run (tts : PostedTts) (hume : HumeClient)
  (opts : Resolved.t) (outputOpts : SynthesisOutputOpts) :
  let request := set_stripHeaders true tts in
  let stream := synthesizeJsonStreaming hume request in
  let final := finalAudio platform (chunks stream) in
  let piped :=
    map (audioOf platform)
      (pipedChunks platform (Resolved.play opts) initialState (chunks stream)) in
  synthesizeStreaming platform this tts hume opts outputOpts =
  if PlayMode_eqb (Resolved.play opts) off then
    match failure stream with
    | Some e =>
        ([Info "Using streaming mode"; SynthesizeJsonStreaming request], Err e)
    | None =>
        (Info "Using streaming mode" :: SynthesizeJsonStreaming request
         :: epilogue platform outputOpts final, Ok tt)
    end
  else
    match stdinPlayer this (Resolved.playCommand opts) with
    | Err e => ([Info "Using streaming mode"], Err e)
    | Ok code =>
        match failure stream with
        | Some e =>
            (Info "Using streaming mode"
             :: SpawnPlayer (Resolved.playCommand opts)
             :: SynthesizeJsonStreaming request :: map WriteAudio piped,
             Err e)
        | None =>
            if (code =? 0)%Z then
              (Info "Using streaming mode"
               :: SpawnPlayer (Resolved.playCommand opts)
               :: SynthesizeJsonStreaming request
               :: map WriteAudio piped ++ EndPlayer :: epilogue platform outputOpts final,
               Ok tt)
            else
              (Info "Using streaming mode"
               :: SpawnPlayer (Resolved.playCommand opts)
               :: SynthesizeJsonStreaming request
               :: map WriteAudio piped ++ [EndPlayer],
               Err ("Process exited with code " ++ show code))
        end
    end%list.
Proof.
  cbv zeta. unfold synthesizeStreaming. rewrite bind_emit.
  destruct (PlayMode_eqb (Resolved.play opts) off); cbn [negb].
  - rewrite (go_run platform (fun _ => ret tt) (fun _ => [])
               (fun _ => eq_refl)).
    rewrite flat_map_nil.
    destruct (failure _); [reflexivity|].
    rewrite bind_Ok, forOf_writeGeneration, bind_Ok.
    unfold saveLastSynthesis. rewrite !bind_emit. reflexivity.
  - unfold withStdinAudioPlayer.
    destruct (stdinPlayer this (Resolved.playCommand opts)) as [code|e];
      [|reflexivity].
    rewrite bind_lift_Ok, bind_emit.
    rewrite (go_run platform (fun b => emit (WriteAudio b))
               (fun b => [WriteAudio b]) (fun _ => eq_refl)).
    rewrite flat_map_singleton.
    destruct (failure _); [reflexivity|].
    rewrite bind_Ok, bind_emit. unfold awaitExit.
    destruct (code =? 0)%Z.
    + rewrite bind_ret. cbn [ret fst snd app].
      rewrite bind_Ok, forOf_writeGeneration, bind_Ok.
      unfold saveLastSynthesis. rewrite !bind_emit. cbn [fst snd app].
      rewrite <- !app_assoc. reflexivity.
    + reflexivity.
Qed.
End StreamingRun.

(** ** The accumulator *)

Lemma map_has_keys {V} (k : string) (m : JsMap V) :
  map_has k m = true <-> In k (map_keys m).
Proof.
  unfold map_has, map_keys. rewrite existsb_exists, in_map_iff. split.
  - intros (e & He & Hk). exists e. split; [|exact He].
    now apply String.eqb_eq.
  - intros (e & Hk & He). exists e. split; [exact He|].
    now apply String.eqb_eq.
Qed.

Lemma map_keys_push {V} (k : string) (x : V) (m : JsMap (list V)) :
  map_keys (map_push k x m) = map_keys m.
Proof.
  unfold map_keys, map_push. rewrite map_map. apply map_ext.
  intros e. destruct (fst e =? k); reflexivity.
Qed.

Lemma map_push_absent {V} (k : string) (x : V) (m : JsMap (list V)) :
  ~ In k (map_keys m) -> map_push k x m = m.
Proof.
  intros Hk. unfold map_push. rewrite <- (map_id m) at 2.
  apply map_ext_in. intros e He.
  destruct (String.eqb_spec (fst e) k) as [Heq|]; [|reflexivity].
  exfalso. apply Hk. rewrite <- Heq. apply in_map. exact He.
Qed.

Lemma in_map_push {V} (k : string) (x : V) (m : JsMap (list V)) g bufs :
  In (g, bufs) (map_push k x m) ->
  exists bufs0,
    In (g, bufs0) m
    /\ bufs = if g =? k then (bufs0 ++ [x])%list else bufs0.
Proof.
  unfold map_push. rewrite in_map_iff. intros ([g0 bufs0] & Heq & Hin).
  cbn [fst snd] in Heq. exists bufs0.
  destruct (g0 =? k) eqn:Hk; inversion Heq; subst; rewrite ?Hk; auto.
Qed.

Lemma chunksOf_snoc (g : string) (seen : list Snippet) (c : Snippet) :
  chunksOf g (seen ++ [c]) =
  (chunksOf g seen
   ++ (if hasAudio c && (generationId c =? g) then [c] else []))%list.
Proof.
  unfold chunksOf. rewrite !filter_app. cbn [filter].
  destruct (hasAudio c); cbn [filter andb]; [|reflexivity].
  destruct (generationId c =? g); reflexivity.
Qed.

Lemma fileWrites_WriteFile {A} (p : A -> string) (d : A -> Buffer) (l : list A) :
  fileWrites (map (fun e => WriteFile (p e) (d e)) l)
  = map (fun e => (p e, d e)) l.
Proof. induction l as [|e l IH]; cbn; [reflexivity | now rewrite <- IH]. Qed.

Lemma fileWrites_WriteAudio (l : list Buffer) : fileWrites (map WriteAudio l) = [].
Proof. induction l; cbn; auto. Qed.

Lemma savedHistories_WriteAudio (l : list Buffer) :
  savedHistories (map WriteAudio l) = [].
Proof. induction l; cbn; auto. Qed.

Lemma audioWrites_WriteAudio (l : list Buffer) : audioWrites (map WriteAudio l) = l.
Proof. induction l as [|b l IH]; cbn; [reflexivity | now rewrite <- IH at 2]. Qed.

Section Accumulator.
Variable platform : Platform.

Lemma Accumulates_nil : Accumulates platform [] [].
Proof.
  split; [constructor|]. split.
  - intros g. split; [intros []|intros (c & [] & _)].
  - intros g bufs [].
Qed.

Lemma Accumulates_store m seen c :
  Accumulates platform m seen ->
  Accumulates platform (store platform m c) (seen ++ [c]).
Proof.
  intros (Hnodup & Hkeys & Hentries). unfold store.
  destruct (hasAudio c) eqn:Haudio.
  - destruct (map_has (generationId c) m) eqn:Hhas; cbn [negb].
    + (* the generation already has an entry *)
      split; [rewrite map_keys_push; exact Hnodup|]. split.
      * intros g. rewrite map_keys_push, Hkeys. split.
        -- intros (c' & Hin & Ha & Hg). exists c'.
           rewrite in_app_iff. auto.
        -- intros (c' & Hin & Ha & Hg).
           apply in_app_iff in Hin as [Hin|[->|[]]].
           ++ exists c'. auto.
           ++ apply Hkeys. apply map_has_keys. now rewrite <- Hg.
      * intros g bufs Hin.
        apply in_map_push in Hin as (bufs0 & Hin0 & ->).
        rewrite chunksOf_snoc, Haudio, map_app. cbn [andb].
        rewrite (Hentries _ _ Hin0), (String.eqb_sym g).
        destruct (generationId c =? g); cbn [map];
          [reflexivity | now rewrite app_nil_r].
    + (* a new entry, appended after the others *)
      assert (Hfresh : ~ In (generationId c) (map_keys m)).
      { rewrite <- map_has_keys, Hhas. discriminate. }
      unfold map_set. rewrite Hhas.
      unfold map_push. rewrite map_app. fold (map_push (generationId c)
        (audioOf platform c) m).
      rewrite (map_push_absent _ _ _ Hfresh). cbn [map fst snd].
      rewrite String.eqb_refl. cbn [app].
      split; [|split].
      * unfold map_keys. rewrite map_app. cbn [map fst].
        apply NoDup_app; [exact Hnodup | repeat constructor; intros [] |].
        intros g Hg [<-|[]]. contradiction.
      * intros g. unfold map_keys. rewrite map_app, in_app_iff.
        fold (map_keys m). rewrite Hkeys. cbn [map fst In]. split.
        -- intros [(c' & Hin & Ha & Hg)|[<-|[]]].
           ++ exists c'. rewrite in_app_iff. auto.
           ++ exists c. rewrite in_app_iff. cbn. auto.
        -- intros (c' & Hin & Ha & Hg).
           apply in_app_iff in Hin as [Hin|[->|[]]].
           ++ left. exists c'. auto.
           ++ right. left. exact Hg.
      * intros g bufs Hin. rewrite chunksOf_snoc, Haudio, map_app.
        cbn [andb]. apply in_app_iff in Hin as [Hin|[Heq|[]]].
        -- rewrite (Hentries _ _ Hin).
           destruct (String.eqb_spec (generationId c) g) as [Hg|];
             [|now rewrite app_nil_r].
           exfalso. apply Hfresh. rewrite Hg.
           change g with (fst (g, bufs)). apply in_map. exact Hin.
        -- inversion Heq; subst g bufs. rewrite String.eqb_refl.
           replace (chunksOf (generationId c) seen) with (@nil Snippet);
             [reflexivity|].
           unfold chunksOf.
           destruct (filter _ (filter hasAudio seen)) as [|c' rest] eqn:Hf;
             [reflexivity|].
           exfalso. apply Hfresh. apply Hkeys.
           assert (Hin' : In c' (filter (fun c0 => generationId c0 =? generationId c)
                                   (filter hasAudio seen)))
             by (rewrite Hf; left; reflexivity).
           apply filter_In in Hin' as [Hin' Hg].
           apply filter_In in Hin' as [Hin' Ha].
           exists c'. repeat split; auto. now apply String.eqb_eq.
  - (* an empty payload leaves the accumulator as it is *)
    split; [exact Hnodup|]. split.
    + intros g. rewrite Hkeys. split.
      * intros (c' & Hin & Ha & Hg). exists c'. rewrite in_app_iff. auto.
      * intros (c' & Hin & Ha & Hg).
        apply in_app_iff in Hin as [Hin|[->|[]]]; [|congruence].
        exists c'. auto.
    + intros g bufs Hin. rewrite chunksOf_snoc, Haudio. cbn [andb].
      rewrite app_nil_r. apply Hentries. exact Hin.
Qed.

Lemma Accumulates_fold cs : forall st seen,
  Accumulates platform (generationAudio st) seen ->
  Accumulates platform
    (generationAudio (fold_left (stepState platform) cs st)) (seen ++ cs).
Proof.
  induction cs as [|c cs IH]; intros st seen Hacc; cbn [fold_left].
  - rewrite app_nil_r. exact Hacc.
  - replace (seen ++ c :: cs)%list with ((seen ++ [c]) ++ cs)%list
      by (rewrite <- app_assoc; reflexivity).
    apply IH. cbn [stepState generationAudio].
    apply Accumulates_store. exact Hacc.
Qed.

Lemma finalAudio_accumulates cs :
  Accumulates platform (finalAudio platform cs) cs.
Proof.
  unfold finalAudio.
  apply (Accumulates_fold cs initialState []). apply Accumulates_nil.
Qed.

(** The files written for an accumulator that holds the chunks [cs]. *)
Lemma epilogue_fileWrites outputOpts cs :
  fileWrites (epilogue platform outputOpts (finalAudio platform cs)) =
  map (fun g => (planPath platform outputOpts g, fullAudioOf platform g cs))
    (map_keys (finalAudio platform cs)).
Proof.
  destruct (finalAudio_accumulates cs) as (_ & _ & Hentries).
  unfold epilogue. rewrite fileWrites_app. cbn [fileWrites flat_map app].
  rewrite app_nil_r. fold (fileWrites
    (map (fun e => WriteFile (planPath platform outputOpts (fst e))
                     (List.concat (snd e))) (finalAudio platform cs))).
  rewrite fileWrites_WriteFile. unfold map_keys. rewrite map_map.
  apply map_ext_in. intros [g bufs] Hin. cbn [fst snd].
  unfold fullAudioOf. rewrite (Hentries g bufs Hin). reflexivity.
Qed.

Lemma epilogue_savedHistories outputOpts final :
  savedHistories (epilogue platform outputOpts final) =
  [{| ids := map_keys final; timestamp := now platform |}].
Proof.
  unfold epilogue. rewrite savedHistories_app.
  replace (savedHistories (map _ final)) with (@nil GenerationHistory);
    [reflexivity|].
  induction final as [|e m IH]; [reflexivity | exact IH].
Qed.

Lemma epilogue_audioWrites outputOpts final :
  audioWrites (epilogue platform outputOpts final) = [].
Proof.
  unfold epilogue. rewrite audioWrites_app. cbn [audioWrites flat_map app].
  rewrite app_nil_r. induction final as [|e m IH]; [reflexivity | exact IH].
Qed.
End Accumulator.

(** ** Successful streaming runs *)

Lemma PlayMode_eqb_eq (a b : PlayMode) : PlayMode_eqb a b = true <-> a = b.
Proof. destruct a, b; cbn; split; congruence. Qed.

Section StreamingOutcome.
Variable platform : Platform.
Variable this : Tts.
Variable tts : PostedTts.
Variable hume : HumeClient.
Variable opts : Resolved.t.
Variable outputOpts : SynthesisOutputOpts.

Lemma streaming_succeeds :
  failure (synthesizeJsonStreaming hume (set_stripHeaders true tts)) = None ->
  Resolved.play opts = off
  \/ stdinPlayer this (Resolved.playCommand opts) = Ok 0 ->
  snd (synthesizeStreaming platform this tts hume opts outputOpts) = Ok tt.
Proof.
  intros Hfailure Hplayer.
  rewrite synthesizeStreaming_run. cbv zeta. rewrite Hfailure.
  destruct (PlayMode_eqb (Resolved.play opts) off) eqn:Hoff; [reflexivity|].
  destruct Hplayer as [Hplay|Hplayer].
  - apply PlayMode_eqb_eq in Hplay. congruence.
  - rewrite Hplayer. reflexivity.
Qed.

Lemma streaming_success :
  forall cs run,
    cs = chunks (synthesizeJsonStreaming hume (set_stripHeaders true tts)) ->
    run = synthesizeStreaming platform this tts hume opts outputOpts ->
    snd run = Ok tt ->
    failure (synthesizeJsonStreaming hume (set_stripHeaders true tts)) = None
    /\ fileWrites (fst run)
       = map (fun g => (planPath platform outputOpts g,
                        fullAudioOf platform g cs))
           (map_keys (finalAudio platform cs))
    /\ savedHistories (fst run)
       = [{| ids := map_keys (finalAudio platform cs);
             timestamp := now platform |}]
    /\ audioWrites (fst run)
       = if PlayMode_eqb (Resolved.play opts) off then []
         else map (audioOf platform)
                (pipedChunks platform (Resolved.play opts) initialState cs).
Proof.
  intros cs run -> ->.
  rewrite synthesizeStreaming_run. cbv zeta.
  destruct (PlayMode_eqb (Resolved.play opts) off).
  - destruct (failure _); [discriminate|]. intros _.
    split; [reflexivity|]. cbn [fst].
    change (?a :: ?b :: ?t) with ([a; b] ++ t)%list.
    rewrite fileWrites_app, savedHistories_app, audioWrites_app.
    rewrite epilogue_fileWrites, epilogue_savedHistories,
      epilogue_audioWrites.
    repeat split; reflexivity.
  - destruct (stdinPlayer this (Resolved.playCommand opts)) as [code|e];
      [|discriminate].
    destruct (failure _); [discriminate|].
    destruct (code =? 0)%Z; [|discriminate]. intros _.
    split; [reflexivity|]. cbn [fst].
    change (?a :: ?b :: ?c :: ?l ++ ?d :: ?t)%list
      with ([a; b; c] ++ l ++ [d] ++ t)%list.
    rewrite !fileWrites_app, !savedHistories_app, !audioWrites_app.
    rewrite epilogue_fileWrites, epilogue_savedHistories,
      epilogue_audioWrites.
    rewrite fileWrites_WriteAudio, savedHistories_WriteAudio,
      audioWrites_WriteAudio.
    cbn. rewrite app_nil_r. repeat split; reflexivity.
Qed.
End StreamingOutcome.

(** ** Files, playback and history of a streaming synthesis *)

Lemma fold_store (platform : Platform) (cs : list Snippet) (st : LoopState) :
  generationAudio (fold_left (stepState platform) cs st)
  = fold_left (store platform) cs (generationAudio st).
Proof.
  revert st. induction cs as [|c cs IH]; intros st; cbn [fold_left];
    [reflexivity | now rewrite IH].
Qed.

Lemma fold_store_filter (platform : Platform) (cs : list Snippet) m :
  fold_left (store platform) cs m
  = fold_left (store platform) (filter hasAudio cs) m.
Proof.
  revert m. induction cs as [|c cs IH]; intros m; cbn [fold_left filter];
    [reflexivity|].
  destruct (hasAudio c) eqn:Haudio; cbn [fold_left].
  - apply IH.
  - unfold store at 2. rewrite Haudio. apply IH.
Qed.

Lemma isPiped_hasAudio play st c : isPiped play st c = true -> hasAudio c = true.
Proof. unfold isPiped. intros H. now apply andb_true_iff in H. Qed.

Lemma Subsequence_nil_l {A} (l : list A) : Subsequence [] l.
Proof. induction l; constructor; assumption. Qed.

Lemma pipedChunks_subsequence platform play cs : forall st,
  Subsequence (pipedChunks platform play st cs) (filter hasAudio cs).
Proof.
  induction cs as [|c cs IH]; intros st; cbn [pipedChunks filter].
  - constructor.
  - destruct (isPiped play st c) eqn:Hpiped; cbn [app].
    + rewrite (isPiped_hasAudio _ _ _ Hpiped). constructor. apply IH.
    + destruct (hasAudio c); [constructor|]; apply IH.
Qed.

Lemma hasAudio_snippet g payload :
  payload <> "" -> hasAudio (snippet g payload) = true.
Proof.
  intros H. unfold hasAudio, snippet. cbn.
  destruct (String.eqb_spec payload ""); [contradiction | reflexivity].
Qed.

Lemma hasAudio_falsy g (e : maybe string) :
  truthy e = false -> hasAudio {| generationId := g; audio := e |} = false.
Proof.
  unfold hasAudio. destruct e as [| |payload]; try reflexivity.
  cbn. intros H. exact H.
Qed.

Lemma nextFirst_same g c :
  generationId c = g -> nextFirst (Some g) c = Some g.
Proof.
  intros <-. unfold nextFirst. destruct (negb _); reflexivity.
Qed.

Lemma differsFrom_same g : differsFrom g (Some g) = false.
Proof. cbn. now rewrite String.eqb_refl. Qed.

(** C3 (amended): after a successful streaming synthesis the files
    written are one per generation id of the accumulator (the ids with at
    least one non-empty chunk), each holding that generation's non-empty
    chunks concatenated in arrival order; under a directory plan the file
    is [join (dir, prefix + generationId + "." + format)]; two chunks of
    one generation give one file with both chunks. *)
Theorem streaming_one_file_per_generation
  (platform : Platform) (this : Tts) (tts : PostedTts) (hume : HumeClient)
  (opts : Resolved.t) (outputOpts : SynthesisOutputOpts) :
  let cs := chunks (synthesizeJsonStreaming hume (set_stripHeaders true tts)) in
  let run := synthesizeStreaming platform this tts hume opts outputOpts in
  snd run = Ok tt ->
  (exists gens,
     NoDup gens
     /\ (forall g, In g gens <->
                  exists c, In c cs /\ hasAudio c = true /\ generationId c = g)
     /\ fileWrites (fst run)
        = map (fun g =>
                 (planPath platform outputOpts g,
                  List.concat
                    (map (audioOf platform)
                       (filter (fun c => generationId c =? g)
                          (filter hasAudio cs)))))
            gens)
  /\ (forall n dir prefix format g,
        outputOpts = DirPlan n dir prefix format ->
        planPath platform outputOpts g
        = join platform dir (prefix ++ g ++ "." ++ Format_to_string format))
  /\ (forall g chunk0 chunk1,
        cs = [snippet g chunk0; snippet g chunk1] ->
        chunk0 <> "" -> chunk1 <> "" ->
        fileWrites (fst run)
        = [(planPath platform outputOpts g,
            (base64 platform chunk0 ++ base64 platform chunk1)%list)]).
Proof.
  intros cs run Hok.
  destruct (streaming_success platform this tts hume opts outputOpts
              cs run eq_refl eq_refl Hok)
    as (_ & Hfiles & _).
  destruct (finalAudio_accumulates platform cs) as (Hnodup & Hkeys & _).
  split; [|split].
  - exists (map_keys (finalAudio platform cs)). auto.
  - intros n dir prefix format g ->. reflexivity.
  - intros g chunk0 chunk1 Hcs H0 H1. rewrite Hfiles, Hcs.
    unfold finalAudio, fullAudioOf, chunksOf. cbn [fold_left filter].
    rewrite !hasAudio_snippet by assumption.
    unfold stepState, store. cbn [generationAudio initialState].
    rewrite !hasAudio_snippet by assumption.
    cbn [snippet generationId map_has existsb negb map_set app map_push map
         fst snd map_keys orb].
    rewrite !String.eqb_refl.
    cbn [map_has existsb negb map_set app map_push map fst snd map_keys orb
         filter].
    rewrite !String.eqb_refl. cbn. rewrite app_nil_r. reflexivity.
Qed.

(** C3, as stated, fails.  The stream of [gen_1] (audio) and [gen_2] (an
    empty chunk only) ends, the synthesis succeeds, and the one file
    written is the one of [gen_1]: [gen_2] has none.  And when the stream
    of two chunks of [gen_1] ends but the player exits with code 1, no file
    is written at all. *)
Lemma streaming_one_file_per_generation_counterexample :
  (failure
     (synthesizeJsonStreaming
        (streamingService Scenario.silentSecondGeneration)
        (set_stripHeaders true (Scenario.request "Hello")))
   = None
   /\ In "gen_2" (map generationId Scenario.silentSecondGeneration)
   /\ snd (synthesizeStreaming Node.platform
             (installation emptyConfig emptyConfig None None)
             (Scenario.request "Hello")
             (streamingService Scenario.silentSecondGeneration)
             Scenario.defaults Scenario.defaultPlan)
      = Ok tt
   /\ map fst
        (fileWrites
           (fst (synthesizeStreaming Node.platform
                   (installation emptyConfig emptyConfig None None)
                   (Scenario.request "Hello")
                   (streamingService Scenario.silentSecondGeneration)
                   Scenario.defaults Scenario.defaultPlan)))
      = ["tts-audio/tts-gen_1.wav"])
  /\ (failure
        (synthesizeJsonStreaming (streamingService Scenario.twoChunks)
           (set_stripHeaders true (Scenario.request "Hello")))
      = None
      /\ In "gen_1" (map generationId Scenario.twoChunks)
      /\ fileWrites
           (fst (synthesizeStreaming Node.platform Scenario3.brokenPlayer
                   (Scenario.request "Hello")
                   (streamingService Scenario.twoChunks)
                   Scenario.defaults Scenario.defaultPlan))
         = []).
Proof.
  split.
  - repeat split. cbn. auto.
  - repeat split. cbn. auto.
Qed.

(** Chunks "audio0" and "audio1" of [gen_1] give the one file
    [tts-audio/tts-gen_1.wav] holding "audio0audio1". *)
Lemma streaming_one_file_per_generation_witness :
  fileWrites
    (fst (synthesizeStreaming Node.platform
            (installation emptyConfig emptyConfig None None)
            (Scenario.request "Hello") (streamingService Scenario.twoChunks)
            Scenario.defaults Scenario.defaultPlan))
  = [("tts-audio/tts-gen_1.wav",
      list_byte_of_string "audio0audio1")].
Proof.
  destruct (streaming_one_file_per_generation Node.platform
              (installation emptyConfig emptyConfig None None)
              (Scenario.request "Hello") (streamingService Scenario.twoChunks)
              Scenario.defaults Scenario.defaultPlan eq_refl)
    as (_ & _ & Hexample).
  apply (Hexample "gen_1" "YXVkaW8w" "YXVkaW8x" eq_refl); discriminate.
Defined.

(** C7, as stated, fails: [gen_2] appears in a chunk of the stream, the
    synthesis succeeds, and the saved history holds [gen_1] only. *)
Lemma streaming_history_counterexample :
  snd (synthesize Node.platform
         (installation emptyConfig emptyConfig None
            (Some (streamingService Scenario.silentSecondGeneration)))
         (Raw.empty "Hello"))
  = Ok tt
  /\ In "gen_2" (map generationId Scenario.silentSecondGeneration)
  /\ savedHistories
       (fst (synthesize Node.platform
               (installation emptyConfig emptyConfig None
                  (Some (streamingService Scenario.silentSecondGeneration)))
               (Raw.empty "Hello")))
     = [{| ids := ["gen_1"]; timestamp := now Node.platform |}]
  /\ ~ In "gen_2" ["gen_1"].
Proof.
  repeat split.
  - cbn. auto.
  - intros [H|[]]. discriminate H.
Qed.

(** C7 (amended): after a successful streaming synthesis exactly one
    history record is saved; it carries the timestamp and, each once, the
    generation ids that appeared in at least one chunk with a non-empty
    audio payload. *)
Theorem streaming_history
  (platform : Platform) (this : Tts) (tts : PostedTts) (hume : HumeClient)
  (opts : Resolved.t) (outputOpts : SynthesisOutputOpts) :
  let cs := chunks (synthesizeJsonStreaming hume (set_stripHeaders true tts)) in
  let run := synthesizeStreaming platform this tts hume opts outputOpts in
  snd run = Ok tt ->
  exists h,
    savedHistories (fst run) = [h]
    /\ timestamp h = now platform
    /\ NoDup (ids h)
    /\ (forall g, In g (ids h) <->
                 exists c, In c cs /\ hasAudio c = true /\ generationId c = g).
Proof.
  intros cs run Hok.
  destruct (streaming_success platform this tts hume opts outputOpts
              cs run eq_refl eq_refl Hok)
    as (_ & _ & Hhistory & _).
  destruct (finalAudio_accumulates platform cs) as (Hnodup & Hkeys & _).
  eexists. split; [exact Hhistory|]. cbn [ids timestamp]. auto.
Qed.

Lemma streaming_history_witness :
  exists h,
    savedHistories
      (fst (synthesizeStreaming Node.platform
              (installation emptyConfig emptyConfig None None)
              (Scenario.request "Hello")
              (streamingService Scenario.silentSecondGeneration)
              Scenario.defaults Scenario.defaultPlan))
    = [h]
    /\ timestamp h = now Node.platform
    /\ NoDup (ids h)
    /\ (forall g, In g (ids h) <->
                 exists c, In c Scenario.silentSecondGeneration
                           /\ hasAudio c = true /\ generationId c = g).
Proof.
  exact (streaming_history Node.platform
           (installation emptyConfig emptyConfig None None)
           (Scenario.request "Hello")
           (streamingService Scenario.silentSecondGeneration)
           Scenario.defaults Scenario.defaultPlan eq_refl).
Defined.

(** C4: a chunk with an empty audio payload is skipped and the stream goes
    on: the run succeeds, the accumulator is the one of the non-empty chunks
    alone, what is piped to the player are payloads of non-empty chunks in
    stream order, and every file holds non-empty payloads only; for one
    generation with chunks [non-empty, empty, non-empty] the player gets
    exactly the 2 payloads and the file is their concatenation. *)
Theorem empty_chunks_skipped
  (platform : Platform) (this : Tts) (tts : PostedTts) (hume : HumeClient)
  (opts : Resolved.t) (outputOpts : SynthesisOutputOpts) :
  let stream := synthesizeJsonStreaming hume (set_stripHeaders true tts) in
  let cs := chunks stream in
  let run := synthesizeStreaming platform this tts hume opts outputOpts in
  failure stream = None ->
  Resolved.play opts = off
  \/ stdinPlayer this (Resolved.playCommand opts) = Ok 0 ->
  snd run = Ok tt
  /\ finalAudio platform cs = finalAudio platform (filter hasAudio cs)
  /\ (exists played,
        Subsequence played (filter hasAudio cs)
        /\ audioWrites (fst run) = map (audioOf platform) played)
  /\ (forall path data,
        In (path, data) (fileWrites (fst run)) ->
        exists g,
          data = List.concat
                   (map (audioOf platform)
                      (filter (fun c => generationId c =? g)
                         (filter hasAudio cs))))
  /\ (forall g a e b,
        cs = [snippet g a; {| generationId := g; audio := e |}; snippet g b] ->
        a <> "" -> truthy e = false -> b <> "" ->
        (Resolved.play opts <> off ->
         audioWrites (fst run) = [base64 platform a; base64 platform b])
        /\ fileWrites (fst run)
           = [(planPath platform outputOpts g,
               (base64 platform a ++ base64 platform b)%list)]).
Proof.
  intros stream cs run Hfailure Hplayer.
  pose proof (streaming_succeeds platform this tts hume opts outputOpts
                Hfailure Hplayer) as Hok.
  destruct (streaming_success platform this tts hume opts outputOpts
              cs run eq_refl eq_refl Hok)
    as (_ & Hfiles & _ & Haudio).
  split; [exact Hok|]. split; [|split; [|split]].
  - unfold finalAudio. rewrite !fold_store. apply fold_store_filter.
  - destruct (PlayMode_eqb (Resolved.play opts) off).
    + exists []. split; [apply Subsequence_nil_l | exact Haudio].
    + eexists. split; [apply pipedChunks_subsequence | exact Haudio].
  - intros path data Hin. rewrite Hfiles in Hin.
    apply in_map_iff in Hin as (g & Heq & _). exists g.
    inversion Heq. reflexivity.
  - intros g a e b Hcs Ha He Hb. split.
    + intros Hplay. rewrite Haudio.
      destruct (PlayMode_eqb (Resolved.play opts) off) eqn:Hoff;
        [apply PlayMode_eqb_eq in Hoff; contradiction|].
      rewrite Hcs. cbn [pipedChunks].
      unfold isPiped, stepState.
      cbn [firstGenerationId generationAudio initialState].
      rewrite !hasAudio_snippet, hasAudio_falsy by assumption.
      replace (nextFirst None (snippet g a)) with (Some g) by reflexivity.
      rewrite !nextFirst_same by reflexivity.
      cbn [snippet generationId].
      rewrite !differsFrom_same, !andb_false_r. reflexivity.
    + rewrite Hfiles, Hcs.
      unfold finalAudio, fullAudioOf, chunksOf. cbn [fold_left filter].
      rewrite !hasAudio_snippet, hasAudio_falsy by assumption.
      unfold stepState, store. cbn [generationAudio initialState].
      rewrite !hasAudio_snippet, hasAudio_falsy by assumption.
      cbn [snippet generationId map_has existsb negb map_set app map_push map
           fst snd map_keys orb].
      rewrite !String.eqb_refl.
      cbn [map_has existsb negb map_set app map_push map fst snd map_keys orb
           filter].
      rewrite !String.eqb_refl. cbn. rewrite app_nil_r. reflexivity.
Qed.

(** The stream ["audio1", empty, "audio3"] of [gen_1], played: two writes
    to the player, one file holding "audio1audio3". *)
Lemma empty_chunks_skipped_witness :
  audioWrites
    (fst (synthesizeStreaming Node.platform
            (installation emptyConfig emptyConfig None None)
            (Scenario.request "Hello") (streamingService Scenario.emptyBetween)
            Scenario.defaults Scenario.defaultPlan))
  = [list_byte_of_string "audio1"; list_byte_of_string "audio3"]
  /\ fileWrites
       (fst (synthesizeStreaming Node.platform
               (installation emptyConfig emptyConfig None None)
               (Scenario.request "Hello")
               (streamingService Scenario.emptyBetween)
               Scenario.defaults Scenario.defaultPlan))
     = [("tts-audio/tts-gen_1.wav", list_byte_of_string "audio1audio3")].
Proof.
  destruct (empty_chunks_skipped Node.platform
              (installation emptyConfig emptyConfig None None)
              (Scenario.request "Hello")
              (streamingService Scenario.emptyBetween)
              Scenario.defaults Scenario.defaultPlan eq_refl
              (or_intror eq_refl))
    as (_ & _ & _ & _ & Hexample).
  destruct (Hexample "gen_1" "YXVkaW8x" (Val "") "YXVkaW8z" eq_refl)
    as [Hplayed Hfile]; try discriminate; try reflexivity.
  split; [apply Hplayed; discriminate | exact Hfile].
Defined.

(** * Further properties of the synthesis pipeline *)

(** ** Option resolution and the output plan *)

(** The three checks of [resolveOpts], in order. *)
Lemma resolveOpts_cases
  (env : list (string * string)) (globalConfig session : ConfigData)
  (opts : Raw.t) :
  resolveOpts env globalConfig session opts =
  if truthy (Raw.voiceName opts) && truthy (Raw.voiceId opts)
  then Err "Unexpected: cannot specify both --voiceName and --voiceId"
  else if truthy (Raw.outputFilePath opts) && truthy (Raw.numGenerations opts)
  then Err "Unexpected: cannot specify both --outputFilePath and --numGenerations"
  else if truthy (Raw.last opts) && truthy (Raw.contextGenerationId opts)
  then Err "Unexpected: cannot specify both --last and --contextGenerationId"
  else Ok (resolveFields globalConfig session opts).
Proof.
  unfold resolveOpts, mutuallyExclusive.
  destruct (truthy (Raw.voiceName opts) && truthy (Raw.voiceId opts));
    [reflexivity|].
  destruct (truthy (Raw.outputFilePath opts)
            && truthy (Raw.numGenerations opts)); [reflexivity|].
  destruct (truthy (Raw.last opts) && truthy (Raw.contextGenerationId opts));
    reflexivity.
Qed.

(** X1: whether [resolveOpts] fails is decided by the command line alone:
    it succeeds exactly when none of the three exclusive pairs has both its
    options truthy there, so an option inherited from a config never
    conflicts with one given on the command line, and a falsy value ([0],
    the empty string, [false]) does not count as given; on failure the
    message names the options of the first conflicting pair. *)
Theorem resolveOpts_mutual_exclusion
  (env : list (string * string)) (globalConfig session : ConfigData)
  (opts : Raw.t) :
  let voices := truthy (Raw.voiceName opts) && truthy (Raw.voiceId opts) in
  let output :=
    truthy (Raw.outputFilePath opts) && truthy (Raw.numGenerations opts) in
  let continuation :=
    truthy (Raw.last opts) && truthy (Raw.contextGenerationId opts) in
  ((exists r, resolveOpts env globalConfig session opts = Ok r) <->
   voices = false /\ output = false /\ continuation = false)
  /\ (forall env' globalConfig' session',
        (exists r, resolveOpts env globalConfig session opts = Ok r) <->
        (exists r, resolveOpts env' globalConfig' session' opts = Ok r))
  /\ (voices = true ->
      resolveOpts env globalConfig session opts
      = Err "Unexpected: cannot specify both --voiceName and --voiceId")
  /\ (voices = false -> output = true ->
      resolveOpts env globalConfig session opts
      = Err "Unexpected: cannot specify both --outputFilePath and --numGenerations")
  /\ (voices = false -> output = false -> continuation = true ->
      resolveOpts env globalConfig session opts
      = Err "Unexpected: cannot specify both --last and --contextGenerationId").
Proof.
  cbv zeta. split; [|split; [|split; [|split]]].
  - rewrite resolveOpts_cases.
    destruct (truthy (Raw.voiceName opts) && truthy (Raw.voiceId opts)),
      (truthy (Raw.outputFilePath opts) && truthy (Raw.numGenerations opts)),
      (truthy (Raw.last opts) && truthy (Raw.contextGenerationId opts));
      split;
      try (intros [r Hr]; discriminate Hr);
      try (intros (H1 & H2 & H3); discriminate);
      try (intros _; repeat split; reflexivity);
      intros _; eexists; reflexivity.
  - intros env' globalConfig' session'. rewrite !resolveOpts_cases.
    destruct (truthy (Raw.voiceName opts) && truthy (Raw.voiceId opts)),
      (truthy (Raw.outputFilePath opts) && truthy (Raw.numGenerations opts)),
      (truthy (Raw.last opts) && truthy (Raw.contextGenerationId opts));
      split; intros [r Hr]; try discriminate Hr; eexists; reflexivity.
  - intros H. rewrite resolveOpts_cases, H. reflexivity.
  - intros H1 H2. rewrite resolveOpts_cases, H1, H2. reflexivity.
  - intros H1 H2 H3. rewrite resolveOpts_cases, H1, H2, H3. reflexivity.
Qed.

Lemma truthy_maybe_string (x : maybe string) :
  truthy x = true -> exists s, x = Val s /\ s <> "".
Proof.
  destruct x as [| |s]; cbn; try discriminate. intros H. exists s.
  split; [reflexivity|]. intros ->. discriminate H.
Qed.

Lemma od_item_id {T} (dflt : T) (o : maybe T) :
  item (od id dflt o) = match o with Val v => v | _ => dflt end.
Proof. destruct o; reflexivity. Qed.

(** X2: an output file path on the command line conflicts with a
    [numGenerations] above 1 from any layer: the command line check lets a
    session or global [numGenerations] through, and [calculateOutputOpts]
    then rejects the resolved options; with [numGenerations] at most 1 the
    plan is the path plan, whose effective [numGenerations] is 1. *)
Theorem output_path_plan
  (env : list (string * string)) (globalConfig session : ConfigData)
  (opts : Raw.t) (r : Resolved.t) (path : string) :
  resolveOpts env globalConfig session opts = Ok r ->
  Raw.outputFilePath opts = Val path ->
  path <> "" ->
  truthy (Raw.numGenerations opts) = false
  /\ (Resolved.numGenerations r > 1 ->
      calculateOutputOpts r
      = Err "Unexpected: cannot specify both --num-generations and --output-file-path")
  /\ (Resolved.numGenerations r <= 1 ->
      calculateOutputOpts r = Ok (PathPlan path)
      /\ plan_numGenerations (PathPlan path) = 1).
Proof.
  intros Hresolved Hpath Hne.
  pose proof (truthy_string_nonempty _ Hne) as Htruthy.
  split; [|split].
  - rewrite resolveOpts_cases in Hresolved.
    destruct (truthy (Raw.voiceName opts) && truthy (Raw.voiceId opts));
      [discriminate|].
    rewrite Hpath in Hresolved. cbn [truthy Truthy_maybe] in Hresolved.
    rewrite Htruthy in Hresolved. cbn [andb] in Hresolved.
    destruct (truthy (Raw.numGenerations opts)); [discriminate | reflexivity].
  - intros Hmany. apply resolveOpts_Ok in Hresolved. subst r.
    unfold calculateOutputOpts.
    cbn [resolveFields Resolved.outputFilePath Resolved.numGenerations]
      in *.
    rewrite od_item_id, Hpath, Htruthy.
    destruct (Z.gtb_spec
                (item (osgd id Defaults.numGenerations
                         (Raw.numGenerations opts)
                         (ttsKey Cfg.numGenerations session)
                         (ttsKey Cfg.numGenerations globalConfig))) 1);
      [reflexivity | lia].
  - intros Hfew. apply resolveOpts_Ok in Hresolved. subst r.
    unfold calculateOutputOpts.
    cbn [resolveFields Resolved.outputFilePath Resolved.numGenerations]
      in *.
    rewrite od_item_id, Hpath, Htruthy.
    destruct (Z.gtb_spec
                (item (osgd id Defaults.numGenerations
                         (Raw.numGenerations opts)
                         (ttsKey Cfg.numGenerations session)
                         (ttsKey Cfg.numGenerations globalConfig))) 1);
      [lia | split; reflexivity].
Qed.

Lemma output_path_plan_witness :
  calculateOutputOpts
    (resolveFields emptyConfig Scenario2.sessionThreeAndLast
       Scenario2.cliOutputFile)
  = Err "Unexpected: cannot specify both --num-generations and --output-file-path".
Proof.
  destruct (output_path_plan [] emptyConfig Scenario2.sessionThreeAndLast
              Scenario2.cliOutputFile _ "out.wav" eq_refl eq_refl)
    as (_ & Hmany & _).
  - discriminate.
  - apply Hmany. cbn. lia.
Defined.

(** X3: a non-empty [contextGenerationId] given on the command line is the
    context generation id of the request [maybeAddContext] returns,
    whatever the config layers say: [last] or [lastIndex] inherited from a
    session or global config are not looked at, and the history is not
    needed; nothing else of the request is changed. *)
Theorem explicit_context_overrides_last
  (env : list (string * string)) (globalConfig session : ConfigData)
  (opts : Raw.t) (r : Resolved.t) (id : string) :
  resolveOpts env globalConfig session opts = Ok r ->
  Raw.contextGenerationId opts = Val id ->
  id <> "" ->
  forall (history : option GenerationHistory) (tts : PostedTts),
  exists tts',
    maybeAddContext history (Resolved.contextGenerationId r)
      (Resolved.last r) (Resolved.lastIndex r) tts
    = Ok tts'
    /\ context tts' = Some {| context_generationId := Val id |}
    /\ sameButContext tts tts'.
Proof.
  intros Hresolved Hctx Hne history tts.
  apply resolveOpts_Ok in Hresolved. subst r.
  cbn [resolveFields Resolved.contextGenerationId].
  rewrite Hctx. cbn [od withPriority option_map retag withDefault item].
  unfold maybeAddContext. cbn [truthy Truthy_option].
  rewrite (truthy_string_nonempty _ Hne).
  eexists. split; [reflexivity|]. apply set_context_fields.
Qed.

(** The session sets [last] and there is no history: [--continue gen_7]
    still gives the context [gen_7]. *)
Lemma explicit_context_overrides_last_witness :
  Resolved.last
    (resolveFields emptyConfig Scenario2.sessionThreeAndLast
       Scenario2.cliContinue) = true
  /\ exists tts',
       maybeAddContext None
         (Resolved.contextGenerationId
            (resolveFields emptyConfig Scenario2.sessionThreeAndLast
               Scenario2.cliContinue))
         (Resolved.last
            (resolveFields emptyConfig Scenario2.sessionThreeAndLast
               Scenario2.cliContinue))
         (Resolved.lastIndex
            (resolveFields emptyConfig Scenario2.sessionThreeAndLast
               Scenario2.cliContinue))
         (Scenario.request "Hello")
       = Ok tts'
       /\ context tts' = Some {| context_generationId := Val "gen_7" |}.
Proof.
  split; [reflexivity|].
  destruct (explicit_context_overrides_last [] emptyConfig
              Scenario2.sessionThreeAndLast Scenario2.cliContinue _ "gen_7"
              eq_refl eq_refl)
    with (history := @None GenerationHistory)
         (tts := Scenario.request "Hello")
    as (tts' & Hrun & Hcontext & _).
  - discriminate.
  - exists tts'. split; [exact Hrun | exact Hcontext].
Defined.

(** ** The buffered driver *)

Lemma fst_bind {A B} (m : M A) (k : A -> M B) :
  fst (bind m k)
  = (fst m ++ match snd m with Ok a => fst (k a) | Err _ => [] end)%list.
Proof.
  destruct m as [t [a|e]]; cbn [bind fst snd].
  - destruct (k a). reflexivity.
  - now rewrite app_nil_r.
Qed.

Lemma snd_bind {A B} (m : M A) (k : A -> M B) :
  snd (bind m k) = match snd m with Ok a => snd (k a) | Err e => Err e end.
Proof.
  destruct m as [t [a|e]]; cbn [bind fst snd]; [|reflexivity].
  destruct (k a). reflexivity.
Qed.

Lemma playedFiles_app (t t' : list Event) :
  playedFiles (t ++ t') = (playedFiles t ++ playedFiles t')%list.
Proof. apply flat_map_app. Qed.

Section Buffered.
Variable platform : Platform.
Variable this : Tts.

Lemma forOf_generationInfo (generations : list ReturnGeneration) :
  forOf (fun (_ : unit) generation =>
           emit (Info ("Generation ID: " ++ gen_generationId generation)))
    tt generations
  = (map (fun g => Info ("Generation ID: " ++ gen_generationId g))
       generations, Ok tt).
Proof.
  induction generations as [|g gens IH]; cbn [forOf map]; [reflexivity|].
  rewrite bind_emit, IH. reflexivity.
Qed.

Lemma writeFiles_dir_from n dir prefix format generations :
  forall paths,
    forOf
      (fun paths generation =>
         ensureDirAndWriteFile
           (generationPath platform dir prefix (gen_generationId generation)
              format)
           (base64 platform (gen_audio generation)) ;;;
         ret (paths
              ++ [ {| wf_generationId := gen_generationId generation;
                      wf_path :=
                        generationPath platform dir prefix
                          (gen_generationId generation) format |} ])%list)
      paths generations
    = (map (fun g => WriteFile
                       (planPath platform (DirPlan n dir prefix format)
                          (gen_generationId g))
                       (base64 platform (gen_audio g))) generations,
       Ok (paths
           ++ map (fun g =>
                     {| wf_generationId := gen_generationId g;
                        wf_path :=
                          planPath platform (DirPlan n dir prefix format)
                            (gen_generationId g) |}) generations)%list).
Proof.
  induction generations as [|g gens IH]; intros paths; cbn [forOf map].
  - now rewrite app_nil_r.
  - unfold ensureDirAndWriteFile at 1. rewrite bind_emit.
    cbn [ret fst snd]. rewrite bind_Ok, IH. cbn [fst snd app planPath].
    rewrite <- app_assoc. reflexivity.
Qed.

Lemma writeFiles_run (generations : list ReturnGeneration) :
  (forall n dir prefix format,
     writeFiles platform (DirPlan n dir prefix format) generations
     = (map (fun g =>
               WriteFile
                 (join platform dir
                    (prefix ++ gen_generationId g ++ "."
                     ++ Format_to_string format))
                 (base64 platform (gen_audio g))) generations,
        Ok (map (fun g =>
                   {| wf_generationId := gen_generationId g;
                      wf_path :=
                        join platform dir
                          (prefix ++ gen_generationId g ++ "."
                           ++ Format_to_string format) |}) generations)))
  /\ (forall path,
        writeFiles platform (PathPlan path) generations
        = match generations with
          | generation :: _ =>
              ([WriteFile path (base64 platform (gen_audio generation))],
               Ok [ {| wf_generationId := gen_generationId generation;
                       wf_path := path |} ])
          | [] =>
              ([], Err (undefinedProperty platform "generation" "audio"))
          end).
Proof.
  split.
  - intros n dir prefix format. unfold writeFiles.
    rewrite (writeFiles_dir_from n). reflexivity.
  - intros path. unfold writeFiles. destruct generations; reflexivity.
Qed.

(** X4: under a directory plan [writeFiles] writes one file per returned
    generation, in the order returned, named by [dir], [prefix], the
    generation id and the format, and reports the same files; under a
    path plan it writes the first generation only, whatever follows it,
    and fails without writing on an empty result. *)
Theorem buffered_files (generations : list ReturnGeneration) :
  (forall n dir prefix format,
     let run :=
       writeFiles platform (DirPlan n dir prefix format) generations in
     fileWrites (fst run)
     = map (fun g =>
              (join platform dir
                 (prefix ++ gen_generationId g ++ "."
                  ++ Format_to_string format),
               base64 platform (gen_audio g))) generations
     /\ snd run
        = Ok (map (fun g =>
                     {| wf_generationId := gen_generationId g;
                        wf_path :=
                          join platform dir
                            (prefix ++ gen_generationId g ++ "."
                             ++ Format_to_string format) |}) generations))
  /\ (forall path generation rest,
        generations = generation :: rest ->
        let run := writeFiles platform (PathPlan path) generations in
        fileWrites (fst run)
        = [(path, base64 platform (gen_audio generation))]
        /\ snd run
           = Ok [ {| wf_generationId := gen_generationId generation;
                     wf_path := path |} ])
  /\ (forall path,
        generations = [] ->
        let run := writeFiles platform (PathPlan path) generations in
        fileWrites (fst run) = [] /\ exists e, snd run = Err e).
Proof.
  destruct (writeFiles_run generations) as [Hdir Hpath].
  split; [|split].
  - intros n dir prefix format. cbv zeta. rewrite Hdir. cbn [fst snd].
    split; [|reflexivity].
    apply (fileWrites_WriteFile
             (fun g => join platform dir
                         (prefix ++ gen_generationId g ++ "."
                          ++ Format_to_string format))
             (fun g => base64 platform (gen_audio g))).
  - intros path generation rest ->. cbv zeta. rewrite Hpath.
    split; reflexivity.
  - intros path ->. cbv zeta. rewrite Hpath.
    split; [reflexivity | eexists; reflexivity].
Qed.

Lemma playAudioFile_run path customCommand :
  playAudioFile this path customCommand
  = match filePlayer this path customCommand with
    | Err e => ([], Err e)
    | Ok code =>
        ([PlayAudioFile path customCommand],
         if (code =? 0)%Z then Ok tt
         else Err ("Process exited with code " ++ show code))
    end.
Proof.
  unfold playAudioFile. destruct (filePlayer this path customCommand) as [code|e];
    [|reflexivity].
  rewrite bind_lift_Ok, bind_emit. unfold awaitExit.
  destruct (code =? 0)%Z; reflexivity.
Qed.

Lemma playAudios_all_ok (files : list WrittenFile) playCommand :
  (forall file, In file files ->
                filePlayer this (wf_path file) playCommand = Ok 0) ->
  playAudios platform this all files playCommand
  = (map (fun file => PlayAudioFile (wf_path file) playCommand) files, Ok tt).
Proof.
  unfold playAudios. induction files as [|file files IH]; intros Hok;
    cbn [forOf map]; [reflexivity|].
  rewrite playAudioFile_run, (Hok file (or_introl eq_refl)). cbn [Z.eqb].
  rewrite bind_Ok, IH by (intros f Hf; apply Hok; right; exact Hf).
  reflexivity.
Qed.

(** X5: [playAudios] plays nothing when [play] is [off]; with [first] it
    plays the first file and no other; with [all] and players that exit
    with 0 it plays every file once, in order; and with [all] it stops at
    the first file whose player exits with another code, the files after
    it not being played. *)
Theorem playAudios_modes (files : list WrittenFile) (playCommand : option string) :
  playAudios platform this off files playCommand = ([], Ok tt)
  /\ (forall file rest,
        files = file :: rest ->
        playAudios platform this first files playCommand
        = playAudioFile this (wf_path file) playCommand)
  /\ ((forall file, In file files ->
                    filePlayer this (wf_path file) playCommand = Ok 0) ->
      playAudios platform this all files playCommand
      = (map (fun file => PlayAudioFile (wf_path file) playCommand) files,
         Ok tt))
  /\ (forall played failing rest code,
        files = (played ++ failing :: rest)%list ->
        (forall file, In file played ->
                      filePlayer this (wf_path file) playCommand = Ok 0) ->
        filePlayer this (wf_path failing) playCommand = Ok code ->
        code <> 0 ->
        playAudios platform this all files playCommand
        = (map (fun file => PlayAudioFile (wf_path file) playCommand)
             (played ++ [failing]),
           Err ("Process exited with code " ++ show code))).
Proof.
  split; [reflexivity|]. split; [|split].
  - intros file rest ->. reflexivity.
  - apply playAudios_all_ok.
  - intros played failing rest code -> Hok Hfail Hcode.
    unfold playAudios.
    induction played as [|file played IH]; cbn [app forOf map].
    + rewrite playAudioFile_run, Hfail.
      destruct (Z.eqb_spec code 0); [contradiction | reflexivity].
    + rewrite playAudioFile_run, (Hok file (or_introl eq_refl)).
      cbn [Z.eqb]. rewrite bind_Ok, IH
        by (intros f Hf; apply Hok; right; exact Hf).
      reflexivity.
Qed.
End Buffered.

Lemma fileWrites_Info {A} (f : A -> string) (l : list A) :
  fileWrites (map (fun x => Info (f x)) l) = [].
Proof. induction l; cbn; auto. Qed.

Lemma savedHistories_Info {A} (f : A -> string) (l : list A) :
  savedHistories (map (fun x => Info (f x)) l) = [].
Proof. induction l; cbn; auto. Qed.

Lemma savedHistories_WriteFile {A} (p : A -> string) (d : A -> Buffer)
  (l : list A) :
  savedHistories (map (fun x => WriteFile (p x) (d x)) l) = [].
Proof. induction l; cbn; auto. Qed.

Lemma playedFiles_PlayAudioFile {A} (p : A -> string) (c : option string)
  (l : list A) :
  playedFiles (map (fun x => PlayAudioFile (p x) c) l) = map p l.
Proof. induction l as [|x l IH]; cbn; [reflexivity | now rewrite <- IH]. Qed.

Lemma savedHistories_cons (e : Event) (t : list Event) :
  savedHistories (e :: t)
  = (match e with SaveLastSynthesis h => [h] | _ => [] end
     ++ savedHistories t)%list.
Proof. reflexivity. Qed.

Lemma fileWrites_cons (e : Event) (t : list Event) :
  fileWrites (e :: t)
  = (match e with WriteFile p d => [(p, d)] | _ => [] end
     ++ fileWrites t)%list.
Proof. reflexivity. Qed.

Section BufferedRun.
Variable platform : Platform.
Variable this : Tts.
Variable tts : PostedTts.
Variable hume : HumeClient.
Variable opts : Resolved.t.

Lemma playAudios_no_effects play files playCommand :
  fileWrites (fst (playAudios platform this play files playCommand)) = []
  /\ savedHistories (fst (playAudios platform this play files playCommand)) = [].
Proof.
  assert (Hone : forall path,
             fileWrites (fst (playAudioFile this path playCommand)) = []
             /\ savedHistories (fst (playAudioFile this path playCommand)) = []).
  { intros path. rewrite playAudioFile_run.
    destruct (filePlayer this path playCommand); split; reflexivity. }
  destruct play; cbn [playAudios].
  - induction files as [|file files IH]; cbn [forOf]; [split; reflexivity|].
    rewrite fst_bind, fileWrites_app, savedHistories_app.
    destruct (Hone (wf_path file)) as [-> ->].
    destruct (snd (playAudioFile this (wf_path file) playCommand)) as [[]|];
      [exact IH | split; reflexivity].
  - destruct files; [split; reflexivity | apply Hone].
  - split; reflexivity.
Qed.

Lemma synthesizeBuffered_run n dir prefix format generations :
  synthesizeJson hume tts = Ok generations ->
  let plan := DirPlan n dir prefix format in
  let written :=
    map (fun g => {| wf_generationId := gen_generationId g;
                     wf_path := planPath platform plan (gen_generationId g) |})
      generations in
  let playback :=
    playAudios platform this (Resolved.play opts) written (Resolved.playCommand opts) in
  synthesizeBuffered platform this tts hume opts plan
  = ((SynthesizeJson tts
      :: map (fun g => Info ("Generation ID: " ++ gen_generationId g))
           generations)
     ++ SaveLastSynthesis {| ids := map gen_generationId generations;
                             timestamp := now platform |}
        :: map (fun g => WriteFile (planPath platform plan (gen_generationId g))
                           (base64 platform (gen_audio g))) generations
     ++ Info (wroteMessage written) :: JsonBuffered generations written
        :: fst playback,
     snd playback)%list.
Proof.
  intros Hremote. cbv zeta. unfold synthesizeBuffered.
  rewrite bind_emit, Hremote, bind_lift_Ok, forOf_generationInfo, bind_Ok.
  unfold saveLastSynthesis. rewrite bind_emit.
  destruct (writeFiles_run platform generations) as [Hdir _].
  rewrite (Hdir n dir prefix format), bind_Ok, !bind_emit.
  cbn [fst snd app planPath generationPath].
  destruct (playAudios _ _ _ _ _). cbn [fst snd].
  reflexivity.
Qed.

(** X6: when the buffered call to the service fails, the error is the
    result of the synthesis and nothing else has happened: no history is
    saved, no file is written, nothing is played. *)
Theorem buffered_remote_failure (outputOpts : SynthesisOutputOpts) (e : string) :
  synthesizeJson hume tts = Err e ->
  synthesizeBuffered platform this tts hume opts outputOpts
  = ([SynthesizeJson tts], Err e).
Proof.
  intros Hremote. unfold synthesizeBuffered.
  rewrite bind_emit, Hremote. reflexivity.
Qed.

(** X7: once the buffered call has returned its generations, under a
    directory plan, the history holds their ids in the order returned and
    is saved before the first file is written, and one file per generation
    is written, whatever the playback that follows does; the result of the
    synthesis is the result of the playback. *)
Theorem buffered_effects n dir prefix format generations :
  synthesizeJson hume tts = Ok generations ->
  let run :=
    synthesizeBuffered platform this tts hume opts
      (DirPlan n dir prefix format) in
  let history :=
    {| ids := map gen_generationId generations; timestamp := now platform |} in
  let written :=
    map (fun g =>
           {| wf_generationId := gen_generationId g;
              wf_path :=
                join platform dir
                  (prefix ++ gen_generationId g ++ "."
                   ++ Format_to_string format) |}) generations in
  savedHistories (fst run) = [history]
  /\ fileWrites (fst run)
     = map (fun g =>
              (join platform dir
                 (prefix ++ gen_generationId g ++ "."
                  ++ Format_to_string format),
               base64 platform (gen_audio g))) generations
  /\ (exists before after,
        fst run = (before ++ SaveLastSynthesis history :: after)%list
        /\ fileWrites before = [])
  /\ snd run
     = snd (playAudios platform this (Resolved.play opts) written
              (Resolved.playCommand opts)).
Proof.
  intros Hremote. cbv zeta.
  rewrite (synthesizeBuffered_run n dir prefix format generations Hremote).
  cbv zeta. cbn [fst snd planPath generationPath].
  match goal with
  | |- context [playAudios platform this ?p ?w ?c] =>
      destruct (playAudios_no_effects p w c) as [Hfiles Hsaved]
  end.
  set (playback := fst (playAudios _ _ _ _ _)) in *.
  split; [|split; [|split]].
  - rewrite savedHistories_app, !savedHistories_cons, savedHistories_Info,
      savedHistories_app, savedHistories_WriteFile, !savedHistories_cons,
      Hsaved.
    reflexivity.
  - rewrite fileWrites_app, !fileWrites_cons, fileWrites_Info,
      fileWrites_app, fileWrites_WriteFile, !fileWrites_cons, Hfiles.
    cbn [app]. rewrite app_nil_r. reflexivity.
  - eexists. eexists. split; [reflexivity|].
    rewrite fileWrites_cons. apply fileWrites_Info.
  - reflexivity.
Qed.
End BufferedRun.

(** ** The streaming driver: failures, playback modes, order *)

Lemma fileWrites_epilogue_free (l : list Buffer) (t : list Event) :
  fileWrites t = [] -> fileWrites (map WriteAudio l ++ t) = [].
Proof. intros H. now rewrite fileWrites_app, fileWrites_WriteAudio, H. Qed.

Section StreamingFailures.
Variable platform : Platform.
Variable this : Tts.
Variable tts : PostedTts.
Variable hume : HumeClient.
Variable opts : Resolved.t.
Variable outputOpts : SynthesisOutputOpts.

End StreamingFailures.

Lemma pipedChunks_all platform cs : forall st,
  pipedChunks platform all st cs = filter hasAudio cs.
Proof.
  induction cs as [|c cs IH]; intros st; cbn [pipedChunks filter];
    [reflexivity|].
  unfold isPiped. cbn [PlayMode_eqb andb negb]. rewrite andb_true_r, IH.
  destruct (hasAudio c); reflexivity.
Qed.

Lemma pipedChunks_first platform cs : forall st f,
  firstGenerationId st = Some f ->
  f <> "" ->
  pipedChunks platform first st cs
  = filter (fun c => hasAudio c && (generationId c =? f)) cs.
Proof.
  induction cs as [|c cs IH]; intros st f Hfirst Hf; cbn [pipedChunks filter];
    [reflexivity|].
  assert (Hnext : nextFirst (firstGenerationId st) c = Some f).
  { rewrite Hfirst. unfold nextFirst. cbn [truthy Truthy_option].
    now rewrite (truthy_string_nonempty _ Hf). }
  unfold isPiped. rewrite Hnext. cbn [PlayMode_eqb andb differsFrom].
  rewrite negb_involutive.
  rewrite (IH (stepState platform st c) f); [|exact Hnext|exact Hf].
  destruct (hasAudio c && (generationId c =? f)); reflexivity.
Qed.

(** X11: what a successful streaming synthesis pipes to the player:
    nothing when [play] is [off]; every chunk with audio, in stream order,
    when it is [all]; and, when it is [first], the chunks with audio of the
    generation the first chunk of the stream belongs to (a first chunk
    without audio included), when that generation id is not empty. *)
Theorem streaming_playback_modes
  (platform : Platform) (this : Tts) (tts : PostedTts) (hume : HumeClient)
  (opts : Resolved.t) (outputOpts : SynthesisOutputOpts) :
  let cs := chunks (synthesizeJsonStreaming hume (set_stripHeaders true tts)) in
  let run := synthesizeStreaming platform this tts hume opts outputOpts in
  snd run = Ok tt ->
  (Resolved.play opts = off -> audioWrites (fst run) = [])
  /\ (Resolved.play opts = all ->
      audioWrites (fst run) = map (audioOf platform) (filter hasAudio cs))
  /\ (Resolved.play opts = first ->
      forall c0 rest,
        cs = c0 :: rest ->
        generationId c0 <> "" ->
        audioWrites (fst run)
        = map (audioOf platform)
            (filter (fun c => hasAudio c
                              && (generationId c =? generationId c0)) cs)).
Proof.
  intros cs run Hok.
  destruct (streaming_success platform this tts hume opts outputOpts
              cs run eq_refl eq_refl Hok) as (_ & _ & _ & Haudio).
  rewrite Haudio. split; [|split].
  - intros ->. reflexivity.
  - intros ->. cbn [PlayMode_eqb]. now rewrite pipedChunks_all.
  - intros -> c0 rest Hcs Hne. cbn [PlayMode_eqb]. rewrite Hcs.
    cbn [pipedChunks filter]. unfold isPiped.
    cbn [initialState firstGenerationId nextFirst truthy Truthy_option negb
         PlayMode_eqb andb differsFrom].
    rewrite String.eqb_refl. cbn [negb andb]. rewrite !andb_true_r.
    rewrite (pipedChunks_first platform rest _ (generationId c0));
      [|reflexivity|exact Hne].
    destruct (hasAudio c0); reflexivity.
Qed.

Lemma map_has_existsb {V} (k : string) (m : JsMap V) :
  map_has k m = existsb (fun y => y =? k) (map_keys m).
Proof.
  unfold map_has, map_keys. induction m as [|e m IH]; cbn; [reflexivity|].
  now rewrite IH.
Qed.

Lemma map_keys_store platform m c :
  map_keys (store platform m c)
  = if hasAudio c then addOnce (map_keys m) (generationId c) else map_keys m.
Proof.
  unfold store, addOnce. destruct (hasAudio c); [|reflexivity].
  rewrite map_keys_push, <- map_has_existsb.
  destruct (map_has (generationId c) m) eqn:Hhas; cbn [negb]; [reflexivity|].
  unfold map_set. rewrite Hhas. unfold map_keys. now rewrite map_app.
Qed.

Lemma map_keys_fold_store platform cs : forall m,
  map_keys (fold_left (store platform) cs m)
  = fold_left addOnce (map generationId (filter hasAudio cs)) (map_keys m).
Proof.
  induction cs as [|c cs IH]; intros m; cbn [fold_left filter map];
    [reflexivity|].
  rewrite IH, map_keys_store.
  destruct (hasAudio c); reflexivity.
Qed.

(** X12: the history saved by a successful streaming synthesis lists the
    generation ids in the order in which each first delivered audio, and the
    files are written in that same order, one per id: position [k] of the
    history, which [--last-index k] selects, is the [k]-th generation to
    have produced sound. *)
Theorem streaming_history_order
  (platform : Platform) (this : Tts) (tts : PostedTts) (hume : HumeClient)
  (opts : Resolved.t) (outputOpts : SynthesisOutputOpts) :
  let cs := chunks (synthesizeJsonStreaming hume (set_stripHeaders true tts)) in
  let run := synthesizeStreaming platform this tts hume opts outputOpts in
  let order := firstSeen (map generationId (filter hasAudio cs)) in
  snd run = Ok tt ->
  savedHistories (fst run)
  = [{| ids := order; timestamp := now platform |}]
  /\ map fst (fileWrites (fst run)) = map (planPath platform outputOpts) order.
Proof.
  intros cs run order Hok.
  destruct (streaming_success platform this tts hume opts outputOpts
              cs run eq_refl eq_refl Hok) as (_ & Hfiles & Hhistory & _).
  assert (Hkeys : map_keys (finalAudio platform cs) = order).
  { unfold finalAudio. rewrite fold_store. apply map_keys_fold_store. }
  rewrite Hhistory, Hfiles, Hkeys, map_map. cbn [fst].
  split; reflexivity.
Qed.

(** ** The whole synthesis *)

Lemma remoteCalls_cons (e : Event) (t : list Event) :
  remoteCalls (e :: t)
  = (match e with
     | SynthesizeJsonStreaming r => [r]
     | SynthesizeJson r => [r]
     | _ => []
     end ++ remoteCalls t)%list.
Proof. reflexivity. Qed.

Lemma remoteCalls_quiet (t : list Event) :
  Forall (fun e => isRemoteCall e = false) t -> remoteCalls t = [].
Proof.
  induction 1 as [|e t He _ IH]; [reflexivity|].
  rewrite remoteCalls_cons, IH. destruct e; try reflexivity; discriminate.
Qed.

Lemma Forall_bind {A B} (P : Event -> Prop) (m : M A) (k : A -> M B) :
  Forall P (fst m) ->
  (forall a, snd m = Ok a -> Forall P (fst (k a))) ->
  Forall P (fst (bind m k)).
Proof.
  intros Hm Hk. rewrite fst_bind. apply Forall_app. split; [exact Hm|].
  destruct (snd m) as [a|e]; [apply Hk; reflexivity | constructor].
Qed.

Lemma Forall_forOf {A S} (P : Event -> Prop) (body : S -> A -> M S) xs :
  (forall st x, Forall P (fst (body st x))) ->
  forall st, Forall P (fst (forOf body st xs)).
Proof.
  intros Hbody. induction xs as [|x xs IH]; intros st; cbn [forOf].
  - constructor.
  - apply Forall_bind; [apply Hbody | intros st' _; apply IH].
Qed.

Section WholeSynthesis.
Variable platform : Platform.
Variable this : Tts.

Lemma playAudioFile_no_remote path customCommand :
  Forall (fun e => isRemoteCall e = false)
    (fst (playAudioFile this path customCommand)).
Proof.
  rewrite playAudioFile_run.
  destruct (filePlayer this path customCommand); repeat constructor.
Qed.

Lemma synthesizeBuffered_remoteCalls tts hume opts outputOpts :
  remoteCalls (fst (synthesizeBuffered platform this tts hume opts outputOpts))
  = [tts].
Proof.
  unfold synthesizeBuffered. rewrite bind_emit. cbn [fst].
  rewrite remoteCalls_cons. cbn [app]. f_equal.
  apply remoteCalls_quiet.
  apply Forall_bind; [constructor|]. intros generations _.
  apply Forall_bind.
  { apply Forall_forOf. intros st x. repeat constructor. }
  intros _ _. apply Forall_bind; [repeat constructor|]. intros _ _.
  apply Forall_bind.
  { destruct (writeFiles_run platform generations) as [Hdir Hpath].
    destruct outputOpts as [path|n dir prefix format].
    - rewrite Hpath. destruct generations; repeat constructor.
    - rewrite Hdir. cbn [fst]. apply Forall_map, Forall_forall.
      intros g _. reflexivity. }
  intros written _. apply Forall_bind; [repeat constructor|]. intros _ _.
  apply Forall_bind; [repeat constructor|]. intros _ _.
  destruct (Resolved.play opts); cbn [playAudios].
  - apply Forall_forOf. intros st x. apply playAudioFile_no_remote.
  - destruct written; [constructor | apply playAudioFile_no_remote].
  - constructor.
Qed.

Lemma remoteCalls_WriteAudio (l : list Buffer) :
  remoteCalls (map WriteAudio l) = [].
Proof. induction l; cbn; auto. Qed.

Lemma remoteCalls_epilogue outputOpts final :
  remoteCalls (epilogue platform outputOpts final) = [].
Proof.
  unfold epilogue. rewrite remoteCalls_app. cbn [remoteCalls flat_map app].
  rewrite app_nil_r. induction final as [|e m IH]; [reflexivity | exact IH].
Qed.

Lemma synthesizeStreaming_remoteCalls tts hume opts outputOpts :
  remoteCalls (fst (synthesizeStreaming platform this tts hume opts outputOpts))
  = [] \/
  remoteCalls (fst (synthesizeStreaming platform this tts hume opts outputOpts))
  = [set_stripHeaders true tts].
Proof.
  rewrite synthesizeStreaming_run. cbv zeta.
  destruct (PlayMode_eqb (Resolved.play opts) off).
  - right. destruct (failure _); cbn [fst]; [reflexivity|].
    rewrite !remoteCalls_cons, remoteCalls_epilogue. reflexivity.
  - destruct (stdinPlayer this (Resolved.playCommand opts)) as [code|e];
      [right | left; reflexivity].
    destruct (failure _); [|destruct (code =? 0)%Z]; cbn [fst];
      rewrite !remoteCalls_cons, ?remoteCalls_app, ?remoteCalls_cons,
        ?remoteCalls_epilogue, remoteCalls_WriteAudio; reflexivity.
Qed.

(** [synthesize] once the options are resolved, with its first events
    spelled out. *)
Lemma synthesize_prelude rawOpts opts :
  resolveOpts (env (getSettings this rawOpts))
    (globalConfig (getSettings this rawOpts))
    (session (getSettings this rawOpts)) rawOpts = Ok opts ->
  synthesize platform this rawOpts =
  match calculateOutputOpts opts with
  | Err e => ([], Err e)
  | Ok outputOpts =>
      match maybeAddContext (getLastSynthesis this)
              (Resolved.contextGenerationId opts) (Resolved.last opts)
              (Resolved.lastIndex opts)
              (requestOf platform this opts outputOpts) with
      | Err e => (preludeOf opts, Err e)
      | Ok tts =>
          match validateInstantMode opts outputOpts
                  (utteranceOf platform this opts) tts with
          | Err e => (preludeOf opts, Err e)
          | Ok tts =>
              match hume (getSettings this rawOpts) with
              | None => (preludeOf opts, Err ApiKeyNotSetError)
              | Some hume =>
                  bind (preludeOf opts, Ok tt)
                    (fun _ =>
                       if Resolved.streaming opts
                       then synthesizeStreaming platform this tts hume
                              opts outputOpts
                       else synthesizeBuffered platform this tts hume
                              opts outputOpts)
              end
          end
      end
  end.
Proof.
  intros resolved. unfold synthesize. rewrite resolved, bind_lift_Ok.
  destruct (calculateOutputOpts opts) as [outputOpts|e]; [|reflexivity].
  rewrite bind_lift_Ok.
  unfold preludeOf, requestOf, utteranceOf, textOf, readStdin, emit, ret,
    lift, throw.
  destruct (Resolved.presetVoice opts), (Resolved.text opts =? "-");
    repeat (rewrite bind_Ok; cbn [fst snd app]);
    (destruct (maybeAddContext _ _ _ _ _) as [tts|e];
     [|rewrite ?bind_Err; reflexivity]);
    repeat (rewrite bind_Ok; cbn [fst snd app]);
    (destruct (validateInstantMode _ _ _ _) as [tts'|e];
     [|rewrite ?bind_Err; reflexivity]);
    repeat (rewrite bind_Ok; cbn [fst snd app]);
    (destruct (hume (getSettings this rawOpts)); [|reflexivity]);
    destruct (if Resolved.streaming opts then _ else _); reflexivity.
Qed.

Lemma preludeOf_quiet opts : Forall (fun e => isQuiet e = true) (preludeOf opts).
Proof.
  unfold preludeOf.
  destruct (Resolved.presetVoice opts), (Resolved.text opts =? "-");
    repeat constructor.
Qed.

Lemma preludeOf_remoteCalls opts : remoteCalls (preludeOf opts) = [].
Proof.
  unfold preludeOf.
  destruct (Resolved.presetVoice opts), (Resolved.text opts =? "-");
    reflexivity.
Qed.
End WholeSynthesis.

Lemma maybeAddContext_fields history contextGenerationId last lastIndex tts tts' :
  maybeAddContext history contextGenerationId last lastIndex tts = Ok tts' ->
  utterances tts' = utterances tts
  /\ numGenerations tts' = numGenerations tts
  /\ format tts' = format tts
  /\ instantMode tts' = instantMode tts
  /\ stripHeaders tts' = stripHeaders tts.
Proof.
  unfold maybeAddContext.
  destruct (if truthy contextGenerationId then contextGenerationId else None).
  - intros H. inversion H. repeat split.
  - destruct (negb last); [intros H; inversion H; repeat split|].
    destruct history as [h|]; [|discriminate].
    cbv zeta. destruct (_ && _); [discriminate|].
    destruct (match lastIndex with Some _ => _ | None => _ end);
      [discriminate|].
    intros H. inversion H. repeat split.
Qed.

Lemma validateInstantMode_Ok opts outputOpts utterance tts tts' :
  validateInstantMode opts outputOpts utterance tts = Ok tts' ->
  tts' = if Resolved.instantMode opts then set_instantMode true tts else tts.
Proof.
  unfold validateInstantMode. destruct (Resolved.instantMode opts);
    [|congruence].
  destruct (negb (Resolved.streaming opts)); [discriminate|].
  destruct (negb _); [discriminate|].
  destruct (_ && _); [discriminate | congruence].
Qed.

(** X13: [synthesize] sends at most one request to the service, and a
    request it sends is the one built from the resolved options: the single
    utterance (its text read from standard input when the text is "-"), the
    effective [numGenerations] of the output plan, the resolved format, the
    context found by the continuation resolver, [instantMode] set exactly
    when it is resolved true, and [stripHeaders] set exactly on the
    streaming call. *)
Theorem synthesize_request
  (platform : Platform) (this : Tts) (rawOpts : Raw.t) (opts : Resolved.t) :
  resolveOpts (env (getSettings this rawOpts))
    (globalConfig (getSettings this rawOpts))
    (session (getSettings this rawOpts)) rawOpts = Ok opts ->
  let calls := remoteCalls (fst (synthesize platform this rawOpts)) in
  (length calls <= 1)%nat
  /\ forall r, In r calls ->
       exists outputOpts tts,
         calculateOutputOpts opts = Ok outputOpts
         /\ maybeAddContext (getLastSynthesis this)
              (Resolved.contextGenerationId opts) (Resolved.last opts)
              (Resolved.lastIndex opts)
              (requestOf platform this opts outputOpts) = Ok tts
         /\ map Utterance.text (utterances r)
            = [if Resolved.text opts =? "-"
               then trim platform (getStdin this)
               else Resolved.text opts]
         /\ utterances r = [utteranceOf platform this opts]
         /\ numGenerations r = plan_numGenerations outputOpts
         /\ format r = Resolved.format opts
         /\ context r = context tts
         /\ instantMode r
            = (if Resolved.instantMode opts then Some true else None)
         /\ stripHeaders r
            = (if Resolved.streaming opts then Some true else None).
Proof.
  intros Hresolved calls. subst calls.
  rewrite (synthesize_prelude platform this rawOpts opts Hresolved).
  destruct (calculateOutputOpts opts) as [outputOpts|e];
    [|split; [cbn; lia | intros r []]].
  destruct (maybeAddContext _ _ _ _ _) as [tts|e] eqn:Hcontext;
    [|cbn [fst]; rewrite preludeOf_remoteCalls;
      split; [cbn; lia | intros r []]].
  destruct (validateInstantMode _ _ _ _) as [tts'|e] eqn:Hvalid;
    [|cbn [fst]; rewrite preludeOf_remoteCalls;
      split; [cbn; lia | intros r []]].
  destruct (hume (getSettings this rawOpts)) as [client|];
    [|cbn [fst]; rewrite preludeOf_remoteCalls;
      split; [cbn; lia | intros r []]].
  rewrite fst_bind. cbn [fst snd].
  rewrite remoteCalls_app, preludeOf_remoteCalls. cbn [app].
  apply validateInstantMode_Ok in Hvalid.
  destruct (maybeAddContext_fields _ _ _ _ _ _ Hcontext)
    as (Hu & Hn & Hf & Hi & Hs).
  assert (Hrequest :
            utterances tts = [utteranceOf platform this opts]
            /\ map Utterance.text (utterances tts)
               = [if Resolved.text opts =? "-"
                  then trim platform (getStdin this)
                  else Resolved.text opts]).
  { rewrite Hu. split; reflexivity. }
  destruct Hrequest as [Hu1 Hu2].
  cbn [requestOf numGenerations format instantMode stripHeaders] in Hn, Hf, Hi, Hs.
  destruct (Resolved.streaming opts) eqn:Hstreaming.
  - destruct (synthesizeStreaming_remoteCalls platform this tts' client opts
                outputOpts) as [-> | ->].
    + split; [cbn; lia | intros r []].
    + split; [cbn; lia|]. intros r [<-|[]].
      exists outputOpts, tts. subst tts'.
      destruct (Resolved.instantMode opts);
        cbn [set_instantMode set_stripHeaders utterances numGenerations
             format context instantMode stripHeaders];
        rewrite Hu1, Hn, Hf, ?Hi;
        repeat split; first [exact Hcontext | reflexivity].
  - rewrite synthesizeBuffered_remoteCalls.
    split; [cbn; lia|]. intros r [<-|[]].
    exists outputOpts, tts. subst tts'.
    destruct (Resolved.instantMode opts);
      cbn [set_instantMode utterances numGenerations format context
           instantMode stripHeaders];
      rewrite Hu1, Hn, Hf, ?Hi, ?Hs;
      repeat split; first [exact Hcontext | reflexivity].
Qed.

(** X14: without an API key [synthesize] always fails and does nothing
    beyond messages and the read of standard input: no request, no file, no
    history record, no playback; when the options, the output plan, the
    continuation and the instant-mode checks all pass, the error is the
    missing-key error. *)
Theorem synthesize_without_api_key
  (platform : Platform) (this : Tts) (rawOpts : Raw.t) :
  hume (getSettings this rawOpts) = None ->
  let run := synthesize platform this rawOpts in
  (exists e, snd run = Err e)
  /\ Forall (fun e => isQuiet e = true) (fst run)
  /\ (forall opts outputOpts tts tts',
        resolveOpts (env (getSettings this rawOpts))
          (globalConfig (getSettings this rawOpts))
          (session (getSettings this rawOpts)) rawOpts = Ok opts ->
        calculateOutputOpts opts = Ok outputOpts ->
        maybeAddContext (getLastSynthesis this)
          (Resolved.contextGenerationId opts) (Resolved.last opts)
          (Resolved.lastIndex opts) (requestOf platform this opts outputOpts)
        = Ok tts ->
        validateInstantMode opts outputOpts (utteranceOf platform this opts)
          tts = Ok tts' ->
        snd run = Err ApiKeyNotSetError).
Proof.
  intros Hkey run. subst run.
  destruct (resolveOpts (env (getSettings this rawOpts))
              (globalConfig (getSettings this rawOpts))
              (session (getSettings this rawOpts)) rawOpts)
    as [opts|e] eqn:Hresolved.
  - rewrite (synthesize_prelude platform this rawOpts opts Hresolved), Hkey.
    pose proof (preludeOf_quiet opts) as Hquiet.
    destruct (calculateOutputOpts opts) as [outputOpts|e] eqn:Hplan.
    + destruct (maybeAddContext _ _ _ _ _) as [tts|e] eqn:Hcontext.
      * destruct (validateInstantMode _ _ _ _) as [tts'|e] eqn:Hvalid.
        -- split; [eexists; reflexivity|]. split; [exact Hquiet|].
           intros; reflexivity.
        -- split; [eexists; reflexivity|]. split; [exact Hquiet|].
           intros opts0 outputOpts0 tts0 tts0' Heq Hplan0 Hctx0 Hvalid0.
           injection Heq as <-. rewrite Hplan in Hplan0.
           injection Hplan0 as <-. rewrite Hcontext in Hctx0.
           injection Hctx0 as <-. congruence.
      * split; [eexists; reflexivity|]. split; [exact Hquiet|].
        intros opts0 outputOpts0 tts0 tts0' Heq Hplan0 Hctx0 Hvalid0.
        injection Heq as <-. rewrite Hplan in Hplan0.
        injection Hplan0 as <-. congruence.
    + split; [eexists; reflexivity|]. split; [constructor|].
      intros opts0 outputOpts0 tts0 tts0' Heq Hplan0 Hctx0 Hvalid0.
      injection Heq as <-. congruence.
  - unfold synthesize. rewrite Hresolved. cbn [lift bind fst snd].
    split; [eexists; reflexivity|]. split; [constructor|].
    intros opts0 outputOpts0 tts0 tts0' Heq. discriminate.
Qed.

(** ** Runs of the drivers *)

Lemma buffered_remote_failure_witness :
  synthesizeBuffered Node.platform
    (installation emptyConfig emptyConfig None None)
    (Scenario.request "Hello") (Scenario3.failingService "service unavailable")
    Scenario.defaults Scenario.defaultPlan
  = ([SynthesizeJson (Scenario.request "Hello")], Err "service unavailable").
Proof.
  apply (buffered_remote_failure Node.platform
           (installation emptyConfig emptyConfig None None)
           (Scenario.request "Hello")
           (Scenario3.failingService "service unavailable")
           Scenario.defaults Scenario.defaultPlan "service unavailable").
  reflexivity.
Defined.

(** Two generations returned, a player that exits with 1: the history and
    both files are there although the synthesis fails. *)
Lemma buffered_effects_witness :
  savedHistories
    (fst (synthesizeBuffered Node.platform Scenario3.brokenPlayer
            (Scenario.request "Hello")
            (Scenario3.bufferedService Scenario3.twoGenerations)
            Scenario.defaults Scenario.defaultPlan))
  = [{| ids := ["gen_1"; "gen_2"]; timestamp := now Node.platform |}]
  /\ fileWrites
       (fst (synthesizeBuffered Node.platform Scenario3.brokenPlayer
               (Scenario.request "Hello")
               (Scenario3.bufferedService Scenario3.twoGenerations)
               Scenario.defaults Scenario.defaultPlan))
     = [("tts-audio/tts-gen_1.wav", list_byte_of_string "audio1");
        ("tts-audio/tts-gen_2.wav", list_byte_of_string "audio2")].
Proof.
  destruct (buffered_effects Node.platform Scenario3.brokenPlayer
              (Scenario.request "Hello")
              (Scenario3.bufferedService Scenario3.twoGenerations)
              Scenario.defaults 1 "./tts-audio" "tts-" wav
              Scenario3.twoGenerations eq_refl)
    as (Hhistory & Hfiles & _).
  split; [exact Hhistory | exact Hfiles].
Defined.


(** Chunks of [gen_2], [gen_1], [gen_2] with [--play first]: the two
    chunks of [gen_2] are played. *)
Lemma streaming_playback_modes_witness :
  audioWrites
    (fst (synthesizeStreaming Node.platform
            (installation emptyConfig emptyConfig None None)
            (Scenario.request "Hello")
            (streamingService Scenario3.interleaved)
            (resolveFields emptyConfig emptyConfig Scenario3.playFirst)
            Scenario.defaultPlan))
  = [list_byte_of_string "audio0"; list_byte_of_string "audio2"].
Proof.
  destruct (streaming_playback_modes Node.platform
              (installation emptyConfig emptyConfig None None)
              (Scenario.request "Hello")
              (streamingService Scenario3.interleaved)
              (resolveFields emptyConfig emptyConfig Scenario3.playFirst)
              Scenario.defaultPlan eq_refl)
    as (_ & _ & Hfirst).
  apply (Hfirst eq_refl (snippet "gen_2" "YXVkaW8w")
           [snippet "gen_1" "YXVkaW8x"; snippet "gen_2" "YXVkaW8y"] eq_refl).
  discriminate.
Defined.

(** The same stream: the history is [gen_2; gen_1]. *)
Lemma streaming_history_order_witness :
  savedHistories
    (fst (synthesizeStreaming Node.platform
            (installation emptyConfig emptyConfig None None)
            (Scenario.request "Hello")
            (streamingService Scenario3.interleaved)
            Scenario.defaults Scenario.defaultPlan))
  = [{| ids := ["gen_2"; "gen_1"]; timestamp := now Node.platform |}].
Proof.
  apply (streaming_history_order Node.platform
           (installation emptyConfig emptyConfig None None)
           (Scenario.request "Hello")
           (streamingService Scenario3.interleaved)
           Scenario.defaults Scenario.defaultPlan eq_refl).
Defined.

(** [echo "  Hello from a pipe " | hume tts -]: one request, for the
    trimmed text, with [stripHeaders] set. *)
Lemma synthesize_request_witness :
  map (fun r => (map Utterance.text (utterances r), stripHeaders r))
    (remoteCalls
       (fst (synthesize Node.platform
               (Scenario3.piped (streamingService Scenario.twoChunks))
               (Raw.empty "-"))))
  = [(["Hello from a pipe"], Some true)].
Proof.
  destruct (synthesize_request Node.platform
              (Scenario3.piped (streamingService Scenario.twoChunks))
              (Raw.empty "-") _ eq_refl) as [_ Hrequest].
  assert (Hone :
            exists r,
              remoteCalls
                (fst (synthesize Node.platform
                        (Scenario3.piped (streamingService Scenario.twoChunks))
                        (Raw.empty "-")))
              = [r]).
  { eexists. reflexivity. }
  destruct Hone as (r & Hone). rewrite Hone in *.
  destruct (Hrequest r (or_introl eq_refl))
    as (_ & _ & _ & _ & Htext & _ & _ & _ & _ & _ & Hheaders).
  cbn [map]. rewrite Htext, Hheaders. reflexivity.
Defined.

Lemma synthesize_without_api_key_witness :
  snd (synthesize Node.platform
         (installation emptyConfig emptyConfig None None) (Raw.empty "Hello"))
  = Err ApiKeyNotSetError.
Proof.
  destruct (synthesize_without_api_key Node.platform
              (installation emptyConfig emptyConfig None None)
              (Raw.empty "Hello") eq_refl) as (_ & _ & Hmissing).
  apply (Hmissing _ _ _ _ eq_refl eq_refl eq_refl eq_refl).
Defined.

(** ** Saving a voice *)

Lemma index_Val {T} (l : list T) (i : Z) (v : T) :
  index l i = Val v <->
  0 <= i /\ nth_error l (Z.to_nat i) = Some v.
Proof.
  unfold index. destruct (Z.ltb_spec i 0).
  - split; [discriminate | intros [? _]; lia].
  - destruct (nth_error l (Z.to_nat i)) as [x|]; split.
    + intros Heq. injection Heq as ->. auto.
    + intros [_ Heq]. injection Heq as ->. reflexivity.
    + discriminate.
    + intros [_ ?]. discriminate.
Qed.

(** X15: [Voices.save] with [--last] only ever picks a generation of the
    history: a successful choice is a non-empty id at position
    [lastIndex], counted from 1 and within the history, or the first id when
    no index is given; every index between 1 and the length of the history
    that holds a non-empty id is accepted; and a [--generation-id] given
    beside [--last] is ignored. *)
Theorem save_voice_from_history
  (h : GenerationHistory) (generationId : maybe string) (last : maybe bool)
  (lastIndex : maybe Z) :
  truthy last = true ->
  (forall id,
     Voices.save_generationId (Some h) generationId last lastIndex = Ok id ->
     In id (ids h) /\ id <> ""
     /\ match lastIndex with
        | Val i =>
            1 <= i <= Z.of_nat (length (ids h))
            /\ nth_error (ids h) (Z.to_nat (i - 1)) = Some id
        | Undefined => ids h = [id]
        | Null => False
        end)
  /\ (forall i id,
        lastIndex = Val i ->
        1 <= i <= Z.of_nat (length (ids h)) ->
        nth_error (ids h) (Z.to_nat (i - 1)) = Some id ->
        id <> "" ->
        Voices.save_generationId (Some h) generationId last lastIndex = Ok id)
  /\ (forall other history,
        Voices.save_generationId history other last lastIndex
        = Voices.save_generationId history generationId last lastIndex).
Proof.
  intros Hlast. split; [|split].
  - intros id. unfold Voices.save_generationId. rewrite Hlast. cbv zeta.
    destruct (_ && _) eqn:Hmany; [discriminate|].
    destruct (Voices.lastIndexOutOfRange lastIndex _) eqn:Hrange;
      [discriminate|].
    destruct (index (ids h) (Voices.indexOrFirst lastIndex - 1))
      as [| |found] eqn:Hfound; try discriminate.
    destruct (truthy found) eqn:Htruthy; [|discriminate].
    intros Heq. injection Heq as ->.
    apply index_Val in Hfound as [Hpos Hnth].
    split; [eapply nth_error_In; exact Hnth|].
    split; [intros ->; discriminate Htruthy|].
    destruct lastIndex as [| |i]; cbn [Voices.indexOrFirst] in *.
    + rewrite andb_true_r, Z.gtb_ltb in Hmany. apply Z.ltb_ge in Hmany.
      destruct (ids h) as [|x [|y rest]]; cbn [length nth_error Z.to_nat Z.sub
        Z.add Z.opp Z.pos_sub] in *.
      * discriminate.
      * congruence.
      * rewrite !Nat2Z.inj_succ in Hmany. lia.
    + discriminate.
    + cbn [Voices.lastIndexOutOfRange] in Hrange.
      apply orb_false_iff in Hrange as [Hlow Hhigh].
      apply Z.ltb_ge in Hlow.
      rewrite Z.gtb_ltb in Hhigh. apply Z.ltb_ge in Hhigh.
      split; [lia | exact Hnth].
  - intros i id -> Hrange Hnth Hne.
    unfold Voices.save_generationId. rewrite Hlast. cbv zeta.
    rewrite andb_false_r. cbn [Voices.lastIndexOutOfRange Voices.indexOrFirst].
    destruct (Z.ltb_spec i 1); [lia|].
    destruct (Z.gtb_spec i (Z.of_nat (length (ids h)))); [lia|].
    cbn [orb].
    replace (index (ids h) (i - 1)) with (Val id)
      by (symmetry; apply index_Val; split; [lia | exact Hnth]).
    now rewrite (truthy_string_nonempty _ Hne).
  - intros other history. unfold Voices.save_generationId.
    rewrite Hlast. reflexivity.
Qed.

(** [voices create --last --last-index 2] after three generations saves
    [gen_2], whatever [--generation-id] says. *)
Lemma save_voice_from_history_witness :
  Voices.save_generationId (Some Scenario.threeGenerations) (Val "gen_9")
    (Val true) (Val 2)
  = Ok "gen_2".
Proof.
  destruct (save_voice_from_history Scenario.threeGenerations (Val "gen_9")
              (Val true) (Val 2) eq_refl) as (_ & Haccepted & _).
  apply (Haccepted 2 "gen_2" eq_refl); [cbn; lia | reflexivity | discriminate].
Defined.

(** ** Settings *)

(** X16: the reporter is the JSON reporter exactly when [json] is truthy
    on the command line, in the session or in the global config; the
    [pretty] settings never change the mode, so [--pretty] does not override
    a [json] setting of a config. *)
Theorem reporter_mode_json
  (opts : CommonOpts.t) (session globalConfig : ConfigData) :
  (Common.reporterMode opts session globalConfig = Common.JsonMode <->
   truthy (CommonOpts.json opts) = true \/ truthy (json session) = true
   \/ truthy (json globalConfig) = true)
  /\ (forall opts' session' globalConfig',
        CommonOpts.json opts' = CommonOpts.json opts ->
        json session' = json session ->
        json globalConfig' = json globalConfig ->
        Common.reporterMode opts' session' globalConfig'
        = Common.reporterMode opts session globalConfig).
Proof.
  split.
  - unfold Common.reporterMode.
    destruct (truthy (CommonOpts.json opts)), (truthy (json session)),
      (truthy (json globalConfig)); cbn [orb];
      try (split; [auto | reflexivity]);
      destruct (_ || _); split; try discriminate;
      intros [H|[H|H]]; discriminate H.
  - intros opts' session' globalConfig' Ho Hs Hg.
    unfold Common.reporterMode. rewrite Ho, Hs, Hg.
    destruct (_ || _ || _); [reflexivity|].
    destruct (_ || _), (_ || _); reflexivity.
Qed.

Lemma coalesce_Val {T} (v : T) (b : maybe T) : Common.coalesce (Val v) b = Val v.
Proof. reflexivity. Qed.

Lemma coalesce_nullish {T} (a b : maybe T) :
  nullish a = true -> Common.coalesce a b = b.
Proof. unfold Common.coalesce. now intros ->. Qed.

(** X17: the API key is taken from the global config, else from the
    session, else from [HUME_API_KEY], else from [--api-key], a layer
    counting as absent only when it is undefined or null: a key stored in a
    config hides the one given on the command line.  The client exists
    exactly when the key so chosen is a non-empty string, and it then
    carries that key. *)
Theorem api_key_precedence
  (env : list (string * string)) (globalConfig session : ConfigData)
  (opts : CommonOpts.t) :
  let key := Common.apiKeyOf env globalConfig session opts in
  (forall k, apiKey globalConfig = Val k -> key = Val k)
  /\ (nullish (apiKey globalConfig) = true ->
      forall k, apiKey session = Val k -> key = Val k)
  /\ (nullish (apiKey globalConfig) = true ->
      nullish (apiKey session) = true ->
      forall k, Common.lookupEnv env "HUME_API_KEY" = Val k -> key = Val k)
  /\ (nullish (apiKey globalConfig) = true ->
      nullish (apiKey session) = true ->
      nullish (Common.lookupEnv env "HUME_API_KEY") = true ->
      key = CommonOpts.apiKey opts)
  /\ (forall client,
        Common.humeOf env globalConfig session opts = Some client <->
        exists k,
          key = Val k /\ k <> ""
          /\ client
             = Common.getHumeClient k
                 (Common.baseUrlOf env globalConfig session opts)).
Proof.
  cbv zeta. unfold Common.apiKeyOf. repeat split.
  - intros k ->. reflexivity.
  - intros Hg k ->. rewrite (coalesce_nullish _ _ Hg). reflexivity.
  - intros Hg Hs k ->. rewrite (coalesce_nullish _ _ Hg).
    rewrite (coalesce_nullish _ _ Hs). reflexivity.
  - intros Hg Hs He. rewrite (coalesce_nullish _ _ Hg).
    rewrite (coalesce_nullish _ _ Hs). apply coalesce_nullish, He.
  - unfold Common.humeOf, Common.apiKeyOf.
    destruct (Common.coalesce _ _) as [| |k]; try discriminate.
    destruct (truthy k) eqn:Hk; [|discriminate].
    intros Heq. injection Heq as <-. exists k.
    repeat split. intros ->. discriminate Hk.
  - intros (k & Hkey & Hne & ->). unfold Common.humeOf, Common.apiKeyOf.
    rewrite Hkey. now rewrite (truthy_string_nonempty _ Hne).
Qed.

(** X18: the base URL is taken from [--base-url], else from
    [HUME_BASE_URL], else from the session, else from the global config,
    and the client's environment is that URL, or [https://api.hume.ai] when
    no layer gives one. *)
Theorem base_url_precedence
  (env : list (string * string)) (globalConfig session : ConfigData)
  (opts : CommonOpts.t) (key : string) :
  let url := Common.baseUrlOf env globalConfig session opts in
  let environment := Common.client_environment (Common.getHumeClient key url) in
  (forall u, CommonOpts.baseUrl opts = Val u -> environment = u)
  /\ (nullish (CommonOpts.baseUrl opts) = true ->
      forall u, Common.lookupEnv env "HUME_BASE_URL" = Val u -> environment = u)
  /\ (nullish (CommonOpts.baseUrl opts) = true ->
      nullish (Common.lookupEnv env "HUME_BASE_URL") = true ->
      forall u, baseUrl session = Val u -> environment = u)
  /\ (nullish (CommonOpts.baseUrl opts) = true ->
      nullish (Common.lookupEnv env "HUME_BASE_URL") = true ->
      nullish (baseUrl session) = true ->
      forall u, baseUrl globalConfig = Val u -> environment = u)
  /\ (nullish (CommonOpts.baseUrl opts) = true ->
      nullish (Common.lookupEnv env "HUME_BASE_URL") = true ->
      nullish (baseUrl session) = true ->
      nullish (baseUrl globalConfig) = true ->
      environment = "https://api.hume.ai").
Proof.
  cbv zeta. unfold Common.baseUrlOf, Common.getHumeClient.
  cbn [Common.client_environment]. repeat split.
  - intros u ->. reflexivity.
  - intros Ho u ->. rewrite (coalesce_nullish _ _ Ho). reflexivity.
  - intros Ho He u ->. rewrite (coalesce_nullish _ _ Ho).
    rewrite (coalesce_nullish _ _ He). reflexivity.
  - intros Ho He Hs u ->. rewrite (coalesce_nullish _ _ Ho).
    rewrite (coalesce_nullish _ _ He), (coalesce_nullish _ _ Hs). reflexivity.
  - intros Ho He Hs Hg. rewrite (coalesce_nullish _ _ Ho).
    rewrite (coalesce_nullish _ _ He), (coalesce_nullish _ _ Hs).
    destruct (baseUrl globalConfig); [reflexivity | reflexivity | discriminate].
Qed.

(** ** Editing a config *)

Lemma obj_get_set_same key value o :
  Config.obj_get key (Config.obj_set key value o) = Some value.
Proof.
  unfold Config.obj_get, Config.obj_set.
  destruct (existsb _ o) eqn:Hmem.
  - induction o as [|[k v] o IH]; [discriminate|].
    cbn [existsb map find fst] in *.
    destruct (k =? key) eqn:Hk; cbn [fst].
    + now rewrite String.eqb_refl.
    + rewrite Hk. apply IH. exact Hmem.
  - induction o as [|[k v] o IH]; cbn [app find fst existsb] in *.
    + now rewrite String.eqb_refl.
    + apply orb_false_iff in Hmem as [Hk Hmem]. rewrite Hk. now apply IH.
Qed.

Lemma obj_get_set_other key key' value o :
  (key' =? key) = false ->
  Config.obj_get key' (Config.obj_set key value o) = Config.obj_get key' o.
Proof.
  intros Hne. unfold Config.obj_get, Config.obj_set. f_equal.
  destruct (existsb _ o).
  - assert (Hne' : (key =? key') = false) by now rewrite String.eqb_sym.
    induction o as [|[k v] o IH]; [reflexivity|]. cbn [map find fst].
    destruct (k =? key) eqn:Hk; cbn [find fst].
    + apply String.eqb_eq in Hk. subst k. rewrite Hne'. exact IH.
    + destruct (k =? key'); [reflexivity | exact IH].
  - induction o as [|[k v] o IH]; cbn [app find fst].
    + now rewrite String.eqb_sym, Hne.
    + destruct (k =? key'); [reflexivity | exact IH].
Qed.

Lemma obj_set_mem key value o :
  existsb (fun kv => fst kv =? key) (Config.obj_set key value o) = true.
Proof.
  unfold Config.obj_set. destruct (existsb _ o) eqn:Hmem.
  - induction o as [|[k v] o IH]; [discriminate|].
    cbn [existsb map fst] in *.
    destruct (k =? key) eqn:Hk; cbn [fst].
    + now rewrite String.eqb_refl.
    + rewrite Hk. apply IH. exact Hmem.
  - rewrite existsb_app. cbn. rewrite String.eqb_refl. apply orb_true_r.
Qed.

Lemma obj_set_set key v1 v2 o :
  Config.obj_set key v2 (Config.obj_set key v1 o) = Config.obj_set key v2 o.
Proof.
  unfold Config.obj_set at 1. rewrite obj_set_mem.
  unfold Config.obj_set. destruct (existsb _ o) eqn:Hmem.
  - rewrite map_map. apply map_ext. intros [k v]. cbn [fst].
    destruct (k =? key) eqn:Hk; cbn [fst]; [|now rewrite Hk].
    now rewrite String.eqb_refl.
  - rewrite map_app. cbn [map fst]. rewrite String.eqb_refl. f_equal.
    rewrite <- (map_id o) at 2. apply map_ext_in. intros [k v] Hin.
    cbn [fst]. destruct (k =? key) eqn:Hk; [|reflexivity].
    exfalso. assert (Hex : existsb (fun kv => fst kv =? key) o = true).
    { apply existsb_exists. exists (k, v). auto. }
    congruence.
Qed.

(** X19: [editConfigKV] stores a value where readers look for it: after
    setting a name its value is the one set, whether or not the config had
    a [tts] object before; every other name keeps what it had; and setting a
    name twice leaves the second value only. *)
Theorem edit_config
  (name : Config.ConfigName) (value : Config.Value) (config : Config.t) :
  Config.lookup name (Config.editConfigKV name value config) = Some value
  /\ (forall other,
        other <> name ->
        Config.lookup other (Config.editConfigKV name value config)
        = Config.lookup other config)
  /\ (forall value',
        Config.editConfigKV name value'
          (Config.editConfigKV name value config)
        = Config.editConfigKV name value' config).
Proof.
  split; [|split].
  - unfold Config.lookup, Config.editConfigKV.
    destruct (prefix "tts." (Config.nameString name));
      cbn [Config.section Config.fields]; apply obj_get_set_same.
  - intros other Hother. unfold Config.lookup, Config.editConfigKV.
    destruct config as [[o|] fields];
      destruct name, other; try contradiction;
      cbn [prefix Config.nameString Config.section Config.fields
           Config.innerNameOf];
      try reflexivity;
      try (apply obj_get_set_other; reflexivity).
  - intros value'. unfold Config.editConfigKV.
    destruct (prefix "tts." (Config.nameString name));
      cbn [Config.section Config.fields]; now rewrite obj_set_set.
Qed.

(** Setting [tts.voiceName] in an empty config, then reading it and
    [apiKey]. *)
Lemma edit_config_witness :
  Config.lookup Config.tts_voiceName
    (Config.editConfigKV Config.tts_voiceName (Config.VString "narrator")
       Config.empty)
  = Some (Config.VString "narrator")
  /\ Config.lookup Config.name_apiKey
       (Config.editConfigKV Config.tts_voiceName (Config.VString "narrator")
          Config.empty)
     = None.
Proof.
  destruct (edit_config Config.tts_voiceName (Config.VString "narrator")
              Config.empty) as (Hset & Hother & _).
  split; [exact Hset|].
  rewrite (Hother Config.name_apiKey); [reflexivity | discriminate].
Defined.

(** ** The audio player *)

Lemma replace_absent pattern replacement s :
  PlayAudio.includes pattern s = false ->
  PlayAudio.replace pattern replacement s = s.
Proof.
  unfold PlayAudio.includes, PlayAudio.replace.
  destruct (String.index 0 pattern s); [discriminate | reflexivity].
Qed.

(** X20: a custom play command is split at its spaces into the program
    and its arguments.  When no argument holds the placeholder
    [$AUDIO_FILE], the arguments are used as they are, for a file as for
    standard input: the path of the file is not passed to the player.  When
    an argument holds it, the arguments for standard input are the
    arguments with its first occurrence in each replaced by [-]. *)
Theorem custom_command_placeholder (command : string) :
  let c := PlayAudio.parseCustomCommand command in
  let args := tl (PlayAudio.split command) in
  PlayAudio.cmd c :: args = PlayAudio.split command
  /\ ((forall arg, In arg args ->
                   PlayAudio.includes PlayAudio.placeholder arg = false) ->
      (forall path, PlayAudio.argsWithPath c path = args)
      /\ PlayAudio.argsWithStdin c = Some args)
  /\ ((exists arg, In arg args
                   /\ PlayAudio.includes PlayAudio.placeholder arg = true) ->
      PlayAudio.argsWithStdin c
      = Some (map (PlayAudio.replace PlayAudio.placeholder "-") args))
  /\ PlayAudio.replace PlayAudio.placeholder "-" PlayAudio.placeholder = "-".
Proof.
  cbv zeta. unfold PlayAudio.parseCustomCommand.
  cbn [PlayAudio.cmd PlayAudio.argsWithPath PlayAudio.argsWithStdin].
  split; [|split; [|split]].
  - assert (Hnonempty : PlayAudio.split command <> []).
    { destruct command as [|ch rest]; cbn [PlayAudio.split]; [discriminate|].
      destruct (Ascii.eqb ch " "); [discriminate|].
      destruct (PlayAudio.split rest); discriminate. }
    destruct (PlayAudio.split command); [contradiction | reflexivity].
  - intros Hnone.
    assert (Hsame : forall path,
               map (PlayAudio.replace PlayAudio.placeholder path)
                 (tl (PlayAudio.split command))
               = tl (PlayAudio.split command)).
    { intros path. rewrite <- (map_id (tl _)) at 2. apply map_ext_in.
      intros arg Hin. apply replace_absent, Hnone, Hin. }
    split; [exact Hsame|].
    destruct (existsb _ _); [now rewrite Hsame | reflexivity].
  - intros (arg & Hin & Hholds).
    replace (existsb _ _) with true; [reflexivity|].
    symmetry. apply existsb_exists. exists arg. auto.
  - reflexivity.
Qed.

(** [mpv --no-video] as play command: the file to play is not among the
    arguments. *)
Lemma custom_command_placeholder_witness :
  PlayAudio.argsWithPath (PlayAudio.parseCustomCommand "mpv --no-video")
    "tts-audio/tts-gen_1.wav"
  = ["--no-video"].
Proof.
  destruct (custom_command_placeholder "mpv --no-video")
    as (_ & Hplain & _).
  apply Hplain. intros arg [<-|[]]. reflexivity.
Defined.

(** X21: the player for streaming playback.  A non-empty custom command
    is always accepted, the default players not being consulted.  Without
    one, the first default player whose check does not throw is taken: when
    every check throws there is no player; [powershell] (first on Windows)
    and [afplay] have no way to read standard input and are refused; any
    player that is accepted reads standard input through the last
    argument [-]; off Windows, [ffplay] is taken when its check does not
    throw. *)
Theorem stdin_player_choice
  (isWindows : bool) (spawnSyncThrows : string -> string -> bool) :
  (forall command,
     command <> "" ->
     PlayAudio.stdinCommand isWindows spawnSyncThrows (Some command)
     = Ok (PlayAudio.parseCustomCommand command))
  /\ PlayAudio.stdinCommand isWindows spawnSyncThrows (Some "")
     = PlayAudio.stdinCommand isWindows spawnSyncThrows None
  /\ ((forall checkCmd cmd, spawnSyncThrows checkCmd cmd = true) ->
      PlayAudio.stdinCommand isWindows spawnSyncThrows None
      = Err "No audio player found. Please install ffplay or specify a custom player with --play-command")
  /\ (isWindows = true ->
      spawnSyncThrows "where" "powershell" = false ->
      PlayAudio.stdinCommand isWindows spawnSyncThrows None
      = Err "The audio player does not support playing from stdin. Please specify a custom player with --play-command")
  /\ (isWindows = false ->
      spawnSyncThrows "which" "ffplay" = true ->
      spawnSyncThrows "which" "afplay" = false ->
      PlayAudio.stdinCommand isWindows spawnSyncThrows None
      = Err "The audio player does not support playing from stdin. Please specify a custom player with --play-command")
  /\ (forall c,
        PlayAudio.stdinCommand isWindows spawnSyncThrows None = Ok c ->
        In (PlayAudio.cmd c) ["ffplay"; "mplayer"; "mpv"; "aplay"; "play"]
        /\ exists args,
             PlayAudio.argsWithStdin c = Some args /\ last args "" = "-")
  /\ (isWindows = false ->
      spawnSyncThrows "which" "ffplay" = false ->
      exists c,
        PlayAudio.stdinCommand isWindows spawnSyncThrows None = Ok c
        /\ PlayAudio.cmd c = "ffplay"
        /\ PlayAudio.argsWithStdin c
           = Some ["-nodisp"; "-autoexit"; "-i"; "-"]).
Proof.
  split; [|split; [|split; [|split; [|split; [|split]]]]].
  - intros command Hne. unfold PlayAudio.stdinCommand.
    rewrite (truthy_string_nonempty _ Hne). reflexivity.
  - reflexivity.
  - intros Hthrows. unfold PlayAudio.stdinCommand,
      PlayAudio.findDefaultAudioPlayer_.
    destruct isWindows; cbn [PlayAudio.commonPlayers find PlayAudio.cmd];
      rewrite !Hthrows; reflexivity.
  - intros -> Hfound. unfold PlayAudio.stdinCommand,
      PlayAudio.findDefaultAudioPlayer_.
    cbn [PlayAudio.commonPlayers find PlayAudio.cmd]. rewrite Hfound.
    reflexivity.
  - intros -> Hffplay Hafplay. unfold PlayAudio.stdinCommand,
      PlayAudio.findDefaultAudioPlayer_.
    cbn [PlayAudio.commonPlayers find PlayAudio.cmd].
    rewrite Hffplay, Hafplay. reflexivity.
  - intros c. unfold PlayAudio.stdinCommand,
      PlayAudio.findDefaultAudioPlayer_.
    destruct isWindows; cbn [PlayAudio.commonPlayers find PlayAudio.cmd];
      repeat match goal with
             | |- context [spawnSyncThrows ?a ?b] =>
                 destruct (spawnSyncThrows a b)
             end;
      cbn; try discriminate;
      intros Heq; injection Heq as <-; cbn;
      (split; [tauto | eexists; split; reflexivity]).
  - intros -> Hfound. unfold PlayAudio.stdinCommand,
      PlayAudio.findDefaultAudioPlayer_.
    cbn [PlayAudio.commonPlayers find PlayAudio.cmd]. rewrite Hfound.
    eexists. repeat split.
Qed.

(** ** The streaming driver: what a failure of the stream or of the player leaves *)

Section StreamingPhase.
Variable platform : Platform.
Variable this : Tts.
Variable tts : PostedTts.
Variable hume : HumeClient.
Variable opts : Resolved.t.
Variable outputOpts : SynthesisOutputOpts.


(** X9: when [withStdinAudioPlayer] refuses the player command before it
    spawns a process ([ensureAudioPlayer] or [ensureStdinSupport]
    throws), a streaming synthesis with playback on fails with that error
    before the request is sent: its only event is the message that
    announces streaming mode.  With playback off the player is not asked
    for and the request is sent. *)
Theorem streaming_player_refused (e : string) :
  stdinPlayer this (Resolved.playCommand opts) = Err e ->
  (Resolved.play opts <> off ->
   synthesizeStreaming platform this tts hume opts outputOpts
   = ([Info "Using streaming mode"], Err e))
  /\ (Resolved.play opts = off ->
      remoteCalls
        (fst (synthesizeStreaming platform this tts hume opts outputOpts))
      = [set_stripHeaders true tts]
      /\ (failure (synthesizeJsonStreaming hume (set_stripHeaders true tts))
          = None ->
          snd (synthesizeStreaming platform this tts hume opts outputOpts)
          = Ok tt)).
Proof.
  intros Hplayer. rewrite synthesizeStreaming_run. cbv zeta. split.
  - intros Hplay.
    destruct (PlayMode_eqb (Resolved.play opts) off) eqn:Hoff.
    + apply PlayMode_eqb_eq in Hoff. contradiction.
    + rewrite Hplayer. reflexivity.
  - intros ->. cbn [PlayMode_eqb].
    destruct (failure _); cbn [fst snd].
    + split; [reflexivity | discriminate].
    + rewrite !remoteCalls_cons, remoteCalls_epilogue.
      split; reflexivity.
Qed.
End StreamingPhase.


(** On Windows without [--play-command] the default player is
    [powershell], which cannot play from stdin: the synthesis stops before
    the request. *)
Lemma streaming_player_refused_witness :
  synthesizeStreaming Node.platform (Windows.installation None)
    (Scenario.request "Hello") (streamingService Scenario.twoChunks)
    Scenario.defaults Scenario.defaultPlan
  = ([Info "Using streaming mode"],
     Err "The audio player does not support playing from stdin. Please specify a custom player with --play-command").
Proof.
  apply (streaming_player_refused Node.platform (Windows.installation None)
           (Scenario.request "Hello") (streamingService Scenario.twoChunks)
           Scenario.defaults Scenario.defaultPlan
           "The audio player does not support playing from stdin. Please specify a custom player with --play-command").
  - reflexivity.
  - discriminate.
Defined.

(** ** The path handed to a custom play command *)

Lemma string_length_app (a b : string) :
  String.length (a ++ b) = (String.length a + String.length b)%nat.
Proof. induction a as [|c a IH]; cbn; [reflexivity | now rewrite IH]. Qed.

Lemma string_app_nil_r (s : string) : s ++ "" = s.
Proof. induction s as [|c s IH]; cbn; [reflexivity | now rewrite IH]. Qed.

Lemma substring_all (s : string) : substring 0 (String.length s) s = s.
Proof. induction s as [|c s IH]; cbn; [reflexivity | now rewrite IH]. Qed.

Lemma substring_take (a b : string) :
  substring 0 (String.length a) (a ++ b) = a.
Proof.
  induction a as [|c a IH]; cbn; [now destruct b | now rewrite IH].
Qed.

Lemma substring_drop (a b : string) (k m : nat) :
  substring (String.length a + k) m (a ++ b) = substring k m b.
Proof. induction a as [|c a IH]; cbn; [reflexivity | exact IH]. Qed.

Lemma prefix_app (a b : string) : prefix a (a ++ b) = true.
Proof.
  induction a as [|c a IH]; cbn; [now destruct b|].
  destruct (ascii_dec c c); [exact IH | contradiction].
Qed.

Lemma includes_dollar_cons (c : ascii) (s : string) :
  PlayAudio.includes "$" (String c s) = false ->
  c <> "$"%char /\ PlayAudio.includes "$" s = false.
Proof.
  unfold PlayAudio.includes. cbn [String.index prefix].
  destruct (ascii_dec "$" c) as [Heq|Hne].
  - replace (prefix "" s) with true by now destruct s. discriminate.
  - destruct (String.index 0 "$" s); [discriminate|].
    split; [congruence | reflexivity].
Qed.

Lemma getSubstitution_cons matched before after (c : ascii) (t : string) :
  c <> "$"%char ->
  PlayAudio.getSubstitution matched before after (String c t)
  = String c (PlayAudio.getSubstitution matched before after t).
Proof.
  intros Hc. apply Ascii.eqb_neq in Hc.
  destruct t; cbn [PlayAudio.getSubstitution]; rewrite ?Hc; reflexivity.
Qed.

Lemma getSubstitution_plain_app matched before after (p t : string) :
  PlayAudio.includes "$" p = false ->
  PlayAudio.getSubstitution matched before after (p ++ t)
  = p ++ PlayAudio.getSubstitution matched before after t.
Proof.
  induction p as [|c p IH]; intros Hp; [reflexivity|].
  apply includes_dollar_cons in Hp as [Hc Hp]. cbn [append].
  rewrite getSubstitution_cons by exact Hc. now rewrite IH.
Qed.

Lemma index_placeholder (before after : string) :
  PlayAudio.includes "$" before = false ->
  String.index 0 PlayAudio.placeholder
    (before ++ PlayAudio.placeholder ++ after)
  = Some (String.length before).
Proof.
  induction before as [|c before IH]; intros Hplain.
  - cbn [append String.length].
    assert (Hprefix :
              prefix PlayAudio.placeholder (PlayAudio.placeholder ++ after)
              = true) by apply prefix_app.
    destruct (PlayAudio.placeholder ++ after) eqn:Happ;
      [discriminate Happ|].
    cbn [String.index]. now rewrite Hprefix.
  - apply includes_dollar_cons in Hplain as [Hc Hplain].
    cbn [append String.length String.index].
    replace (prefix PlayAudio.placeholder
               (String c (before ++ PlayAudio.placeholder ++ after)))
      with false.
    + now rewrite IH.
    + unfold PlayAudio.placeholder. cbn [prefix].
      destruct (ascii_dec "$" c); [congruence | reflexivity].
Qed.

Lemma replace_placeholder (before after path : string) :
  PlayAudio.includes "$" before = false ->
  PlayAudio.replace PlayAudio.placeholder path
    (before ++ PlayAudio.placeholder ++ after)
  = before
    ++ PlayAudio.getSubstitution PlayAudio.placeholder before after path
    ++ after.
Proof.
  intros Hplain. unfold PlayAudio.replace.
  rewrite (index_placeholder _ _ Hplain). cbv zeta.
  rewrite substring_take, substring_drop, !string_length_app.
  replace (String.length before
           + (String.length PlayAudio.placeholder + String.length after)
           - (String.length before + String.length PlayAudio.placeholder))%nat
    with (String.length after) by lia.
  pose proof (substring_drop PlayAudio.placeholder after 0
                (String.length after)) as Hdrop.
  rewrite Nat.add_0_r in Hdrop. rewrite Hdrop, substring_all. reflexivity.
Qed.

(** X22: the path of the file in an argument [before$AUDIO_FILEafter] of a
    custom play command.  A path without [$] takes the place of the
    placeholder as it is.  A path with [$] is read as a replacement
    pattern: [$$] in it reaches the player as a single [$], and [$&] as
    the text [$AUDIO_FILE], so the player is given another path than the
    one that was written. *)
Theorem custom_command_path (before after : string) :
  PlayAudio.includes "$" before = false ->
  (forall path,
     PlayAudio.includes "$" path = false ->
     PlayAudio.replace PlayAudio.placeholder path
       (before ++ PlayAudio.placeholder ++ after)
     = before ++ path ++ after)
  /\ (forall p q,
        PlayAudio.includes "$" p = false ->
        PlayAudio.includes "$" q = false ->
        PlayAudio.replace PlayAudio.placeholder (p ++ "$$" ++ q)
          (before ++ PlayAudio.placeholder ++ after)
        = before ++ (p ++ "$" ++ q) ++ after
        /\ PlayAudio.replace PlayAudio.placeholder (p ++ "$&" ++ q)
             (before ++ PlayAudio.placeholder ++ after)
           = before ++ (p ++ PlayAudio.placeholder ++ q) ++ after).
Proof.
  intros Hplain.
  assert (Hsame : forall m b a q,
             PlayAudio.includes "$" q = false ->
             PlayAudio.getSubstitution m b a q = q).
  { intros m b a q Hq.
    rewrite <- (string_app_nil_r q) at 1.
    rewrite getSubstitution_plain_app by exact Hq.
    apply string_app_nil_r. }
  split.
  - intros path Hpath. rewrite replace_placeholder by exact Hplain.
    now rewrite Hsame.
  - intros p q Hp Hq. split; rewrite replace_placeholder by exact Hplain;
      rewrite getSubstitution_plain_app by exact Hp.
    + destruct q as [|c q]; [reflexivity|].
      change (PlayAudio.getSubstitution PlayAudio.placeholder before after
                ("$$" ++ String c q))
        with ("$" ++ PlayAudio.getSubstitution PlayAudio.placeholder before
                       after (String c q)).
      now rewrite Hsame.
    + destruct q as [|c q]; [reflexivity|].
      change (PlayAudio.getSubstitution PlayAudio.placeholder before after
                ("$&" ++ String c q))
        with (PlayAudio.placeholder
              ++ PlayAudio.getSubstitution PlayAudio.placeholder before
                   after (String c q)).
      now rewrite Hsame.
Qed.

(** [--play-command "mpv --no-video $AUDIO_FILE"] and the file
    [out/a$$b.wav]: the player is given [out/a$b.wav]. *)
Lemma custom_command_path_witness :
  PlayAudio.argsWithPath
    (PlayAudio.parseCustomCommand "mpv --no-video $AUDIO_FILE")
    "out/a$$b.wav"
  = ["--no-video"; "out/a$b.wav"].
Proof.
  destruct (custom_command_path "" "" eq_refl) as [_ Hdollar].
  destruct (Hdollar "out/a" "b.wav" eq_refl eq_refl) as [Hdouble _].
  transitivity
    ["--no-video";
     PlayAudio.replace PlayAudio.placeholder ("out/a" ++ "$$" ++ "b.wav")
       ("" ++ PlayAudio.placeholder ++ "")].
  - reflexivity.
  - rewrite Hdouble. reflexivity.
Defined.
